(** * Verification of the npmx.dev diff and comparison engine

    Shallow embedding of [shared/utils/diff.ts] (the unified-diff parser,
    the similarity scorer, the inline word aligner, the hunk processor, the
    skip-block inserter and the stats counter) and of the compare utilities
    ([flattenTree], [compareFileTrees], [compareDependencies]).

    Conventions of the embedding:
    - a JavaScript string is the list of its UTF-16 code units;
    - [s[i]] is list lookup, [undefined] being [None];
    - a JavaScript number that holds an integer (a line number, a length,
      a counter) is the [Z] it holds, and one that holds a fraction (the
      [maxChangeRatio] option) the [Q] it holds; an operation whose exact
      result need not be a double returns the double nearest to it
      ([Number.ofZ], [Number.ofQ]).  [calculateChangeRatio] is kept as the
      exact quotient, which is rounded where it is compared.  Infinity and
      NaN are not modelled: statements that depend on the value of a number
      bound it;
    - arrays are lists, [push] appends at the end;
    - a [Map] is an association list in insertion order. *)

From stdpp Require Import base list numbers sorting.
From Stdlib Require Import QArith Qabs Ascii.
From Stdlib Require String DecimalString.
Import String.StringSyntax.
From Equations Require Import Equations.

Set Default Proof Using "Type".
Local Open Scope Z_scope.

(** ** JavaScript strings *)

Module JS.

Abbreviation code_unit := N (only parsing).
Abbreviation jsstring := (list N) (only parsing).

(** String literal of the development: the code units of an ASCII text. *)
Definition lit (s : String.string) : jsstring :=
  map N_of_ascii (String.list_ascii_of_string s).
Arguments lit s%_string_scope.

(** [a === b] on strings. *)
Definition str_eqb (a b : jsstring) : bool := bool_decide (a = b).

(** [xs.join('')]. *)
Definition join (xs : list jsstring) : jsstring := concat xs.

(** [s.startsWith(p)]. *)
Fixpoint startsWith (s p : jsstring) : bool :=
  match p, s with
  | [], _ => true
  | _ :: _, [] => false
  | c :: p', d :: s' => bool_decide (c = d) && startsWith s' p'
  end.

(** The class [\s] of ECMAScript regular expressions: WhiteSpace and
    LineTerminator code units. *)
Definition is_space (c : code_unit) : bool :=
  ((9 <=? c) && (c <=? 13) || (c =? 32) || (c =? 160) || (c =? 5760)
   || (8192 <=? c) && (c <=? 8202) || (c =? 8232) || (c =? 8233)
   || (c =? 8239) || (c =? 8287) || (c =? 12288) || (c =? 65279))%N.

(** LineTerminator code units: the ones [.] does not match. *)
Definition is_line_terminator (c : code_unit) : bool :=
  ((c =? 10) || (c =? 13) || (c =? 8232) || (c =? 8233))%N.

Definition is_digit (c : code_unit) : bool := ((48 <=? c) && (c <=? 57))%N.

End JS.
Import JS.

(** ** JavaScript numbers *)

Module Number.

(** [Number.MAX_SAFE_INTEGER]: up to it, in both directions, every integer
    is a double. *)
Definition MAX_SAFE_INTEGER : Z := 2 ^ 53 - 1.

(** The integer nearest to [n / d] for [d > 0], the even one of the two
    when [n / d] lies half way between them. *)
Definition roundHalfEven (n d : Z) : Z :=
  let q := n / d in
  match 2 * (n mod d) ?= d with
  | Lt => q
  | Gt => q + 1
  | Eq => if Z.even q then q else q + 1
  end.

(** [2 ^ p], and 1 for a negative [p]. *)
Definition pow2 (p : Z) : Z := 2 ^ Z.max p 0.

(** The double nearest to the integer [z]: [z] itself up to
    [MAX_SAFE_INTEGER], a multiple of a power of two with a significand of
    53 bits beyond. *)
Definition ofZ (z : Z) : Z :=
  let a := Z.abs z in
  if a <=? MAX_SAFE_INTEGER then z
  else
    let e := Z.log2 a - 52 in
    Z.sgn z * (roundHalfEven a (2 ^ e) * 2 ^ e).

(** The double nearest to the rational [x]: with [e] the exponent that
    brings [|x| / 2 ^ e] between [2 ^ 52] and [2 ^ 53], the nearest integer
    to that quotient, times [2 ^ e]. *)
Definition ofQ (x : Q) : Q :=
  let n := Z.abs (Qnum x) in
  let d := Z.pos (Qden x) in
  if n =? 0 then 0%Q
  else
    let l := Z.log2 n - Z.log2 d in
    let e := (if d * pow2 l <=? n * pow2 (- l) then l else l - 1) - 52 in
    let m := roundHalfEven (n * pow2 (- e)) (d * pow2 e) in
    let v := Qmake (m * pow2 e) (Z.to_pos (pow2 (- e))) in
    if Qnum x <? 0 then Qopp v else v.

(** [a + b] and [a - b] on integer doubles. *)
Definition add (a b : Z) : Z := ofZ (a + b).
Definition sub (a b : Z) : Z := ofZ (a - b).

(** The decimal digits of an integer, with its sign. *)
Definition digits (z : Z) : jsstring :=
  lit (DecimalString.NilZero.string_of_int (Z.to_int z)).

(** The decimal of [k] significant digits nearest to the double [x] of
    [numDigits] digits, if it reads back as [x]. *)
Definition shortestWith (x numDigits k : Z) : option Z :=
  if numDigits <? k then None
  else
    let scale := 10 ^ (numDigits - k) in
    let lo := x / scale * scale in
    let hi := lo + scale in
    match bool_decide (ofZ lo = x), bool_decide (ofZ hi = x) with
    | true, true =>
        match x - lo ?= hi - x with
        | Lt => Some lo
        | Gt => Some hi
        | Eq => if Z.even (x / scale) then Some lo else Some hi
        end
    | true, false => Some lo
    | false, true => Some hi
    | false, false => None
    end.

Fixpoint firstSome {A B} (f : A -> option B) (l : list A) : option B :=
  match l with
  | [] => None
  | a :: l' => match f a with Some b => Some b | None => firstSome f l' end
  end.

(** The decimal with the fewest significant digits that reads back as the
    double [x > 0]; 17 digits always do. *)
Definition shortest (x : Z) : Z :=
  let numDigits := Z.of_nat (length (digits x)) in
  default x (firstSome (shortestWith x numDigits) (seqZ 1 17)).

Fixpoint dropZeros (rdigits : jsstring) : jsstring :=
  match rdigits with
  | 48%N :: rest => dropZeros rest
  | _ => rdigits
  end.

(** [String(z)] for an integer double [z]: all its digits up to
    [MAX_SAFE_INTEGER]; beyond, the digits of the shortest decimal that
    reads back as [z], followed by zeros up to 21 digits and in exponent
    form from there on. *)
Definition toString (z : Z) : jsstring :=
  if Z.abs z <=? MAX_SAFE_INTEGER then digits z
  else
    let ds := digits (shortest (Z.abs z)) in
    let n := Z.of_nat (length ds) in
    let sign := if z <? 0 then lit "-" else [] in
    if n <=? 21 then sign ++ ds
    else
      match rev (dropZeros (rev ds)) with
      | [] => sign ++ ds
      | [d] => sign ++ [d] ++ lit "e+" ++ digits (n - 1)
      | d :: ds' => sign ++ [d] ++ lit "." ++ ds' ++ lit "e+" ++ digits (n - 1)
      end.

End Number.

(** ** shared/utils/diff.ts *)

(** *** Similarity scorer *)

(** [if (a[i] !== b[i]) changedChars++]. *)
Definition countStep (a b : jsstring) (changedChars : Z) (i : nat) : Z :=
  if bool_decide (a !! i = b !! i) then changedChars else changedChars + 1.

(** The [for] loop of [calculateChangeRatio]: positions [0 .. maxLen-1]. *)
Definition countChanged (a b : jsstring) (maxLen : nat) : Z :=
  fold_left (countStep a b) (seq 0 maxLen) 0.

(** The quotient [changedChars / totalChars] is the exact one; the double
    the code returns is [Number.ofQ] of it. *)
Definition calculateChangeRatio (a b : jsstring) : Q :=
  let totalChars := Z.of_nat (length a) + Z.of_nat (length b) in
  if totalChars =? 0 then 1%Q
  else
    let maxLen := Nat.max (length a) (length b) in
    let changedChars := countChanged a b maxLen in
    let changedChars :=
      changedChars + Z.abs (Z.of_nat (length a) - Z.of_nat (length b)) in
    (inject_Z changedChars / inject_Z totalChars)%Q.

(** The ratio compared with [maxChangeRatio] is the double the division of
    [calculateChangeRatio] returns. *)
Definition isSimilarEnough (a b : jsstring) (maxChangeRatio : Q) : bool :=
  if Qle_bool maxChangeRatio 0 then str_eqb a b
  else if Qle_bool 1 maxChangeRatio then true
  else Qle_bool (Number.ofQ (calculateChangeRatio a b)) maxChangeRatio.

(** The score in the words of the specification: position-wise mismatches
    over the longer length, a position past the end of the shorter string
    being a mismatch. *)
Fixpoint mismatches (a b : jsstring) : Z :=
  match a, b with
  | [], _ => Z.of_nat (length b)
  | _, [] => Z.of_nat (length a)
  | x :: a', y :: b' => (if bool_decide (x = y) then 0 else 1) + mismatches a' b'
  end.

Definition score_spec (a b : jsstring) : Q :=
  if bool_decide (a = [] ∧ b = []) then 1%Q
  else
    (inject_Z (mismatches a b + Z.abs (Z.of_nat (length a) - Z.of_nat (length b)))
     / inject_Z (Z.of_nat (length a) + Z.of_nat (length b)))%Q.


(** *** Data model of the diff ([shared/types/compare]) *)

(** ['insert' | 'delete' | 'normal'], the tag of raw changes, lines and
    segments. *)
Inductive Kind := Insert | Delete | Normal.

Global Instance Kind_eq_dec : EqDecision Kind.
Proof. solve_decision. Defined.

Record DiffLineSegment := mkSegment {
  seg_value : jsstring;
  seg_type : Kind
}.

Record DiffLine := mkLine {
  line_type : Kind;
  line_oldLineNumber : option Z;
  line_newLineNumber : option Z;
  line_lineNumber : option Z;
  line_content : list DiffLineSegment
}.

Record RawChange := mkChange {
  rc_type : Kind;
  rc_content : jsstring;
  rc_lineNumber : option Z;
  rc_oldLineNumber : option Z;
  rc_newLineNumber : option Z;
  rc_isNormal : option bool
}.

Record ParseOptions := mkOptions {
  maxDiffDistance : Z;
  maxChangeRatio : Q;
  mergeModifiedLines : bool;
  inlineMaxCharEdits : Z
}.

Definition defaultOptions : ParseOptions :=
  {| maxDiffDistance := 30;
     maxChangeRatio := Number.ofQ (45 # 100);
     mergeModifiedLines := true;
     inlineMaxCharEdits := 2 |}.

(** *** Inline word aligner *)

(** [s.split(/(\s+)/)]: the maximal runs of non-whitespace and of whitespace
    code units, alternating and starting and ending with a non-whitespace run
    (which is empty when [s] starts or ends with whitespace).  [inWs] tells
    whether the run being read, [cur], is a whitespace run. *)
Fixpoint splitRuns (inWs : bool) (cur s : jsstring) : list jsstring :=
  match s with
  | [] => if inWs then [cur; []] else [cur]
  | c :: s' =>
      if bool_decide (is_space c = inWs) then splitRuns inWs (cur ++ [c]) s'
      else cur :: splitRuns (is_space c) [c] s'
  end.

Definition splitWords (s : jsstring) : list jsstring := splitRuns false [] s.

(** The last segment is extended in place when it has the kind [ty]
    ([last.value += v]), a new segment is pushed otherwise. *)
Definition extendOrPush (ty : Kind) (segments : list DiffLineSegment)
    (v : jsstring) : list DiffLineSegment :=
  match last segments with
  | Some l =>
      if bool_decide (seg_type l = ty)
      then <[(length segments - 1)%nat := mkSegment (seg_value l ++ v) (seg_type l)]> segments
      else segments ++ [mkSegment v ty]
  | None => segments ++ [mkSegment v ty]
  end.

(** [for (let look = 1; look <= 3 && i + look < words.length; look++)
       if (words[i + look] === w) ...]: the first [look] that syncs. *)
Definition findSync (words : list jsstring) (i : nat) (w : jsstring) : option nat :=
  List.find
    (fun look => bool_decide (i + look < length words)%nat
                 && bool_decide (words !! (i + look)%nat = Some w))
    [1; 2; 3]%nat.

Record AlignState := mkAlign {
  segments : list DiffLineSegment;
  oi : nat;
  ni : nat
}.

(** One iteration of the [while] loop of [buildInlineDiffSegments]:
    [inr] is the segment list when the loop is left (condition false or
    [break]), [inl] the state after a full iteration. *)
Definition alignStep (oldWords newWords : list jsstring) (st : AlignState)
    : AlignState + list DiffLineSegment :=
  match oldWords !! oi st, newWords !! ni st with
  | None, None => inr (segments st)
  | None, Some _ =>
      inr (segments st ++ [mkSegment (join (drop (ni st) newWords)) Insert])
  | Some _, None =>
      inr (segments st ++ [mkSegment (join (drop (oi st) oldWords)) Delete])
  | Some ow, Some nw =>
      if str_eqb ow nw then
        inl (mkAlign (extendOrPush Normal (segments st) ow) (oi st + 1) (ni st + 1))
      else
        match findSync newWords (ni st) ow with
        | Some look =>
            inl (mkAlign
                   (segments st ++
                      [mkSegment (join (take look (drop (ni st) newWords))) Insert])
                   (oi st) (ni st + look))
        | None =>
            match findSync oldWords (oi st) nw with
            | Some look =>
                inl (mkAlign
                       (segments st ++
                          [mkSegment (join (take look (drop (oi st) oldWords))) Delete])
                       (oi st + look) (ni st))
            | None =>
                inl (mkAlign
                       (segments st ++ [mkSegment ow Delete; mkSegment nw Insert])
                       (oi st + 1) (ni st + 1))
            end
        end
  end.

(** Matching on [inspect x] keeps the equation between [x] and the pattern. *)
Definition inspect {A : Type} (x : A) : {y : A | x = y} := exist _ x eq_refl.

(** Tokens not yet consumed: every full iteration lowers it. *)
Definition remaining (oldWords newWords : list jsstring) (st : AlignState) : nat :=
  ((length oldWords - oi st) + (length newWords - ni st))%nat.

Equations? alignLoop (oldWords newWords : list jsstring) (st : AlignState)
    : list DiffLineSegment by wf (remaining oldWords newWords st) lt :=
  alignLoop oldWords newWords st with inspect (alignStep oldWords newWords st) := {
    | exist _ (inl st') Hstep := alignLoop oldWords newWords st'
    | exist _ (inr out) _ := out }.
Proof.
  unfold alignStep, remaining, findSync in *.
  destruct (oldWords !! oi st) as [ow|] eqn:Ho;
    destruct (newWords !! ni st) as [nw|] eqn:Hn; try discriminate.
  apply lookup_lt_Some in Ho, Hn.
  repeat match type of Hstep with
         | context [if ?b then _ else _] => destruct b
         | context [match List.find ?f ?l with _ => _ end] =>
             let E := fresh "E" in
             destruct (List.find f l) eqn:E;
             [ apply List.find_some in E as [E1 E2];
               apply andb_prop in E2 as [E2 _];
               apply bool_decide_eq_true in E2;
               simpl in E1 | ]
         end;
    inversion Hstep; subst; simpl; lia.
Qed.

(** The final pass: adjacent segments of one kind are coalesced. *)
Definition coalesce (segs : list DiffLineSegment) : list DiffLineSegment :=
  fold_left
    (fun merged seg => extendOrPush (seg_type seg) merged (seg_value seg))
    segs [].

Definition buildInlineDiffSegments (oldContent newContent : jsstring)
    (_options : ParseOptions) : list DiffLineSegment :=
  let oldWords := splitWords oldContent in
  let newWords := splitWords newContent in
  coalesce (alignLoop oldWords newWords (mkAlign [] 0 0)).

(** The text of a side of a segment list: the old side reads the delete and
    normal segments, the new side the insert and normal ones. *)
Definition onOldSide (s : DiffLineSegment) : bool :=
  match seg_type s with Insert => false | _ => true end.
Definition onNewSide (s : DiffLineSegment) : bool :=
  match seg_type s with Delete => false | _ => true end.

Definition oldText (segs : list DiffLineSegment) : jsstring :=
  join (map seg_value (filter (fun s => onOldSide s = true) segs)).
Definition newText (segs : list DiffLineSegment) : jsstring :=
  join (map seg_value (filter (fun s => onNewSide s = true) segs)).

(** *** Hunk processor *)

Definition changeToLine (change : RawChange) : DiffLine :=
  {| line_type := rc_type change;
     line_oldLineNumber := rc_oldLineNumber change;
     line_newLineNumber := rc_newLineNumber change;
     line_lineNumber := rc_lineNumber change;
     line_content := [mkSegment (rc_content change) Normal] |}.

(** The line pushed for a merged delete/insert pair. *)
Definition mergedLine (current next : RawChange) (options : ParseOptions) : DiffLine :=
  {| line_type := Normal;
     line_oldLineNumber := rc_lineNumber current;
     line_newLineNumber := rc_lineNumber next;
     line_lineNumber := None;
     line_content :=
       buildInlineDiffSegments (rc_content current) (rc_content next) options |}.

(** The test of the [if] in [mergeAdjacentLines], once [next] is known to
    be defined. *)
Definition mergeable (current next : RawChange) (options : ParseOptions) : bool :=
  bool_decide (rc_type current = Delete)
  && bool_decide (rc_type next = Insert)
  && isSimilarEnough (rc_content current) (rc_content next)
       (maxChangeRatio options).

(** The [for] loop of [mergeAdjacentLines], from index [i] with the lines
    pushed so far in [out]; [changes[i + 1]] is [undefined] past the end. *)
Equations? mergeLoop (changes : list RawChange) (options : ParseOptions)
    (out : list DiffLine) (i : nat) : list DiffLine
    by wf (length changes - i)%nat lt :=
  mergeLoop changes options out i with inspect (changes !! i) := {
    | exist _ None _ := out
    | exist _ (Some current) Hcur with changes !! (i + 1)%nat := {
        | Some next :=
            if mergeable current next options
            then mergeLoop changes options
                   (out ++ [mergedLine current next options]) (i + 1 + 1)%nat
            else mergeLoop changes options
                   (out ++ [changeToLine current]) (i + 1)%nat
        | None :=
            mergeLoop changes options (out ++ [changeToLine current]) (i + 1)%nat } }.
Proof.
  all: apply lookup_lt_Some in Hcur; lia.
Qed.

Definition mergeAdjacentLines (changes : list RawChange) (options : ParseOptions)
    : list DiffLine :=
  mergeLoop changes options [] 0.

Record RawHunk := mkRawHunk {
  raw_changes : list RawChange;
  raw_oldStart : Z;
  raw_oldLines : Z;
  raw_newStart : Z;
  raw_newLines : Z;
  raw_content : jsstring
}.

Record DiffHunk := mkHunk {
  hunk_content : jsstring;
  hunk_oldStart : Z;
  hunk_oldLines : Z;
  hunk_newStart : Z;
  hunk_newLines : Z;
  hunk_lines : list DiffLine
}.

Record DiffSkipBlock := mkSkip {
  skip_count : Z;
  skip_content : jsstring
}.

(** [DiffHunk | DiffSkipBlock], discriminated by the field [type]. *)
Inductive HunkItem :=
| IsHunk (h : DiffHunk)
| IsSkip (s : DiffSkipBlock).

Definition processHunk (raw : RawHunk) (options : ParseOptions) : DiffHunk :=
  let lines :=
    if mergeModifiedLines options
    then mergeAdjacentLines (raw_changes raw) options
    else map changeToLine (raw_changes raw) in
  {| hunk_content := raw_content raw;
     hunk_oldStart := raw_oldStart raw;
     hunk_oldLines := raw_oldLines raw;
     hunk_newStart := raw_newStart raw;
     hunk_newLines := raw_newLines raw;
     hunk_lines := lines |}.

(** The hunk processor in the words of the specification: scan the raw
    changes pairwise, replace a similar delete/insert pair by one merged
    line and advance past both, emit any other change as its own line. *)
Fixpoint mergeSpec (options : ParseOptions) (changes : list RawChange)
    : list DiffLine :=
  match changes with
  | [] => []
  | current :: rest =>
      match rest with
      | next :: rest' =>
          if mergeable current next options
          then mergedLine current next options :: mergeSpec options rest'
          else changeToLine current :: mergeSpec options rest
      | [] => [changeToLine current]
      end
  end.

(** The specification of the hunk processor with every line written out,
    independent of the functions of the code.  A raw change on its own
    becomes a line of its kind and numbers whose only segment holds its
    text. *)
Definition ownLine (change : RawChange) : DiffLine :=
  mkLine (rc_type change) (rc_oldLineNumber change) (rc_newLineNumber change)
    (rc_lineNumber change) [mkSegment (rc_content change) Normal].

(** A delete and an insert that are similar enough become one normal line:
    its old number is the line number of the delete, its new number the one
    of the insert, its segments are those of the aligner. *)
Definition pairLine (options : ParseOptions) (d i : RawChange) : DiffLine :=
  mkLine Normal (rc_lineNumber d) (rc_lineNumber i) None
    (buildInlineDiffSegments (rc_content d) (rc_content i) options).

(** A delete directly followed by an insert that passes the similarity
    check. *)
Definition similarPair (options : ParseOptions) (d i : RawChange) : Prop :=
  rc_type d = Delete ∧ rc_type i = Insert
  ∧ isSimilarEnough (rc_content d) (rc_content i) (maxChangeRatio options) = true.

Global Instance similarPair_dec options d i : Decision (similarPair options d i).
Proof. unfold similarPair. apply _. Defined.

(** The raw changes are read from left to right: a similar pair gives its
    one line and both changes are consumed, any other change gives its own
    line. *)
Fixpoint linesSpec (options : ParseOptions) (changes : list RawChange)
    : list DiffLine :=
  match changes with
  | [] => []
  | current :: rest =>
      match rest with
      | next :: rest' =>
          if bool_decide (similarPair options current next)
          then pairLine options current next :: linesSpec options rest'
          else ownLine current :: linesSpec options rest
      | [] => [ownLine current]
      end
  end.

(** No delete of the list is directly followed by an insert similar to it. *)
Definition noSimilarPair (options : ParseOptions) (changes : list RawChange)
    : Prop :=
  ∀ pre d i post, changes = pre ++ d :: i :: post → ¬ similarPair options d i.

(** *** Unified-diff parser *)

(** ['add' | 'delete' | 'modify']. *)
Inductive FileType := Add | Del | Modify.

Record FileDiff := mkFile {
  oldPath : jsstring;
  newPath : jsstring;
  file_type : FileType;
  hunks : list HunkItem
}.

(** [diffText.split('\n')], [cur] being the line read so far. *)
Fixpoint splitLinesFrom (cur s : jsstring) : list jsstring :=
  match s with
  | [] => [cur]
  | c :: s' =>
      if (c =? 10)%N then cur :: splitLinesFrom [] s'
      else splitLinesFrom (cur ++ [c]) s'
  end.

Definition splitLines (s : jsstring) : list jsstring := splitLinesFrom [] s.

(** The rest of [s] after the prefix [p], if [s] starts with it. *)
Fixpoint stripPrefix (p s : jsstring) : option jsstring :=
  match p, s with
  | [], _ => Some s
  | _ :: _, [] => None
  | c :: p', d :: s' => if bool_decide (c = d) then stripPrefix p' s' else None
  end.

(** The longest prefix of [s] whose code units satisfy [f], and the rest. *)
Fixpoint span (f : code_unit -> bool) (s : jsstring) : jsstring * jsstring :=
  match s with
  | c :: s' => if f c then let '(a, b) := span f s' in (c :: a, b) else ([], s)
  | [] => ([], [])
  end.

(** Group 1 of the match of [line] against the pattern that reads
    [+++ ], an optional [b/] and then any code units but line terminators;
    the empty string when there is no match. *)
Definition matchNewFilePath (line : jsstring) : jsstring :=
  match stripPrefix (lit "+++ ") line with
  | Some rest =>
      let rest' := match stripPrefix (lit "b/") rest with
                   | Some r => r
                   | None => rest
                   end in
      fst (span (fun c => negb (is_line_terminator c)) rest')
  | None => []
  end.

(** The integer a run of decimal digits writes, [acc] being the value read
    so far. *)
Definition decimalValue (digits : jsstring) : Z :=
  fold_left (fun acc c => 10 * acc + (Z.of_N c - 48)) digits 0.

(** [parseInt(digits, 10)] on a run of decimal digits: the double nearest
    to the integer written. *)
Definition parseDigits (digits : jsstring) : Z :=
  Number.ofZ (decimalValue digits).

(** [(\d+)]: a non-empty run of digits. *)
Definition matchDigits (s : jsstring) : option (jsstring * jsstring) :=
  match span is_digit s with
  | ([], _) => None
  | (d, rest) => Some (d, rest)
  end.

(** [(?:,(\d+))?]: the group matches when a comma and a digit follow. *)
Definition matchOptLength (s : jsstring) : option jsstring * jsstring :=
  match stripPrefix (lit ",") s with
  | Some r =>
      match matchDigits r with
      | Some (d, rest) => (Some d, rest)
      | None => (None, s)
      end
  | None => (None, s)
  end.

(** The match of [line] against the hunk-header pattern
    [@@ -(\d+)(?:,(\d+))? \+(\d+)(?:,(\d+))? @@] followed by anything:
    the groups 1 to 4. *)
Definition matchHunkHeader (line : jsstring)
    : option (jsstring * option jsstring * jsstring * option jsstring) :=
  r ← stripPrefix (lit "@@ -") line;
  '(g1, r) ← matchDigits r;
  let '(g2, r) := matchOptLength r in
  r ← stripPrefix (lit " +") r;
  '(g3, r) ← matchDigits r;
  let '(g4, r) := matchOptLength r in
  _ ← stripPrefix (lit " @@") r;
  Some (g1, g2, g3, g4).

(** The variables of the loop of [parseUnifiedDiff]. *)
Record ParserState := mkParser {
  files : list FileDiff;
  currentFile : option FileDiff;
  currentHunk : option RawHunk;
  oldLine : Z;
  newLine : Z
}.

(** [currentFile.hunks.push(hunk)]. *)
Definition pushHunk (file : FileDiff) (hunk : DiffHunk) : FileDiff :=
  {| oldPath := oldPath file;
     newPath := newPath file;
     file_type := file_type file;
     hunks := hunks file ++ [IsHunk hunk] |}.

(** [if (currentHunk && currentFile) currentFile.hunks.push(processHunk(...))]. *)
Definition flushHunk (opts : ParseOptions) (st : ParserState) : option FileDiff :=
  match currentHunk st, currentFile st with
  | Some h, Some f => Some (pushHunk f (processHunk h opts))
  | _, _ => currentFile st
  end.

(** [currentHunk.changes.push(change)]. *)
Definition pushChange (h : RawHunk) (change : RawChange) : RawHunk :=
  {| raw_changes := raw_changes h ++ [change];
     raw_oldStart := raw_oldStart h;
     raw_oldLines := raw_oldLines h;
     raw_newStart := raw_newStart h;
     raw_newLines := raw_newLines h;
     raw_content := raw_content h |}.

(** The body of [for (const line of lines)]. *)
Definition parseLine (opts : ParseOptions) (st : ParserState) (line : jsstring)
    : ParserState :=
  if startsWith line (lit "---") then
    {| files := files st;
       currentFile := flushHunk opts st;
       currentHunk := None;
       oldLine := oldLine st;
       newLine := newLine st |}
  else if startsWith line (lit "+++") then
    let path := matchNewFilePath line in
    {| files := match flushHunk opts st with
                | Some f => files st ++ [f]
                | None => files st
                end;
       currentFile := Some {| oldPath := path; newPath := path;
                              file_type := Modify; hunks := [] |};
       currentHunk := None;
       oldLine := oldLine st;
       newLine := newLine st |}
  else
    match matchHunkHeader line with
    | Some (g1, g2, g3, g4) =>
        let oldLine' := parseDigits g1 in
        let newLine' := parseDigits g3 in
        {| files := files st;
           currentFile := flushHunk opts st;
           currentHunk :=
             Some {| raw_changes := [];
                     raw_oldStart := oldLine';
                     raw_oldLines := parseDigits (default (lit "1") g2);
                     raw_newStart := newLine';
                     raw_newLines := parseDigits (default (lit "1") g4);
                     raw_content := line |};
           oldLine := oldLine';
           newLine := newLine' |}
    | None =>
        if startsWith line (lit "diff ") || startsWith line (lit "index ")
           || startsWith line (lit "\")
        then st
        else
          match currentHunk st with
          | Some h =>
              if startsWith line (lit "+") then
                {| files := files st;
                   currentFile := currentFile st;
                   currentHunk :=
                     Some (pushChange h
                             (mkChange Insert (drop 1 line) (Some (newLine st))
                                None (Some (newLine st)) None));
                   oldLine := oldLine st;
                   newLine := Number.add (newLine st) 1 |}
              else if startsWith line (lit "-") then
                {| files := files st;
                   currentFile := currentFile st;
                   currentHunk :=
                     Some (pushChange h
                             (mkChange Delete (drop 1 line) (Some (oldLine st))
                                (Some (oldLine st)) None None));
                   oldLine := Number.add (oldLine st) 1;
                   newLine := newLine st |}
              else if startsWith line (lit " ") || str_eqb line [] then
                {| files := files st;
                   currentFile := currentFile st;
                   currentHunk :=
                     Some (pushChange h
                             (mkChange Normal (drop 1 line) None
                                (Some (oldLine st)) (Some (newLine st)) (Some true)));
                   oldLine := Number.add (oldLine st) 1;
                   newLine := Number.add (newLine st) 1 |}
              else st
          | None => st
          end
    end.

(** [h.type === 'hunk' && h.lines.some(l => l.type === k)]. *)
Definition hasLineOfKind (k : Kind) (h : HunkItem) : bool :=
  match h with
  | IsHunk h => existsb (fun l => bool_decide (line_type l = k)) (hunk_lines h)
  | IsSkip _ => false
  end.

(** The last loop of [parseUnifiedDiff]: the type of a file from the kinds
    of its lines. *)
Definition deriveType (file : FileDiff) : FileDiff :=
  let hasAdds := existsb (hasLineOfKind Insert) (hunks file) in
  let hasDels := existsb (hasLineOfKind Delete) (hunks file) in
  {| oldPath := oldPath file;
     newPath := newPath file;
     file_type := if hasAdds && negb hasDels then Add
                  else if hasDels && negb hasAdds then Del
                  else Modify;
     hunks := hunks file |}.

Definition parseUnifiedDiffWith (opts : ParseOptions) (diffText : jsstring)
    : list FileDiff :=
  let lines := splitLines diffText in
  let st := fold_left (parseLine opts) lines (mkParser [] None None 0 0) in
  let files := match flushHunk opts st with
               | Some f => files st ++ [f]
               | None => files st
               end in
  map deriveType files.

(** [parseUnifiedDiff(diffText)] with no override of the default options. *)
Definition parseUnifiedDiff (diffText : jsstring) : list FileDiff :=
  parseUnifiedDiffWith defaultOptions diffText.

(** *** Skip blocks and stats *)

(** [String(n)], as a template literal converts the number [n]. *)
Definition numberToString (n : Z) : jsstring := Number.toString n.

(** The body of the loop of [insertSkipBlocks], on the pair of [result] and
    [lastHunkLine]. *)
Definition skipStep (acc : list HunkItem * Z) (hunk : DiffHunk)
    : list HunkItem * Z :=
  let '(result, lastHunkLine) := acc in
  let distanceToLastHunk := Number.sub (hunk_oldStart hunk) lastHunkLine in
  let result :=
    if 0 <? distanceToLastHunk
    then result ++ [IsSkip {| skip_count := distanceToLastHunk;
                              skip_content := numberToString distanceToLastHunk
                                              ++ lit " lines hidden" |}]
    else result in
  let lastHunkLine :=
    Z.max (Number.add (hunk_oldStart hunk) (hunk_oldLines hunk)) lastHunkLine in
  (result ++ [IsHunk hunk], lastHunkLine).

Definition insertSkipBlocks (hunks : list DiffHunk) : list HunkItem :=
  fst (fold_left skipStep hunks ([], 1)).

Record DiffStats := mkStats {
  additions : Z;
  deletions : Z
}.

Definition countDiffStats (hunks : list HunkItem) : DiffStats :=
  fold_left
    (fun stats hunk =>
       match hunk with
       | IsHunk h =>
           fold_left
             (fun stats line =>
                match line_type line with
                | Insert => mkStats (additions stats + 1) (deletions stats)
                | Delete => mkStats (additions stats) (deletions stats + 1)
                | Normal => stats
                end)
             (hunk_lines h) stats
       | IsSkip _ => stats
       end)
    hunks (mkStats 0 0).

(** What the loop of [insertSkipBlocks] pushes for [hunks] when it reaches
    them with [lastHunkLine]: the loop as a recursion on the hunks. *)
Fixpoint skipFrom (lastHunkLine : Z) (hunks : list DiffHunk) : list HunkItem :=
  match hunks with
  | [] => []
  | hunk :: rest =>
      let distanceToLastHunk := Number.sub (hunk_oldStart hunk) lastHunkLine in
      let lastHunkLine' :=
        Z.max (Number.add (hunk_oldStart hunk) (hunk_oldLines hunk)) lastHunkLine in
      if bool_decide (distanceToLastHunk > 0)
      then IsSkip (mkSkip distanceToLastHunk
                     (numberToString distanceToLastHunk ++ lit " lines hidden"))
             :: IsHunk hunk :: skipFrom lastHunkLine' rest
      else IsHunk hunk :: skipFrom lastHunkLine' rest
  end.

(** The skip-block inserter in the words of the specification, on the
    integers: with the cursor on an old-file line, a hunk is preceded by a
    skip block of the gap up to its start exactly when the gap is positive,
    and moves the cursor to the line after it, never backwards.  The
    content of a skip block writes its count in decimal digits. *)
Fixpoint skipSpec (cursor : Z) (hunks : list DiffHunk) : list HunkItem :=
  match hunks with
  | [] => []
  | hunk :: rest =>
      let gap := hunk_oldStart hunk - cursor in
      let cursor' := Z.max (hunk_oldStart hunk + hunk_oldLines hunk) cursor in
      if bool_decide (gap > 0)
      then IsSkip (mkSkip gap (Number.digits gap ++ lit " lines hidden"))
             :: IsHunk hunk :: skipSpec cursor' rest
      else IsHunk hunk :: skipSpec cursor' rest
  end.

(** A hunk whose old-file lines are line numbers: its start and its length
    are not negative and its end is at most [Number.MAX_SAFE_INTEGER]. *)
Definition safeHunk (hunk : DiffHunk) : Prop :=
  0 <= hunk_oldStart hunk
  ∧ 0 <= hunk_oldLines hunk
  ∧ hunk_oldStart hunk + hunk_oldLines hunk <= Number.MAX_SAFE_INTEGER.

(** The hunk of an item, if it is one. *)
Definition asHunk (item : HunkItem) : option DiffHunk :=
  match item with
  | IsHunk h => Some h
  | IsSkip _ => None
  end.

(** The number of lines of kind [k] in the hunks of a list of items. *)
Definition linesOfKind (k : Kind) (lines : list DiffLine) : Z :=
  Z.of_nat (length (filter (fun l => line_type l = k) lines)).

Fixpoint countKind (k : Kind) (items : list HunkItem) : Z :=
  match items with
  | [] => 0
  | IsHunk h :: rest => linesOfKind k (hunk_lines h) + countKind k rest
  | IsSkip _ :: rest => countKind k rest
  end.

(** ** Compare utilities: file trees and dependencies *)

(** *** Data model *)

(** ['file' | 'directory']. *)
Inductive NodeType := File | Directory.

Global Instance NodeType_eq_dec : EqDecision NodeType.
Proof. solve_decision. Defined.

(** A node of a package file tree: [path], [type], the optional [size] and
    [hash], and the optional [children]. *)
#[warnings="-register-all"] Inductive PackageFileTree :=
  mkNode (path : jsstring) (type : NodeType) (size : option Z)
         (hash : option jsstring) (children : option (list PackageFileTree)).

Definition node_path (n : PackageFileTree) : jsstring :=
  let 'mkNode p _ _ _ _ := n in p.
Definition node_type (n : PackageFileTree) : NodeType :=
  let 'mkNode _ t _ _ _ := n in t.
Definition node_size (n : PackageFileTree) : option Z :=
  let 'mkNode _ _ s _ _ := n in s.
Definition node_hash (n : PackageFileTree) : option jsstring :=
  let 'mkNode _ _ _ h _ := n in h.
Definition node_children (n : PackageFileTree) : option (list PackageFileTree) :=
  let 'mkNode _ _ _ _ c := n in c.

(** ['added' | 'removed' | 'modified' | 'updated']: the first three tag file
    changes, dependency changes are added, removed or updated. *)
Inductive ChangeType := Added | Removed | Modified | Updated.

Global Instance ChangeType_eq_dec : EqDecision ChangeType.
Proof. solve_decision. Defined.

Record FileChange := mkFileChange {
  fc_path : jsstring;
  fc_type : ChangeType;
  fc_oldSize : option Z;
  fc_newSize : option Z
}.

(** A [Map] with string keys: the entries in insertion order. *)
Abbreviation JsMap V := (list (jsstring * V)) (only parsing).

(** [m.set(k, v)]: the value of a key already present is replaced where the
    key stands, a new key goes to the end. *)
Fixpoint mapSet {V} (k : jsstring) (v : V) (m : JsMap V) : JsMap V :=
  match m with
  | [] => [(k, v)]
  | (k', v') :: m' =>
      if bool_decide (k' = k) then (k, v) :: m' else (k', v') :: mapSet k v m'
  end.

(** [m.get(k)]. *)
Fixpoint mapGet {V} (k : jsstring) (m : JsMap V) : option V :=
  match m with
  | [] => None
  | (k', v') :: m' => if bool_decide (k' = k) then Some v' else mapGet k m'
  end.

(** [m.has(k)]. *)
Definition mapHas {V} (k : jsstring) (m : JsMap V) : bool :=
  match mapGet k m with Some _ => true | None => false end.

(** [arr.sort(cmp)]: a stable sort; [x] goes before the first element that
    does not compare below it. *)
Fixpoint insertSorted {A} (cmp : A -> A -> Z) (x : A) (l : list A) : list A :=
  match l with
  | [] => [x]
  | y :: l' => if cmp x y <=? 0 then x :: y :: l' else y :: insertSorted cmp x l'
  end.

Definition sortWith {A} (cmp : A -> A -> Z) (l : list A) : list A :=
  foldr (insertSorted cmp) [] l.

(** *** File-tree comparator *)

Definition MAX_FILES_COMPARE : nat := 1000.

(** The inner function [traverse] of [flattenTree], on one node and on a
    list of nodes, threading the map [result]. *)
Fixpoint traverseNode (node : PackageFileTree) (result : JsMap PackageFileTree)
    : JsMap PackageFileTree :=
  let result := mapSet (node_path node) node result in
  match node_children node with
  | Some children =>
      (fix traverse (nodes : list PackageFileTree) (result : JsMap PackageFileTree) :=
         match nodes with
         | [] => result
         | n :: nodes' => traverse nodes' (traverseNode n result)
         end) children result
  | None => result
  end.

Definition traverse (nodes : list PackageFileTree) (result : JsMap PackageFileTree)
    : JsMap PackageFileTree :=
  fold_left (fun result n => traverseNode n result) nodes result.

Definition flattenTree (tree : list PackageFileTree) : JsMap PackageFileTree :=
  traverse tree [].

(** A string is truthy when it is defined and not empty. *)
Definition truthy (s : option jsstring) : bool :=
  match s with
  | Some (_ :: _) => true
  | _ => false
  end.

Definition hasChanged (fromNode toNode : PackageFileTree) : bool :=
  if truthy (node_hash fromNode) && truthy (node_hash toNode)
  then negb (bool_decide (node_hash fromNode = node_hash toNode))
  else
    match node_size fromNode, node_size toNode with
    | Some s1, Some s2 => negb (bool_decide (s1 = s2))
    | _, _ => false
    end.

(** The four variables of [compareFileTrees]. *)
Record CompareResult := mkResult {
  added : list FileChange;
  removed : list FileChange;
  modified : list FileChange;
  truncated : bool
}.

Definition totalChanges (r : CompareResult) : nat :=
  (length (added r) + length (removed r) + length (modified r))%nat.

Definition overLimit (r : CompareResult) : bool :=
  bool_decide (MAX_FILES_COMPARE <= totalChanges r)%nat.

Definition pushAdded (c : FileChange) (r : CompareResult) : CompareResult :=
  mkResult (added r ++ [c]) (removed r) (modified r) (truncated r).
Definition pushRemoved (c : FileChange) (r : CompareResult) : CompareResult :=
  mkResult (added r) (removed r ++ [c]) (modified r) (truncated r).
Definition pushModified (c : FileChange) (r : CompareResult) : CompareResult :=
  mkResult (added r) (removed r) (modified r ++ [c]) (truncated r).
Definition setTruncated (r : CompareResult) : CompareResult :=
  mkResult (added r) (removed r) (modified r) true.

(** The body of the first loop after the limit check, for the entry
    [(path, toNode)] of [toFiles]. *)
Definition classifyTo (fromFiles : JsMap PackageFileTree)
    (path : jsstring) (toNode : PackageFileTree) (r : CompareResult)
    : CompareResult :=
  let fromNode := mapGet path fromFiles in
  match node_type toNode with
  | Directory =>
      match fromNode with
      | Some f =>
          match node_type f with
          | File => pushRemoved (mkFileChange path Removed (node_size f) None) r
          | Directory => r
          end
      | None => r
      end
  | File =>
      match fromNode with
      | None => pushAdded (mkFileChange path Added None (node_size toNode)) r
      | Some f =>
          match node_type f with
          | Directory =>
              pushAdded (mkFileChange path Added None (node_size toNode)) r
          | File =>
              if hasChanged f toNode
              then pushModified
                     (mkFileChange path Modified (node_size f) (node_size toNode)) r
              else r
          end
      end
  end.

(** The first loop, over the entries of [toFiles] not yet visited; [break]
    ends the recursion. *)
Fixpoint scanTo (fromFiles : JsMap PackageFileTree)
    (entries : JsMap PackageFileTree) (r : CompareResult) : CompareResult :=
  match entries with
  | [] => r
  | (path, toNode) :: entries' =>
      if overLimit r then setTruncated r
      else scanTo fromFiles entries' (classifyTo fromFiles path toNode r)
  end.

(** The end of the body of the second loop, for the file [fromNode] at
    [path]: it is recorded as removed when [toFiles] has no such path. *)
Definition recordRemoved (toFiles : JsMap PackageFileTree)
    (path : jsstring) (fromNode : PackageFileTree) (r : CompareResult)
    : CompareResult :=
  if negb (mapHas path toFiles)
  then pushRemoved (mkFileChange path Removed (node_size fromNode) None) r
  else r.

(** The second loop, over the entries of [fromFiles]. *)
Fixpoint scanFrom (toFiles : JsMap PackageFileTree)
    (entries : JsMap PackageFileTree) (r : CompareResult) : CompareResult :=
  match entries with
  | [] => r
  | (path, fromNode) :: entries' =>
      match node_type fromNode with
      | Directory => scanFrom toFiles entries' r
      | File =>
          if overLimit r then setTruncated r
          else scanFrom toFiles entries' (recordRemoved toFiles path fromNode r)
      end
  end.

(** The comparator of the three [sort] calls. *)
Definition byPath (localeCompare : jsstring -> jsstring -> Z) (a b : FileChange) : Z :=
  localeCompare (fc_path a) (fc_path b).

(** [compareFileTrees]; [localeCompare] is the collation of the host,
    [String.prototype.localeCompare]. *)
Definition compareFileTrees (localeCompare : jsstring -> jsstring -> Z)
    (fromTree toTree : list PackageFileTree) : CompareResult :=
  let fromFiles := flattenTree fromTree in
  let toFiles := flattenTree toTree in
  let r := scanTo fromFiles toFiles (mkResult [] [] [] false) in
  let r := scanFrom toFiles fromFiles r in
  {| added := sortWith (byPath localeCompare) (added r);
     removed := sortWith (byPath localeCompare) (removed r);
     modified := sortWith (byPath localeCompare) (modified r);
     truncated := truncated r |}.

(** The differences of two trees when nothing stops the scan: the changes
    the two loops find with no limit check, in the order they are found. *)
Definition differencesTo (fromFiles entries : JsMap PackageFileTree)
    (r : CompareResult) : CompareResult :=
  fold_left (fun r e => classifyTo fromFiles (fst e) (snd e) r) entries r.

Definition classifyFrom (toFiles : JsMap PackageFileTree)
    (path : jsstring) (fromNode : PackageFileTree) (r : CompareResult)
    : CompareResult :=
  match node_type fromNode with
  | Directory => r
  | File => recordRemoved toFiles path fromNode r
  end.

Definition differencesFrom (toFiles entries : JsMap PackageFileTree)
    (r : CompareResult) : CompareResult :=
  fold_left (fun r e => classifyFrom toFiles (fst e) (snd e) r) entries r.

Definition allDifferences (fromTree toTree : list PackageFileTree) : CompareResult :=
  let fromFiles := flattenTree fromTree in
  let toFiles := flattenTree toTree in
  differencesFrom toFiles fromFiles
    (differencesTo fromFiles toFiles (mkResult [] [] [] false)).

(** Code-unit (byte-wise lexicographic) order on strings. *)
Fixpoint codeUnitCompare (a b : jsstring) : comparison :=
  match a, b with
  | [], [] => Eq
  | [], _ :: _ => Lt
  | _ :: _, [] => Gt
  | x :: a', y :: b' =>
      match (x ?= y)%N with
      | Eq => codeUnitCompare a' b'
      | c => c
      end
  end.

Definition codeUnitLe (a b : jsstring) : Prop := codeUnitCompare a b <> Gt.

(** A collation as the hosts with Unicode collation data have it on ASCII
    letters: letters compare without case first ([a] before [B]), and the
    code units break ties. *)
Definition foldCase (c : code_unit) : code_unit :=
  if ((65 <=? c) && (c <=? 90))%N then (c + 32)%N else c.

Definition caseFirstCompare (a b : jsstring) : Z :=
  match codeUnitCompare (map foldCase a) (map foldCase b) with
  | Lt => -1
  | Gt => 1
  | Eq => match codeUnitCompare a b with Lt => 1 | Gt => -1 | Eq => 0 end
  end.

(** The code-unit order as a comparator. *)
Definition codeUnitComparator (a b : jsstring) : Z :=
  match codeUnitCompare a b with Lt => -1 | Eq => 0 | Gt => 1 end.

(** *** Dependency comparator *)

(** The four sections, in the order of the array [sections]. *)
Inductive DepSection :=
  Dependencies | DevDependencies | PeerDependencies | OptionalDependencies.

Global Instance DepSection_eq_dec : EqDecision DepSection.
Proof. solve_decision. Defined.

Definition sections : list DepSection :=
  [Dependencies; DevDependencies; PeerDependencies; OptionalDependencies].

(** [sections.indexOf(s)]. *)
Definition sectionIndex (s : DepSection) : Z :=
  match s with
  | Dependencies => 0
  | DevDependencies => 1
  | PeerDependencies => 2
  | OptionalDependencies => 3
  end.

(** A version map [Record<string, string>], an object parsed from JSON or
    the literal [{}]: its own keys in the order of [Object.keys], each with
    its version.  The first entry of a name is the one the object holds. *)
Abbreviation Deps := (list (jsstring * jsstring)) (only parsing).

(** What [deps[name]] is when it is defined: a version the map holds
    itself, or, for a name the map does not hold, the member of that name
    of [Object.prototype], which is a function (the prototype itself for
    [__proto__]) and the same object for both maps. *)
Inductive PropertyValue :=
| Version (v : jsstring)
| Inherited (name : jsstring).

Global Instance PropertyValue_eq_dec : EqDecision PropertyValue.
Proof. solve_decision. Defined.

(** The names of the members of [Object.prototype]. *)
Definition objectPrototypeNames : list jsstring :=
  [lit "constructor"; lit "__defineGetter__"; lit "__defineSetter__";
   lit "hasOwnProperty"; lit "__lookupGetter__"; lit "__lookupSetter__";
   lit "isPrototypeOf"; lit "propertyIsEnumerable"; lit "toString";
   lit "valueOf"; lit "__proto__"; lit "toLocaleString"].

(** A manifest, as far as the comparator reads it: the version map of each
    section, when the manifest has one. *)
Definition Manifest := DepSection -> option Deps.

(** [s.add(x)] on a [Set] in insertion order. *)
Definition setAdd (s : list jsstring) (x : jsstring) : list jsstring :=
  if bool_decide (x ∈ s) then s else s ++ [x].

(** [Object.keys(deps)]. *)
Definition objectKeys (deps : Deps) : list jsstring :=
  fold_left setAdd (map fst deps) [].

(** [(pkg?.[section] as Record<string, string>) ?? {}]. *)
Definition depsOf (pkg : option Manifest) (section : DepSection) : Deps :=
  match pkg with
  | Some m => default [] (m section)
  | None => []
  end.

(** ['major' | 'minor' | 'patch' | 'prerelease']. *)
Inductive SemverBucket := Major | Minor | Patch | Prerelease.

Record DependencyChange := mkDepChange {
  dep_name : jsstring;
  dep_section : DepSection;
  dep_from : option PropertyValue;
  dep_to : option PropertyValue;
  dep_type : ChangeType;
  dep_semverDiff : option SemverBucket
}.

(** What a call of [diff] of the package [semver] does: it throws, or it
    returns [null] or the name of a release type. *)
Inductive SemverOutcome :=
| SemverThrows
| SemverReturns (r : option jsstring).

(** [v.replace(/^[\^~>=<]+/, '')]: the leading range operators are dropped. *)
Definition isRangeOperator (c : code_unit) : bool :=
  ((c =? 94) || (c =? 126) || (c =? 62) || (c =? 61) || (c =? 60))%N.

Definition stripRange (v : jsstring) : jsstring := snd (span isRangeOperator v).

(** The bucket of an updated dependency, from the outcome of [semverDiff]. *)
Definition bucketOf (outcome : SemverOutcome) : option SemverBucket :=
  match outcome with
  | SemverReturns (Some diffResult) =>
      if str_eqb diffResult (lit "premajor") || str_eqb diffResult (lit "preminor")
         || str_eqb diffResult (lit "prepatch")
      then Some Prerelease
      else if str_eqb diffResult (lit "major") then Some Major
      else if str_eqb diffResult (lit "minor") then Some Minor
      else if str_eqb diffResult (lit "patch") then Some Patch
      else if str_eqb diffResult (lit "prerelease") then Some Prerelease
      else None
  | _ => None
  end.

(** [deps[name] ?? null]: the lookup goes on to [Object.prototype] when
    the map does not hold the name. *)
Definition getProperty (name : jsstring) (deps : Deps) : option PropertyValue :=
  match mapGet name deps with
  | Some v => Some (Version v)
  | None =>
      if bool_decide (name ∈ objectPrototypeNames)
      then Some (Inherited name)
      else None
  end.

(** Truthiness of [deps[name] ?? null]: [null] and the empty string are
    falsy, a function or an object is truthy. *)
Definition truthyValue (v : option PropertyValue) : bool :=
  match v with
  | Some (Version (_ :: _)) => true
  | Some (Inherited _) => true
  | _ => false
  end.

(** The body of [for (const name of allNames)], pushing to [changes].  The
    call of [replace] on a value that is not a string throws inside the
    [try], which leaves [semverDiffType] at [null]. *)
Definition compareName (semverDiff : jsstring -> jsstring -> SemverOutcome)
    (section : DepSection) (fromDeps toDeps : Deps)
    (changes : list DependencyChange) (name : jsstring) : list DependencyChange :=
  let fromVersion := getProperty name fromDeps in
  let toVersion := getProperty name toDeps in
  if bool_decide (fromVersion = toVersion) then changes
  else
    let type :=
      if negb (truthyValue fromVersion) then Added
      else if negb (truthyValue toVersion) then Removed
      else Updated in
    let semverDiffType :=
      match type, fromVersion, toVersion with
      | Updated, Some (Version f), Some (Version t) =>
          if truthyValue fromVersion && truthyValue toVersion
          then bucketOf (semverDiff (stripRange f) (stripRange t))
          else None
      | _, _, _ => None
      end in
    changes ++ [mkDepChange name section fromVersion toVersion type semverDiffType].

(** The body of [for (const section of sections)]. *)
Definition compareSection (semverDiff : jsstring -> jsstring -> SemverOutcome)
    (fromPkg toPkg : option Manifest)
    (changes : list DependencyChange) (section : DepSection)
    : list DependencyChange :=
  let fromDeps := depsOf fromPkg section in
  let toDeps := depsOf toPkg section in
  let allNames := fold_left setAdd (objectKeys fromDeps ++ objectKeys toDeps) [] in
  fold_left (compareName semverDiff section fromDeps toDeps) allNames changes.

(** The comparator of the final [sort]: by section, then by name. *)
Definition bySectionThenName (localeCompare : jsstring -> jsstring -> Z)
    (a b : DependencyChange) : Z :=
  if bool_decide (dep_section a = dep_section b)
  then localeCompare (dep_name a) (dep_name b)
  else sectionIndex (dep_section a) - sectionIndex (dep_section b).

(** [compareDependencies]; [semverDiff] is [diff] of the package [semver] and
    [localeCompare] the collation of the host. *)
Definition compareDependencies
    (semverDiff : jsstring -> jsstring -> SemverOutcome)
    (localeCompare : jsstring -> jsstring -> Z)
    (fromPkg toPkg : option Manifest) : list DependencyChange :=
  let changes := fold_left (compareSection semverDiff fromPkg toPkg) sections [] in
  sortWith (bySectionThenName localeCompare) changes.

(** The text a segment of kind [ty] and value [v] adds to each side. *)
Definition oldPart (ty : Kind) (v : jsstring) : jsstring :=
  match ty with Insert => [] | _ => v end.
Definition newPart (ty : Kind) (v : jsstring) : jsstring :=
  match ty with Delete => [] | _ => v end.

(** The loop invariant of the aligner: the segments read so far spell the
    tokens consumed on each side. *)
Definition alignInv (oldWords newWords : list jsstring) (st : AlignState) : Prop :=
  oldText (segments st) = join (take (oi st) oldWords)
  ∧ newText (segments st) = join (take (ni st) newWords).

(** The options with [mergeModifiedLines] overridden. *)
Definition withMerge (b : bool) (options : ParseOptions) : ParseOptions :=
  {| maxDiffDistance := maxDiffDistance options;
     maxChangeRatio := maxChangeRatio options;
     mergeModifiedLines := b;
     inlineMaxCharEdits := inlineMaxCharEdits options |}.

(** The stats of each file of a parsed diff. *)
Definition fileStats (files : list FileDiff) : list DiffStats :=
  map (fun f => countDiffStats (hunks f)) files.

(** A diff of one hunk in which the line [a b c] becomes [a x c]. *)
Definition oneWordDiff : jsstring :=
  lit "--- a/foo.js" ++ [10%N] ++ lit "+++ b/foo.js" ++ [10%N]
  ++ lit "@@ -1,3 +1,3 @@" ++ [10%N] ++ lit " first" ++ [10%N]
  ++ lit "-a b c" ++ [10%N] ++ lit "+a x c" ++ [10%N] ++ lit " last".

(** The path of a new-file line in the words of the specification, for the
    prefix the code strips: an optional [b/] is dropped from the text after
    [+++ ], and the path ends before the first line terminator. *)
Definition stripOptionalB (rest : jsstring) : jsstring :=
  if startsWith rest (lit "b/") then drop 2 rest else rest.

Fixpoint upToLineTerminator (s : jsstring) : jsstring :=
  match s with
  | [] => []
  | c :: s' => if is_line_terminator c then [] else c :: upToLineTerminator s'
  end.

(** The paths of the files known to the parser, the open one last. *)
Definition knownFiles (st : ParserState) : list FileDiff :=
  files st ++ match currentFile st with Some f => [f] | None => [] end.

(** The invariant of the two loops of [compareFileTrees]: the changes never
    exceed the limit, and they have reached it when [truncated] is set. *)
Definition withinLimit (r : CompareResult) : Prop :=
  (totalChanges r <= MAX_FILES_COMPARE)%nat
  ∧ (truncated r = true → totalChanges r = MAX_FILES_COMPARE).

(** [r] holds the first changes of [r']. *)
Definition firstChangesOf (r r' : CompareResult) : Prop :=
  added r `prefix_of` added r'
  ∧ removed r `prefix_of` removed r'
  ∧ modified r `prefix_of` modified r'.

(** The order of a comparator: [a] may stand before [b]. *)
Definition notAfter {A} (cmp : A -> A -> Z) (a b : A) : Prop := cmp a b <= 0.

(** A tree of [n] files at the top level, the file [i] having the one code
    unit [256 + i] as path. *)
Definition manyFiles (n : nat) : list PackageFileTree :=
  map (fun i => mkNode [(256 + N.of_nat i)%N] File None None None) (seq 0 n).

(** A sound change of the manifests [fromPkg] and [toPkg]: its [from] and
    [to] are what the version maps of its section give for its name (or
    [null]), they differ, and neither is [null] when the change is an
    update. *)
Definition soundChange (fromPkg toPkg : option Manifest) (c : DependencyChange)
    : Prop :=
  dep_from c = getProperty (dep_name c) (depsOf fromPkg (dep_section c))
  ∧ dep_to c = getProperty (dep_name c) (depsOf toPkg (dep_section c))
  ∧ dep_from c ≠ dep_to c
  ∧ match dep_type c with
    | Updated => dep_from c ≠ None ∧ dep_to c ≠ None
    | _ => True
    end.

(** Tokens that alternate between runs without whitespace and non-empty
    runs of whitespace; [inWs] tells which kind the first token is. *)
Fixpoint alternating (inWs : bool) (tokens : list jsstring) : Prop :=
  match tokens with
  | [] => True
  | t :: rest =>
      Forall (fun c => is_space c = inWs) t
      ∧ (if inWs then t ≠ [] else True)
      ∧ alternating (negb inWs) rest
  end.

(** No two neighbours in a list are equal. *)
Fixpoint noRepeat {A} (l : list A) : Prop :=
  match l with
  | [] => True
  | x :: rest =>
      match rest with
      | [] => True
      | y :: _ => x ≠ y ∧ noRepeat rest
      end
  end.

(** The old side of a hunk: the text of its delete and normal changes, and
    the old text of its delete and normal lines.  Likewise the new side. *)
Definition oldSideOfChanges (changes : list RawChange) : list jsstring :=
  map rc_content (filter (fun c => rc_type c ≠ Insert) changes).
Definition newSideOfChanges (changes : list RawChange) : list jsstring :=
  map rc_content (filter (fun c => rc_type c ≠ Delete) changes).
Definition oldSideOfLines (lines : list DiffLine) : list jsstring :=
  map (fun l => oldText (line_content l))
    (filter (fun l => line_type l ≠ Insert) lines).
Definition newSideOfLines (lines : list DiffLine) : list jsstring :=
  map (fun l => newText (line_content l))
    (filter (fun l => line_type l ≠ Delete) lines).

(** The line numbers a raw change of the parser carries: an insert has a
    new number only, a delete an old number only, and [lineNumber] repeats
    the one it has; a context line has both. *)
Definition numberedChange (c : RawChange) : Prop :=
  match rc_type c with
  | Insert => rc_oldLineNumber c = None ∧ rc_lineNumber c = rc_newLineNumber c
  | Delete => rc_newLineNumber c = None ∧ rc_lineNumber c = rc_oldLineNumber c
  | Normal => True
  end.

(** The numbers of a list count up from [start] without a gap. *)
Definition countsFrom (start : Z) (numbers : list Z) : Prop :=
  numbers = seqZ start (Z.of_nat (length numbers)).

(** The line numbers of a line, as for a raw change. *)
Definition numberedLine (l : DiffLine) : Prop :=
  match line_type l with
  | Insert => line_oldLineNumber l = None ∧ line_lineNumber l = line_newLineNumber l
  | Delete => line_newLineNumber l = None ∧ line_lineNumber l = line_oldLineNumber l
  | Normal => True
  end.

(** Numbers from [start] on that stay line numbers: [start] is not
    negative, and with one number more the count is still at most
    [Number.MAX_SAFE_INTEGER], so that the counter of the parser is exact
    all along. *)
Definition staysSafe (start : Z) (numbers : list Z) : Prop :=
  0 <= start
  ∧ start + Z.of_nat (length numbers) <= Number.MAX_SAFE_INTEGER.

(** Each line of a hunk carries the numbers of its kind; the old numbers of
    the lines count up from [oldStart] when they stay line numbers, and the
    new numbers from [newStart] likewise. *)
Definition hunkNumbered (h : DiffHunk) : Prop :=
  Forall numberedLine (hunk_lines h)
  ∧ (staysSafe (hunk_oldStart h) (omap line_oldLineNumber (hunk_lines h)) →
     countsFrom (hunk_oldStart h) (omap line_oldLineNumber (hunk_lines h)))
  ∧ (staysSafe (hunk_newStart h) (omap line_newLineNumber (hunk_lines h)) →
     countsFrom (hunk_newStart h) (omap line_newLineNumber (hunk_lines h))).

Definition itemNumbered (item : HunkItem) : Prop :=
  match item with
  | IsHunk h => hunkNumbered h
  | IsSkip _ => False
  end.

(** The invariant of the parser on the hunk being read: its changes are
    numbered up to the running counters [oldLine] and [newLine]. *)
Definition rawNumbered (h : RawHunk) (oldLine newLine : Z) : Prop :=
  Forall numberedChange (raw_changes h)
  ∧ (staysSafe (raw_oldStart h) (omap rc_oldLineNumber (raw_changes h)) →
     countsFrom (raw_oldStart h) (omap rc_oldLineNumber (raw_changes h))
     ∧ oldLine = raw_oldStart h
                 + Z.of_nat (length (omap rc_oldLineNumber (raw_changes h))))
  ∧ (staysSafe (raw_newStart h) (omap rc_newLineNumber (raw_changes h)) →
     countsFrom (raw_newStart h) (omap rc_newLineNumber (raw_changes h))
     ∧ newLine = raw_newStart h
                 + Z.of_nat (length (omap rc_newLineNumber (raw_changes h)))).

Definition parserNumbered (st : ParserState) : Prop :=
  Forall (fun f => Forall itemNumbered (hunks f)) (knownFiles st)
  ∧ match currentHunk st with
    | Some h => rawNumbered h (oldLine st) (newLine st)
    | None => True
    end.

(** The file-diff endpoint keeps the hunks of a diff, inserts the skip
    blocks and counts the stats:
    [diff.hunks.filter(h => h.type === 'hunk')], [insertSkipBlocks],
    [countDiffStats]. *)
Definition responseHunks (diff : FileDiff) : list HunkItem :=
  let hunkOnly := omap asHunk (hunks diff) in
  insertSkipBlocks hunkOnly.

Definition responseStats (diff : FileDiff) : DiffStats :=
  countDiffStats (responseHunks diff).

(** Hunks that follow each other from the line [cursor] on: each starts at
    or after the end of the one before and has a length that is not
    negative. *)
Fixpoint inOrderFrom (cursor : Z) (hunks : list DiffHunk) : Prop :=
  match hunks with
  | [] => True
  | hunk :: rest =>
      cursor <= hunk_oldStart hunk
      ∧ 0 <= hunk_oldLines hunk
      ∧ inOrderFrom (hunk_oldStart hunk + hunk_oldLines hunk) rest
  end.

(** The old-file lines hidden by the skip blocks and shown by the hunks. *)
Fixpoint hiddenLines (items : list HunkItem) : Z :=
  match items with
  | [] => 0
  | IsSkip s :: rest => skip_count s + hiddenLines rest
  | IsHunk _ :: rest => hiddenLines rest
  end.

Fixpoint shownLines (items : list HunkItem) : Z :=
  match items with
  | [] => 0
  | IsHunk h :: rest => hunk_oldLines h + shownLines rest
  | IsSkip _ :: rest => shownLines rest
  end.

(** The old-file line after the last hunk, [cursor] when there is none. *)
Definition endOfHunks (cursor : Z) (hunks : list DiffHunk) : Z :=
  match last hunks with
  | Some hunk => hunk_oldStart hunk + hunk_oldLines hunk
  | None => cursor
  end.

(** The nodes of a tree in the order [flattenTree] visits them: a node,
    then the nodes of its children. *)
Fixpoint nodesOf (node : PackageFileTree) : list PackageFileTree :=
  node ::
  match node_children node with
  | Some children =>
      (fix nodesOfList (nodes : list PackageFileTree) : list PackageFileTree :=
         match nodes with
         | [] => []
         | n :: nodes' => nodesOf n ++ nodesOfList nodes'
         end) children
  | None => []
  end.

Definition treeNodes (tree : list PackageFileTree) : list PackageFileTree :=
  flat_map nodesOf tree.

(** The empty result of a comparison. *)
Definition noChanges : CompareResult := mkResult [] [] [] false.

(** The paths of all the changes of a result. *)
Definition changedPaths (r : CompareResult) : list jsstring :=
  map fc_path (added r ++ removed r ++ modified r).

(** The inner function [traverse] of [countFiles], on one node, threading
    the counter [count]. *)
Fixpoint countNode (node : PackageFileTree) (count : Z) : Z :=
  let count := match node_type node with
               | File => count + 1
               | Directory => count
               end in
  match node_children node with
  | Some children =>
      (fix traverse (nodes : list PackageFileTree) (count : Z) : Z :=
         match nodes with
         | [] => count
         | n :: nodes' => traverse nodes' (countNode n count)
         end) children count
  | None => count
  end.

Definition countFiles (tree : list PackageFileTree) : Z :=
  fold_left (fun count n => countNode n count) tree 0.

(** [CompareResponse], with [stats] and [meta] as records of their own. *)
Record CompareStats := mkCompareStats {
  totalFilesFrom : Z;
  totalFilesTo : Z;
  filesAdded : Z;
  filesRemoved : Z;
  filesModified : Z
}.

Record CompareMeta := mkCompareMeta {
  meta_truncated : bool;
  meta_warnings : option (list jsstring);
  meta_computeTime : Z
}.

Record CompareResponse := mkCompareResponse {
  resp_package : jsstring;
  resp_from : jsstring;
  resp_to : jsstring;
  resp_packageJson : option Manifest * option Manifest;
  resp_files : list FileChange * list FileChange * list FileChange;
  resp_dependencyChanges : list DependencyChange;
  resp_stats : CompareStats;
  resp_meta : CompareMeta
}.

Definition buildCompareResponse
    (semverDiff : jsstring -> jsstring -> SemverOutcome)
    (localeCompare : jsstring -> jsstring -> Z)
    (packageName from to : jsstring)
    (fromTree toTree : list PackageFileTree)
    (fromPkg toPkg : option Manifest) (computeTime : Z) : CompareResponse :=
  let fileChanges := compareFileTrees localeCompare fromTree toTree in
  let dependencyChanges :=
    compareDependencies semverDiff localeCompare fromPkg toPkg in
  let warnings :=
    if truncated fileChanges
    then [lit "File list truncated to "
          ++ numberToString (Z.of_nat MAX_FILES_COMPARE) ++ lit " files"]
    else [] in
  {| resp_package := packageName;
     resp_from := from;
     resp_to := to;
     resp_packageJson := (fromPkg, toPkg);
     resp_files := (added fileChanges, removed fileChanges, modified fileChanges);
     resp_dependencyChanges := dependencyChanges;
     resp_stats :=
       {| totalFilesFrom := countFiles fromTree;
          totalFilesTo := countFiles toTree;
          filesAdded := Z.of_nat (length (added fileChanges));
          filesRemoved := Z.of_nat (length (removed fileChanges));
          filesModified := Z.of_nat (length (modified fileChanges)) |};
     resp_meta :=
       {| meta_truncated := truncated fileChanges;
          meta_warnings := match warnings with
                           | [] => None
                           | _ :: _ => Some warnings
                           end;
          meta_computeTime := computeTime |} |}.

(** The last node with the path [p] in a list of nodes. *)
Definition lastWithPath (p : jsstring) (nodes : list PackageFileTree)
    : option PackageFileTree :=
  last (filter (fun n => node_path n = p) nodes).

(** The paths a map holds a file for. *)
Definition fileKeys (m : JsMap PackageFileTree) : list jsstring :=
  map fst (filter (fun e => node_type e.2 = File) m).

(** The file nodes among a list of nodes. *)
Definition fileNodes (nodes : list PackageFileTree) : list PackageFileTree :=
  filter (fun n => node_type n = File) nodes.

(** The changes of a result are about files of the two maps: added and
    modified files are files of [toFiles], removed ones files of
    [fromFiles]. *)
Definition aboutFiles (fromFiles toFiles : JsMap PackageFileTree)
    (r : CompareResult) : Prop :=
  Forall (fun c => fc_path c ∈ fileKeys toFiles) (added r)
  ∧ Forall (fun c => fc_path c ∈ fileKeys toFiles) (modified r)
  ∧ Forall (fun c => fc_path c ∈ fileKeys fromFiles) (removed r).

(** The section and the name of a change: what tells one dependency from
    another. *)
Definition depKey (c : DependencyChange) : DepSection * jsstring :=
  (dep_section c, dep_name c).

(** ** The endpoints and the compare page *)

(** [s.split(sep)] for a separator string that is not empty: the separator
    is looked for from left to right, matches do not overlap; [cur] is the
    part read so far. *)
Equations? splitOn (sep cur s : jsstring) : list jsstring by wf (length s) lt :=
  splitOn sep cur [] := [cur];
  splitOn sep cur (c :: s') :=
    if startsWith (c :: s') sep
    then cur :: splitOn sep [] (drop (length sep - 1) s')
    else splitOn sep (cur ++ [c]) s'.
Proof.
  all: simpl; rewrite ?length_drop; lia.
Qed.

(** [parts.join(sep)]. *)
Fixpoint joinWith (sep : jsstring) (parts : list jsstring) : jsstring :=
  match parts with
  | [] => []
  | part :: rest =>
      match rest with
      | [] => part
      | _ :: _ => part ++ sep ++ joinWith sep rest
      end
  end.

(** [parseVersionRange] of the two registry endpoints: the range is cut at
    [...], and at [..] when that does not give two parts. *)
Definition parseVersionRange (versionRange : jsstring)
    : option (jsstring * jsstring) :=
  match splitOn (lit "...") [] versionRange with
  | [from; to] => Some (from, to)
  | _ =>
      match splitOn (lit "..") [] versionRange with
      | [from; to] => Some (from, to)
      | _ => None
      end
  end.

(** No two dots follow each other in a string. *)
Fixpoint noDoubleDot (s : jsstring) : bool :=
  match s with
  | [] => true
  | c :: rest =>
      match rest with
      | d :: _ => negb ((c =? 46)%N && (d =? 46)%N) && noDoubleDot rest
      | [] => true
      end
  end.

(** [segments.indexOf(x)], [None] standing for [-1]. *)
Fixpoint indexOf (x : jsstring) (segments : list jsstring) : option nat :=
  match segments with
  | [] => None
  | s :: rest =>
      if str_eqb s x then Some 0%nat else S <$> indexOf x rest
  end.

(** [parsedRoute] of the compare page, on the path segments of the route:
    the package name and the range, [None] for [null]. *)
Definition parsedRoute (segments : list jsstring)
    : jsstring * option (jsstring * jsstring) :=
  match indexOf (lit "v") segments with
  | None => (joinWith (lit "/") segments, None)
  | Some vIndex =>
      if bool_decide (length segments - 1 <= vIndex)%nat
      then (joinWith (lit "/") segments, None)
      else
        let packageName := joinWith (lit "/") (take vIndex segments) in
        let rangeStr := default [] (segments !! (vIndex + 1)%nat) in
        match splitOn (lit "...") [] rangeStr with
        | [from; to] => (packageName, Some (from, to))
        | _ => (packageName, None)
        end
  end.

(** ** The diff line component *)

(** [s.replace(/c/g, to)] for a pattern that is the one code unit [c] and a
    replacement without [$]. *)
Definition replaceAll (c : code_unit) (to : jsstring) (s : jsstring) : jsstring :=
  flat_map (fun x => if (x =? c)%N then to else [x]) s.

Definition escapeHtml (str : jsstring) : jsstring :=
  replaceAll 62 (lit "&gt;")
    (replaceAll 60 (lit "&lt;")
       (replaceAll 38 (lit "&amp;") str)).

(** The entity of a code unit in the words of HTML: [&], [<] and [>] have
    one, any other code unit stands for itself. *)
Definition escapeUnit (x : code_unit) : jsstring :=
  if (x =? 38)%N then lit "&amp;"
  else if (x =? 60)%N then lit "&lt;"
  else if (x =? 62)%N then lit "&gt;"
  else [x].

(** [lineNumberNew] and [lineNumberOld] of the line component, [None]
    standing for [undefined]. *)
Definition lineNumberNew (line : DiffLine) : option Z :=
  match line_type line with
  | Normal => line_newLineNumber line
  | _ =>
      match line_lineNumber line with
      | Some n => Some n
      | None => line_newLineNumber line
      end
  end.

Definition lineNumberOld (line : DiffLine) : option Z :=
  match line_type line with
  | Normal => line_oldLineNumber line
  | Delete =>
      match line_lineNumber line with
      | Some n => Some n
      | None => line_oldLineNumber line
      end
  | Insert => None
  end.

(** ** The compare page and its side panel *)

(** [allChanges] of the compare page: the three lists of the response in
    one list sorted by path, the empty list while there is no response. *)
Definition allChanges (localeCompare : jsstring -> jsstring -> Z)
    (compare : option CompareResponse) : list FileChange :=
  match compare with
  | None => []
  | Some resp =>
      let '(added, removed, modified) := resp_files resp in
      sortWith (byPath localeCompare) (added ++ removed ++ modified)
  end.

(** [filteredChanges] of the side panel; the filter [None] is ['all']. *)
Definition filteredChanges (fileFilter : option ChangeType)
    (changes : list FileChange) : list FileChange :=
  match fileFilter with
  | None => changes
  | Some ty => filter (fun f => fc_type f = ty) changes
  end.

(** Each list of a result holds the changes of its own type. *)
Definition typedResult (r : CompareResult) : Prop :=
  Forall (fun c => fc_type c = Added) (added r)
  ∧ Forall (fun c => fc_type c = Removed) (removed r)
  ∧ Forall (fun c => fc_type c = Modified) (modified r).

(** A run of decimal digits that is not empty. *)
Definition isDigits (d : jsstring) : Prop :=
  d ≠ [] ∧ Forall (fun c => is_digit c = true) d.

(** A run of at most 20 decimal digits, not empty: [parseInt] reads it as
    the double nearest to the integer it writes. *)
Definition isShortDigits (d : jsstring) : Prop :=
  isDigits d ∧ (length d <= 20)%nat.

(** The text of a hunk header: [@@ -d1,d2 +d3,d4 @@trailer], the lengths
    [d2] and [d4] being optional. *)
Definition optionalLength (d : option jsstring) : jsstring :=
  match d with
  | Some d => lit "," ++ d
  | None => []
  end.

Definition hunkHeader (d1 : jsstring) (d2 : option jsstring) (d3 : jsstring)
    (d4 : option jsstring) (trailer : jsstring) : jsstring :=
  lit "@@ -" ++ d1 ++ optionalLength d2 ++ lit " +" ++ d3 ++ optionalLength d4
  ++ lit " @@" ++ trailer.

(** The name of a section, the string the changes carry. *)
Definition sectionName (s : DepSection) : jsstring :=
  match s with
  | Dependencies => lit "dependencies"
  | DevDependencies => lit "devDependencies"
  | PeerDependencies => lit "peerDependencies"
  | OptionalDependencies => lit "optionalDependencies"
  end.

(** The body of the loop of [groupedDeps]: the change is pushed to the
    group of its section, a new group being started when there is none. *)
Definition groupStep (groups : JsMap (list DependencyChange))
    (change : DependencyChange) : JsMap (list DependencyChange) :=
  let key := sectionName (dep_section change) in
  let existing := default [] (mapGet key groups) in
  mapSet key (existing ++ [change]) groups.

(** [groupedDeps] of the compare page, an empty map while there is no
    response. *)
Definition groupedDeps (compare : option CompareResponse)
    : JsMap (list DependencyChange) :=
  match compare with
  | None => []
  | Some resp => fold_left groupStep (resp_dependencyChanges resp) []
  end.

(** The changes of a section among a list of changes. *)
Definition changesOfSection (s : DepSection) (changes : list DependencyChange)
    : list DependencyChange :=
  filter (fun c => dep_section c = s) changes.

(** * Theorems *)

(** ** Similarity scorer *)

Lemma countChanged_shift x y (a b : jsstring) n k acc :
  fold_left (countStep (x :: a) (y :: b)) (seq (S k) n) acc
  = fold_left (countStep a b) (seq k n) acc.
Proof.
  revert k acc. induction n as [|n IH]; intros k acc; [reflexivity|].
  simpl. rewrite IH. reflexivity.
Qed.

Lemma countChanged_acc (a b : jsstring) l acc :
  fold_left (countStep a b) l acc = acc + fold_left (countStep a b) l 0.
Proof.
  revert acc. induction l as [|i l IH]; intros acc; simpl; [lia|].
  rewrite (IH (countStep a b acc i)), (IH (countStep a b 0 i)).
  unfold countStep. case_bool_decide; lia.
Qed.

Lemma countChanged_all_differ (a b : jsstring) n k acc :
  (∀ i, (k <= i < k + n)%nat → a !! i ≠ b !! i) →
  fold_left (countStep a b) (seq k n) acc = acc + Z.of_nat n.
Proof.
  revert k acc. induction n as [|n IH]; intros k acc Hd; simpl; [lia|].
  rewrite IH by (intros i Hi; apply Hd; lia).
  unfold countStep. rewrite bool_decide_eq_false_2 by (apply Hd; lia). lia.
Qed.

Lemma countChanged_mismatches (a b : jsstring) :
  countChanged a b (Nat.max (length a) (length b)) = mismatches a b.
Proof.
  unfold countChanged.
  revert b. induction a as [|x a IH]; intros b.
  - simpl. rewrite countChanged_all_differ; [lia|].
    intros i Hi. rewrite lookup_nil. intros E. symmetry in E.
    apply lookup_ge_None in E. lia.
  - destruct b as [|y b].
    + rewrite Nat.max_0_r. rewrite countChanged_all_differ; [simpl; lia|].
      intros i Hi. rewrite lookup_nil. intros E.
      apply lookup_ge_None in E. lia.
    + simpl Nat.max. cbn [seq fold_left mismatches].
      rewrite countChanged_shift, countChanged_acc, IH.
      unfold countStep. simpl.
      repeat case_bool_decide; congruence || lia.
Qed.

Lemma mismatches_bounds (a b : jsstring) :
  0 <= mismatches a b <= Z.of_nat (Nat.max (length a) (length b)).
Proof.
  revert b. induction a as [|x a IH]; intros [|y b]; simpl; try lia.
  specialize (IH b). case_bool_decide; lia.
Qed.


Lemma calculateChangeRatio_spec (a b : jsstring) :
  calculateChangeRatio a b = score_spec a b.
Proof.
  unfold calculateChangeRatio, score_spec.
  rewrite countChanged_mismatches.
  destruct (Z.eqb_spec (Z.of_nat (length a) + Z.of_nat (length b)) 0) as [E|E].
  - rewrite bool_decide_eq_true_2; [reflexivity|].
    destruct a, b; simpl in E; try lia. done.
  - rewrite bool_decide_eq_false_2; [reflexivity|].
    intros [-> ->]. simpl in E. lia.
Qed.

(** C3, as the code has it: the score is the mismatch count over the longer
    length plus the absolute length difference, divided by the sum of the
    lengths (and 1 for two empty strings); it lies between 0 and 2, a
    position past the end of the shorter string being counted twice. *)
Theorem C3_score_formula_range (a b : jsstring) :
  calculateChangeRatio a b = score_spec a b
  ∧ (0 <= calculateChangeRatio a b <= 2)%Q.
Proof.
  split; [apply calculateChangeRatio_spec|].
  rewrite calculateChangeRatio_spec. unfold score_spec.
  case_bool_decide as Hnil; [split; discriminate|].
  pose proof (mismatches_bounds a b) as Hm.
  set (m := mismatches a b) in *.
  set (la := Z.of_nat (length a)) in *.
  set (lb := Z.of_nat (length b)) in *.
  assert (0 <= la) by (subst la; lia).
  assert (0 <= lb) by (subst lb; lia).
  assert (0 < la + lb).
  { destruct a, b; subst la lb; simpl length in *; try lia.
    exfalso. apply Hnil. done. }
  assert (Hmax : Z.of_nat (Nat.max (length a) (length b)) = Z.max la lb)
    by (subst la lb; lia).
  rewrite Hmax in Hm.
  assert (Hpos : (0 < inject_Z (la + lb))%Q).
  { change 0%Q with (inject_Z 0). rewrite <- Zlt_Qlt. lia. }
  split.
  - apply Qle_shift_div_l; [exact Hpos|].
    rewrite Qmult_0_l. change 0%Q with (inject_Z 0). rewrite <- Zle_Qle. lia.
  - apply Qle_shift_div_r; [exact Hpos|].
    change 2%Q with (inject_Z 2). rewrite <- inject_Z_mult, <- Zle_Qle. lia.
Qed.

(** C3 as stated fails: a string of three code units scores 2 against the
    empty string. *)
Lemma C3_score_exceeds_one :
  ¬ (0 <= calculateChangeRatio (lit "abc") [] <= 1)%Q.
Proof.
  intros [_ H]. vm_compute in H. apply H. reflexivity.
Qed.

(** ** Skip-block inserter *)

Lemma ofZ_safe z :
  Z.abs z <= Number.MAX_SAFE_INTEGER → Number.ofZ z = z.
Proof.
  intros Hz. unfold Number.ofZ. by rewrite (proj2 (Z.leb_le _ _) Hz).
Qed.

Lemma toString_safe z :
  Z.abs z <= Number.MAX_SAFE_INTEGER → Number.toString z = Number.digits z.
Proof.
  intros Hz. unfold Number.toString. by rewrite (proj2 (Z.leb_le _ _) Hz).
Qed.

Lemma insertSkipBlocks_from (hunks : list DiffHunk) result cursor :
  fst (fold_left skipStep hunks (result, cursor)) = result ++ skipFrom cursor hunks.
Proof.
  revert result cursor. induction hunks as [|h hunks IH]; intros result cursor.
  - simpl. by rewrite app_nil_r.
  - cbn [fold_left skipFrom]. unfold skipStep at 2.
    destruct (Z.ltb_spec 0 (Number.sub (hunk_oldStart h) cursor)).
    + rewrite IH, bool_decide_eq_true_2 by lia.
      by rewrite <- !app_assoc.
    + rewrite IH, bool_decide_eq_false_2 by lia.
      by rewrite <- !app_assoc.
Qed.

Lemma insertSkipBlocks_skipFrom hunks : insertSkipBlocks hunks = skipFrom 1 hunks.
Proof. unfold insertSkipBlocks. by rewrite insertSkipBlocks_from. Qed.

Lemma skipFrom_counts_positive cursor hunks :
  Forall (fun item => match item with
                      | IsSkip s => 0 < skip_count s
                      | IsHunk _ => True
                      end) (skipFrom cursor hunks).
Proof.
  revert cursor. induction hunks as [|h hunks IH]; intros cursor; simpl.
  - constructor.
  - case_bool_decide; repeat constructor; auto; simpl; lia.
Qed.

Lemma skipFrom_hunks cursor hunks : omap asHunk (skipFrom cursor hunks) = hunks.
Proof.
  revert cursor. induction hunks as [|h hunks IH]; intros cursor; simpl; [done|].
  case_bool_decide; simpl; by rewrite IH.
Qed.

Lemma skipFrom_last cursor hunks :
  last (skipFrom cursor hunks) = IsHunk <$> last hunks.
Proof.
  revert cursor. induction hunks as [|h hunks IH]; intros cursor; [done|].
  cbn [skipFrom].
  set (c' := Z.max _ _). specialize (IH c').
  destruct hunks as [|h' hunks].
  - simpl. by case_bool_decide.
  - rewrite (last_cons_cons h), <- IH.
    remember (skipFrom c' (h' :: hunks)) as l eqn:El.
    destruct l as [|x l].
    { simpl in El. case_bool_decide; discriminate. }
    by case_bool_decide.
Qed.

(** On line numbers the doubles of the loop are the integers of the
    specification. *)
Lemma skipFrom_spec cursor hunks :
  0 <= cursor <= Number.MAX_SAFE_INTEGER →
  Forall safeHunk hunks →
  skipFrom cursor hunks = skipSpec cursor hunks.
Proof.
  revert cursor. induction hunks as [|h hunks IH]; intros cursor Hc Hs; [done|].
  apply Forall_cons in Hs as [(Hstart & Hlen & Hend) Hs].
  cbn [skipFrom skipSpec]. unfold Number.sub, Number.add, numberToString.
  rewrite !ofZ_safe by lia. rewrite IH by (done || lia).
  case_bool_decide; [|done].
  by rewrite toString_safe by lia.
Qed.

(** C5: [insertSkipBlocks] runs a cursor from 1; before each hunk it emits
    a skip block counting [oldStart - cursor] exactly when that is positive
    and moves the cursor to [max (oldStart + oldLines) cursor]: on hunks
    whose old lines are line numbers (not negative, at most
    [Number.MAX_SAFE_INTEGER], where the doubles of the code are the
    integers) the result is the cursor recursion of the specification.
    For every hunk list, every skip block has a positive count, the hunks
    are kept in their order, the last item of a non-empty result is the
    last hunk and not a skip block, and a lone hunk starting at line 50
    comes after a skip block of 49. *)
Theorem C5_insertSkipBlocks_cursor (hunks : list DiffHunk) :
  (Forall safeHunk hunks → insertSkipBlocks hunks = skipSpec 1 hunks)
  ∧ Forall (fun item => match item with
                        | IsSkip s => skip_count s > 0
                        | IsHunk _ => True
                        end) (insertSkipBlocks hunks)
  ∧ omap asHunk (insertSkipBlocks hunks) = hunks
  ∧ last (insertSkipBlocks hunks) = IsHunk <$> last hunks
  ∧ ∀ content oldLines newStart newLines lines,
      let hunk := mkHunk content 50 oldLines newStart newLines lines in
      insertSkipBlocks [hunk]
      = [IsSkip (mkSkip 49 (lit "49 lines hidden")); IsHunk hunk].
Proof.
  rewrite insertSkipBlocks_skipFrom. split_and!.
  - intros Hs. apply skipFrom_spec; [|done].
    unfold Number.MAX_SAFE_INTEGER. lia.
  - eapply Forall_impl; [apply skipFrom_counts_positive|].
    intros [h|s]; simpl; lia.
  - apply skipFrom_hunks.
  - apply skipFrom_last.
  - intros. reflexivity.
Qed.

(** Three hunks, the second of which starts inside the first: two skip
    blocks, none before the second hunk. *)
Lemma C5_insertSkipBlocks_cursor_witness :
  let h1 := mkHunk (lit "@@ -5,4 +5,4 @@") 5 4 5 4 [] in
  let h2 := mkHunk (lit "@@ -7,1 +7,1 @@") 7 1 7 1 [] in
  let h3 := mkHunk (lit "@@ -20,2 +20,2 @@") 20 2 20 2 [] in
  insertSkipBlocks [h1; h2; h3]
  = [IsSkip (mkSkip 4 (lit "4 lines hidden")); IsHunk h1; IsHunk h2;
     IsSkip (mkSkip 11 (lit "11 lines hidden")); IsHunk h3].
Proof.
  intros h1 h2 h3.
  refine (eq_trans (proj1 (C5_insertSkipBlocks_cursor [h1; h2; h3]) _) _).
  - repeat constructor; simpl; unfold Number.MAX_SAFE_INTEGER; lia.
  - vm_compute. reflexivity.
Defined.

(** Past [Number.MAX_SAFE_INTEGER] the count is the double the subtraction
    gives, written in exponent form from [1e21] on. *)
Lemma insertSkipBlocks_past_safe :
  let hunk := mkHunk [] (10 ^ 21) 1 1 1 [] in
  insertSkipBlocks [hunk]
  = [IsSkip (mkSkip (10 ^ 21) (lit "1e+21 lines hidden")); IsHunk hunk].
Proof. vm_compute. reflexivity. Qed.

(** ** Inline word aligner *)

Lemma splitRuns_join inWs cur s : join (splitRuns inWs cur s) = cur ++ s.
Proof.
  unfold join. revert inWs cur.
  induction s as [|c s IH]; intros inWs cur; simpl.
  - destruct inWs; simpl; by rewrite ?app_nil_r.
  - case_bool_decide; simpl; rewrite IH; [by rewrite <- app_assoc|done].
Qed.

Lemma splitWords_join s : join (splitWords s) = s.
Proof. apply splitRuns_join. Qed.

Lemma oldText_app l1 l2 : oldText (l1 ++ l2) = oldText l1 ++ oldText l2.
Proof. unfold oldText, join. by rewrite filter_app, map_app, concat_app. Qed.

Lemma newText_app l1 l2 : newText (l1 ++ l2) = newText l1 ++ newText l2.
Proof. unfold newText, join. by rewrite filter_app, map_app, concat_app. Qed.

Lemma oldText_single v ty : oldText [mkSegment v ty] = oldPart ty v.
Proof. destruct ty; unfold oldText, join; simpl; by rewrite ?app_nil_r. Qed.

Lemma newText_single v ty : newText [mkSegment v ty] = newPart ty v.
Proof. destruct ty; unfold newText, join; simpl; by rewrite ?app_nil_r. Qed.

Lemma oldText_cons s l :
  oldText (s :: l) = oldPart (seg_type s) (seg_value s) ++ oldText l.
Proof. destruct s. by rewrite <- oldText_single, <- oldText_app. Qed.

Lemma newText_cons s l :
  newText (s :: l) = newPart (seg_type s) (seg_value s) ++ newText l.
Proof. destruct s. by rewrite <- newText_single, <- newText_app. Qed.

Lemma oldPart_app ty v w : oldPart ty (v ++ w) = oldPart ty v ++ oldPart ty w.
Proof. by destruct ty. Qed.

Lemma newPart_app ty v w : newPart ty (v ++ w) = newPart ty v ++ newPart ty w.
Proof. by destruct ty. Qed.

(** Extending the last segment in place is appending to it. *)
Lemma extendOrPush_cases ty segs v :
  extendOrPush ty segs v = segs ++ [mkSegment v ty]
  ∨ ∃ init l, segs = init ++ [l] ∧ seg_type l = ty
              ∧ extendOrPush ty segs v = init ++ [mkSegment (seg_value l ++ v) ty].
Proof.
  unfold extendOrPush.
  destruct (last segs) as [l|] eqn:Hlast; [|by left].
  case_bool_decide as Hty; [|by left].
  right. apply last_Some in Hlast as [init ->].
  exists init, l. split_and!; [done..|].
  rewrite length_app. simpl.
  replace (length init + 1 - 1)%nat with (length init + 0)%nat by lia.
  rewrite insert_app_r. simpl. by rewrite Hty.
Qed.

Lemma oldText_extendOrPush ty segs v :
  oldText (extendOrPush ty segs v) = oldText segs ++ oldPart ty v.
Proof.
  destruct (extendOrPush_cases ty segs v) as [->|(init & l & -> & Hty & ->)].
  - by rewrite oldText_app, oldText_single.
  - destruct l as [lv lt]. simpl in *. subst lt.
    by rewrite !oldText_app, !oldText_single, oldPart_app, <- app_assoc.
Qed.

Lemma newText_extendOrPush ty segs v :
  newText (extendOrPush ty segs v) = newText segs ++ newPart ty v.
Proof.
  destruct (extendOrPush_cases ty segs v) as [->|(init & l & -> & Hty & ->)].
  - by rewrite newText_app, newText_single.
  - destruct l as [lv lt]. simpl in *. subst lt.
    by rewrite !newText_app, !newText_single, newPart_app, <- app_assoc.
Qed.

Lemma coalesce_texts segs :
  oldText (coalesce segs) = oldText segs ∧ newText (coalesce segs) = newText segs.
Proof.
  unfold coalesce.
  enough (H : ∀ merged,
             let r := fold_left
                        (fun merged seg =>
                           extendOrPush (seg_type seg) merged (seg_value seg))
                        segs merged in
             oldText r = oldText merged ++ oldText segs
             ∧ newText r = newText merged ++ newText segs)
    by apply (H []).
  induction segs as [|[v ty] segs IH]; intros merged; simpl.
  - unfold oldText at 3, newText at 3. simpl. by rewrite !app_nil_r.
  - destruct (IH (extendOrPush ty merged v)) as [-> ->].
    rewrite oldText_extendOrPush, newText_extendOrPush.
    rewrite oldText_cons, newText_cons. simpl. by rewrite <- !app_assoc.
Qed.

Lemma join_take_drop (ws : list jsstring) i w :
  ws !! i = Some w → join (take (i + 1) ws) = join (take i ws) ++ w.
Proof.
  intros H. unfold join.
  rewrite Nat.add_1_r, (take_S_r _ _ _ H), concat_app. simpl.
  by rewrite app_nil_r.
Qed.

Lemma join_take_add (ws : list jsstring) i k :
  join (take (i + k) ws) = join (take i ws) ++ join (take k (drop i ws)).
Proof. unfold join. by rewrite <- take_take_drop, concat_app. Qed.

Lemma alignStep_inv oldWords newWords st :
  alignInv oldWords newWords st →
  match alignStep oldWords newWords st with
  | inl st' => alignInv oldWords newWords st'
  | inr out => oldText out = join oldWords ∧ newText out = join newWords
  end.
Proof.
  intros [Ho Hn]. unfold alignStep.
  destruct (oldWords !! oi st) as [ow|] eqn:Eo;
    destruct (newWords !! ni st) as [nw|] eqn:En.
  - unfold str_eqb. case_bool_decide as Heq.
    + subst nw. split; simpl.
      * by rewrite oldText_extendOrPush, Ho, (join_take_drop _ _ _ Eo).
      * by rewrite newText_extendOrPush, Hn, (join_take_drop _ _ _ En).
    + destruct (findSync newWords (ni st) ow) as [look|].
      { split; simpl.
        - by rewrite oldText_app, oldText_single, app_nil_r.
        - by rewrite newText_app, newText_single, Hn, join_take_add. }
      destruct (findSync oldWords (oi st) nw) as [look|].
      { split; simpl.
        - by rewrite oldText_app, oldText_single, Ho, join_take_add.
        - by rewrite newText_app, newText_single, app_nil_r. }
      split; simpl.
      * rewrite oldText_app, oldText_cons, oldText_single. simpl.
        by rewrite app_nil_r, Ho, (join_take_drop _ _ _ Eo).
      * rewrite newText_app, newText_cons, newText_single. simpl.
        by rewrite Hn, (join_take_drop _ _ _ En).
  - apply lookup_ge_None in En.
    rewrite oldText_app, newText_app, oldText_single, newText_single, Ho, Hn.
    simpl. rewrite app_nil_r, (take_ge newWords) by done.
    split; [|done]. unfold join. by rewrite <- concat_app, take_drop.
  - apply lookup_ge_None in Eo.
    rewrite oldText_app, newText_app, oldText_single, newText_single, Ho, Hn.
    simpl. rewrite app_nil_r, (take_ge oldWords) by done.
    split; [done|]. unfold join. by rewrite <- concat_app, take_drop.
  - apply lookup_ge_None in Eo, En.
    by rewrite Ho, Hn, !take_ge.
Qed.

Lemma alignLoop_texts oldWords newWords st :
  alignInv oldWords newWords st →
  oldText (alignLoop oldWords newWords st) = join oldWords
  ∧ newText (alignLoop oldWords newWords st) = join newWords.
Proof.
  funelim (alignLoop oldWords newWords st); intros Hinv;
    apply alignStep_inv in Hinv;
    match goal with
    | E : alignStep _ _ _ = _ |- _ => rewrite E in Hinv
    end; auto.
Qed.

(** C1: the segments of the inline aligner spell the old text on the delete
    and normal side and the new text on the insert and normal side; an
    unmerged line has one segment, whose text is the raw line text. *)
Theorem C1_segments_round_trip (oldContent newContent : jsstring)
    (options : ParseOptions) (change : RawChange) :
  oldText (buildInlineDiffSegments oldContent newContent options) = oldContent
  ∧ newText (buildInlineDiffSegments oldContent newContent options) = newContent
  ∧ map seg_value (line_content (changeToLine change)) = [rc_content change].
Proof.
  unfold buildInlineDiffSegments.
  destruct (coalesce_texts
              (alignLoop (splitWords oldContent) (splitWords newContent)
                 (mkAlign [] 0 0))) as [-> ->].
  destruct (alignLoop_texts (splitWords oldContent) (splitWords newContent)
              (mkAlign [] 0 0)) as [-> ->].
  { split; reflexivity. }
  by rewrite !splitWords_join.
Qed.

(** ** Hunk processor *)

Lemma mergeLoop_spec changes options out i :
  mergeLoop changes options out i = out ++ mergeSpec options (drop i changes).
Proof.
  funelim (mergeLoop changes options out i);
    repeat match goal with
           | H : sigmaI _ _ _ = _ |- _ => clear H
           | H : _ = mergeLoop _ _ _ _ |- _ => clear H
           end;
    replace (i + 1 + 1)%nat with (S (S i)) in * by lia;
    replace (i + 1)%nat with (S i) in * by lia.
  - match goal with
    | E : changes !! i = None |- _ => apply lookup_ge_None in E
    end.
    rewrite drop_ge by done. simpl. by rewrite app_nil_r.
  - match goal with
    | E : changes !! i = Some current, E' : changes !! S i = Some next |- _ =>
        rewrite (drop_S _ _ _ E); cbn [mergeSpec];
        rewrite (drop_S _ _ _ E') at 1
    end.
    destruct (mergeable current next options);
      match goal with
      | IH : mergeLoop _ _ _ _ = _ |- mergeLoop _ _ ?o ?j = _ =>
          lazymatch type of IH with
          | mergeLoop _ _ o j = _ => rewrite IH
          end
      end;
      by rewrite <- app_assoc.
  - match goal with
    | E : changes !! i = Some current, E' : changes !! S i = None |- _ =>
        rewrite (drop_S _ _ _ E); apply lookup_ge_None in E'
    end.
    match goal with
    | IH : mergeLoop _ _ _ _ = _ |- _ => rewrite IH
    end.
    rewrite !drop_ge by done. simpl. by rewrite app_nil_r.
Qed.

Lemma mergeAdjacentLines_spec changes options :
  mergeAdjacentLines changes options = mergeSpec options changes.
Proof. unfold mergeAdjacentLines. by rewrite mergeLoop_spec. Qed.

Lemma mergeSpec_cons_cons options x y l :
  mergeSpec options (x :: y :: l)
  = if mergeable x y options
    then mergedLine x y options :: mergeSpec options l
    else changeToLine x :: mergeSpec options (y :: l).
Proof. reflexivity. Qed.

(** A delete is never the second change of a merged pair, so what comes
    before a mergeable pair is processed on its own. *)
Lemma mergeSpec_pair options pre d i post :
  mergeable d i options = true →
  mergeSpec options (pre ++ d :: i :: post)
  = mergeSpec options pre ++ mergedLine d i options :: mergeSpec options post.
Proof.
  intros Hm.
  assert (Hd : ∀ x, mergeable x d options = false).
  { intros x. unfold mergeable in *.
    apply andb_prop in Hm as [Hm _]. apply andb_prop in Hm as [Hm _].
    apply bool_decide_eq_true in Hm.
    rewrite (bool_decide_eq_false_2 (rc_type d = Insert)) by congruence.
    by rewrite andb_false_r. }
  enough (H : (mergeSpec options (pre ++ d :: i :: post)
               = mergeSpec options pre ++ mergedLine d i options :: mergeSpec options post)
              ∧ ∀ x, mergeSpec options ((x :: pre) ++ d :: i :: post)
                     = mergeSpec options (x :: pre)
                       ++ mergedLine d i options :: mergeSpec options post)
    by apply H.
  induction pre as [|y pre [IH1 IH2]].
  - split; [simpl; by rewrite Hm|].
    intros x. change ([x] ++ d :: i :: post) with (x :: d :: i :: post).
    by rewrite !mergeSpec_cons_cons, Hd, Hm.
  - split; [apply IH2|].
    intros x. change ((x :: y :: pre) ++ d :: i :: post)
      with (x :: y :: (pre ++ d :: i :: post)).
    rewrite !mergeSpec_cons_cons. destruct (mergeable x y options).
    + by rewrite IH1.
    + change (y :: pre ++ d :: i :: post) with ((y :: pre) ++ d :: i :: post).
      by rewrite IH2.
Qed.

Lemma mergeable_similarPair options d i :
  mergeable d i options = bool_decide (similarPair options d i).
Proof.
  unfold mergeable.
  destruct (decide (similarPair options d i)) as [(Hd & Hi & Hs)|Hn].
  - rewrite (bool_decide_eq_true_2 (similarPair options d i))
      by (by split_and!).
    by rewrite Hs, !bool_decide_eq_true_2.
  - rewrite (bool_decide_eq_false_2 (similarPair options d i)) by done.
    apply not_true_is_false. intros H.
    apply andb_prop in H as [H Hs]. apply andb_prop in H as [Hd Hi].
    apply bool_decide_eq_true in Hd, Hi. by apply Hn.
Qed.

Lemma linesSpec_cons_cons options x y l :
  linesSpec options (x :: y :: l)
  = if bool_decide (similarPair options x y)
    then pairLine options x y :: linesSpec options l
    else ownLine x :: linesSpec options (y :: l).
Proof. reflexivity. Qed.

Lemma mergeSpec_linesSpec options changes :
  mergeSpec options changes = linesSpec options changes.
Proof.
  enough (H : mergeSpec options changes = linesSpec options changes
              ∧ ∀ x, mergeSpec options (x :: changes)
                     = linesSpec options (x :: changes))
    by apply H.
  induction changes as [|y changes [IH1 IH2]].
  - split; [done|]. intros x. reflexivity.
  - split; [apply IH2|].
    intros x. rewrite mergeSpec_cons_cons, linesSpec_cons_cons.
    rewrite mergeable_similarPair.
    case_bool_decide; [by rewrite IH1|].
    rewrite IH2. reflexivity.
Qed.

Lemma linesSpec_pair options pre d i post :
  similarPair options d i →
  linesSpec options (pre ++ d :: i :: post)
  = linesSpec options pre ++ pairLine options d i :: linesSpec options post.
Proof.
  intros Hp. rewrite <- !mergeSpec_linesSpec.
  apply mergeSpec_pair. rewrite mergeable_similarPair.
  by apply bool_decide_eq_true_2.
Qed.

Lemma linesSpec_noSimilarPair options changes :
  noSimilarPair options changes →
  linesSpec options changes = map ownLine changes.
Proof.
  enough (H : (noSimilarPair options changes →
               linesSpec options changes = map ownLine changes)
              ∧ ∀ x, noSimilarPair options (x :: changes) →
                     linesSpec options (x :: changes)
                     = map ownLine (x :: changes))
    by apply H.
  induction changes as [|y changes [IH1 IH2]].
  - split; [done|]. by intros x _.
  - split; [apply IH2|].
    intros x Hno. rewrite linesSpec_cons_cons.
    rewrite bool_decide_eq_false_2 by (apply (Hno [] x y changes); done).
    rewrite IH2; [done|].
    intros pre d i post Heq. apply (Hno (x :: pre) d i post).
    by rewrite Heq.
Qed.

(** C2: with [mergeModifiedLines] on, the lines of a hunk are, for every
    list of raw changes, the lines of the specification: read from left to
    right, a delete directly followed by an insert that is similar enough
    gives one normal line with the delete's line number as old number, the
    insert's as new number and the aligner's segments as content, and both
    changes are consumed; every other change gives a line of its own kind
    and numbers with its text as only segment.  So wherever such a pair
    stands in the list it is replaced by its one line, the changes before
    it and after it being processed on their own, and a list without such
    a pair gives one own line for each change. *)
Theorem C2_merge_similar_pair (raw : RawHunk) (options : ParseOptions) :
  mergeModifiedLines options = true →
  hunk_lines (processHunk raw options) = linesSpec options (raw_changes raw)
  ∧ (∀ pre d i post,
       raw_changes raw = pre ++ d :: i :: post →
       rc_type d = Delete →
       rc_type i = Insert →
       isSimilarEnough (rc_content d) (rc_content i) (maxChangeRatio options)
       = true →
       hunk_lines (processHunk raw options)
       = linesSpec options pre
         ++ [mkLine Normal (rc_lineNumber d) (rc_lineNumber i) None
               (buildInlineDiffSegments (rc_content d) (rc_content i) options)]
         ++ linesSpec options post)
  ∧ (noSimilarPair options (raw_changes raw) →
     hunk_lines (processHunk raw options)
     = map (fun c =>
              mkLine (rc_type c) (rc_oldLineNumber c) (rc_newLineNumber c)
                (rc_lineNumber c) [mkSegment (rc_content c) Normal])
         (raw_changes raw)).
Proof.
  intros Hon.
  assert (E : hunk_lines (processHunk raw options)
              = linesSpec options (raw_changes raw)).
  { unfold processHunk. simpl.
    by rewrite Hon, mergeAdjacentLines_spec, mergeSpec_linesSpec. }
  rewrite E. split_and!.
  - done.
  - intros pre d i post Hraw Hd Hi Hsim.
    rewrite Hraw. by apply linesSpec_pair.
  - apply linesSpec_noSimilarPair.
Qed.

(** The pair [a b c] / [a x c] between two context lines, under the default
    options. *)
Lemma C2_merge_similar_pair_witness :
  let ctx := mkChange Normal (lit "x") None (Some 1) (Some 1) (Some true) in
  let d := mkChange Delete (lit "a b c") (Some 2) (Some 2) None None in
  let i := mkChange Insert (lit "a x c") (Some 2) None (Some 2) None in
  let raw := mkRawHunk [ctx; d; i; ctx] 1 3 1 3 (lit "@@ -1,3 +1,3 @@") in
  hunk_lines (processHunk raw defaultOptions)
  = [mkLine Normal (Some 1) (Some 1) None [mkSegment (lit "x") Normal];
     mkLine Normal (Some 2) (Some 2) None
       [mkSegment (lit "a ") Normal; mkSegment (lit "b") Delete;
        mkSegment (lit "x") Insert; mkSegment (lit " c") Normal];
     mkLine Normal (Some 1) (Some 1) None [mkSegment (lit "x") Normal]].
Proof.
  intros ctx d i raw.
  refine (eq_trans
            (proj1 (proj2 (C2_merge_similar_pair raw defaultOptions eq_refl))
               [ctx] d i [ctx] eq_refl eq_refl eq_refl _) _).
  - vm_compute. reflexivity.
  - vm_compute. reflexivity.
Defined.

(** ** Stats counter *)

Lemma linesOfKind_cons k l lines :
  linesOfKind k (l :: lines)
  = (if bool_decide (line_type l = k) then 1 else 0) + linesOfKind k lines.
Proof.
  unfold linesOfKind. rewrite filter_cons.
  case_bool_decide; case_decide; try done; simpl length; lia.
Qed.

Lemma countLines_spec lines stats :
  fold_left
    (fun stats line =>
       match line_type line with
       | Insert => mkStats (additions stats + 1) (deletions stats)
       | Delete => mkStats (additions stats) (deletions stats + 1)
       | Normal => stats
       end) lines stats
  = mkStats (additions stats + linesOfKind Insert lines)
            (deletions stats + linesOfKind Delete lines).
Proof.
  revert stats. induction lines as [|l lines IH]; intros [a d].
  - unfold linesOfKind. simpl. f_equal; lia.
  - cbn [fold_left]. rewrite IH, !linesOfKind_cons.
    destruct (line_type l); simpl; f_equal;
      repeat case_bool_decide; try done; lia.
Qed.

Lemma countDiffStats_spec items :
  countDiffStats items = mkStats (countKind Insert items) (countKind Delete items).
Proof.
  unfold countDiffStats.
  enough (H : ∀ stats,
             fold_left
               (fun stats hunk =>
                  match hunk with
                  | IsHunk h =>
                      fold_left
                        (fun stats line =>
                           match line_type line with
                           | Insert => mkStats (additions stats + 1) (deletions stats)
                           | Delete => mkStats (additions stats) (deletions stats + 1)
                           | Normal => stats
                           end) (hunk_lines h) stats
                  | IsSkip _ => stats
                  end) items stats
             = mkStats (additions stats + countKind Insert items)
                       (deletions stats + countKind Delete items))
    by apply (H (mkStats 0 0)).
  induction items as [|[h|s] items IH]; intros [a d]; cbn [fold_left countKind].
  - f_equal; simpl; lia.
  - rewrite countLines_spec, IH. simpl. f_equal; lia.
  - apply IH.
Qed.

(** Merging never adds insert or delete lines. *)
Lemma mergeSpec_linesOfKind options k changes :
  k ≠ Normal →
  linesOfKind k (mergeSpec options changes)
  <= linesOfKind k (map changeToLine changes).
Proof.
  intros Hk.
  enough (H : linesOfKind k (mergeSpec options changes)
              <= linesOfKind k (map changeToLine changes)
              ∧ ∀ x, linesOfKind k (mergeSpec options (x :: changes))
                     <= linesOfKind k (map changeToLine (x :: changes)))
    by apply H.
  induction changes as [|y changes [IH1 IH2]].
  - split; [done|]. intros x. simpl. lia.
  - split; [apply IH2|].
    intros x. rewrite mergeSpec_cons_cons.
    destruct (mergeable x y options).
    + cbn [map]. rewrite !linesOfKind_cons. simpl line_type.
      rewrite (bool_decide_eq_false_2 (Normal = k)) by done.
      repeat case_bool_decide; lia.
    + specialize (IH2 y). cbn [map] in *. rewrite !linesOfKind_cons in *. lia.
Qed.

(** C9: [countDiffStats] counts the insert lines and the delete lines of the
    hunks and nothing else; a merged pair is one normal line and counts for
    neither; so the stats of a hunk processed with [mergeModifiedLines] on
    are at most the stats with it off, and for the diff [oneWordDiff] they
    are lower (0 and 0 against 1 and 1). *)
Theorem C9_stats_ignore_merged_lines :
  (∀ items,
     countDiffStats items
     = mkStats (countKind Insert items) (countKind Delete items))
  ∧ (∀ d i options content oldStart oldLines newStart newLines,
       countDiffStats
         [IsHunk (mkHunk content oldStart oldLines newStart newLines
                    [mergedLine d i options])]
       = mkStats 0 0)
  ∧ (∀ raw options,
       let merged := countDiffStats [IsHunk (processHunk raw (withMerge true options))] in
       let unmerged := countDiffStats [IsHunk (processHunk raw (withMerge false options))] in
       additions merged <= additions unmerged
       ∧ deletions merged <= deletions unmerged)
  ∧ fileStats (parseUnifiedDiffWith (withMerge true defaultOptions) oneWordDiff)
    = [mkStats 0 0]
  ∧ fileStats (parseUnifiedDiffWith (withMerge false defaultOptions) oneWordDiff)
    = [mkStats 1 1].
Proof.
  split_and!.
  - apply countDiffStats_spec.
  - intros. reflexivity.
  - intros raw options. rewrite !countDiffStats_spec. simpl.
    rewrite mergeAdjacentLines_spec.
    pose proof (mergeSpec_linesOfKind (withMerge true options) Insert
                  (raw_changes raw) ltac:(done)).
    pose proof (mergeSpec_linesOfKind (withMerge true options) Delete
                  (raw_changes raw) ltac:(done)).
    lia.
  - vm_compute. reflexivity.
  - vm_compute. reflexivity.
Qed.

(** ** Unified-diff parser *)

Lemma stripPrefix_startsWith p s :
  stripPrefix p s = if startsWith s p then Some (drop (length p) s) else None.
Proof.
  revert s. induction p as [|c p IH]; intros [|d s]; simpl; try done.
  case_bool_decide; simpl; [apply IH|done].
Qed.

Lemma span_upToLineTerminator s :
  fst (span (fun c => negb (is_line_terminator c)) s) = upToLineTerminator s.
Proof.
  induction s as [|c s IH]; simpl; [done|].
  destruct (is_line_terminator c); simpl; [done|].
  destruct (span _ s). simpl in *. by rewrite IH.
Qed.

Lemma matchNewFilePath_spec rest :
  matchNewFilePath (lit "+++ " ++ rest) = upToLineTerminator (stripOptionalB rest).
Proof.
  unfold matchNewFilePath, stripOptionalB.
  change (stripPrefix (lit "+++ ") (lit "+++ " ++ rest)) with (Some rest).
  cbv beta iota zeta.
  rewrite span_upToLineTerminator, stripPrefix_startsWith.
  by destruct (startsWith rest (lit "b/")).
Qed.

Lemma flushHunk_paths opts st :
  map oldPath (match flushHunk opts st with Some f => [f] | None => [] end)
  = map oldPath (match currentFile st with Some f => [f] | None => [] end)
  ∧ map newPath (match flushHunk opts st with Some f => [f] | None => [] end)
    = map newPath (match currentFile st with Some f => [f] | None => [] end).
Proof.
  unfold flushHunk. by destruct (currentHunk st), (currentFile st).
Qed.

(** A line opens a file exactly when it starts with [+++]; no other line
    changes the paths of the files. *)
Lemma parseLine_paths opts st line :
  let opened :=
    if startsWith line (lit "+++") then [matchNewFilePath line] else [] in
  map oldPath (knownFiles (parseLine opts st line))
  = map oldPath (knownFiles st) ++ opened
  ∧ map newPath (knownFiles (parseLine opts st line))
    = map newPath (knownFiles st) ++ opened.
Proof.
  destruct (flushHunk_paths opts st) as [Fo Fn].
  unfold parseLine, knownFiles.
  destruct (startsWith line (lit "---")) eqn:Hminus.
  { assert (startsWith line (lit "+++") = false) as ->.
    { change (lit "---") with [45; 45; 45]%N in Hminus.
      change (lit "+++") with [43; 43; 43]%N.
      destruct line as [|c line]; [done|].
      cbn [startsWith] in *.
      destruct (decide (45%N = c)) as [<-|Hne]; [done|].
      by rewrite (bool_decide_eq_false_2 _ Hne) in Hminus. }
    simpl. rewrite !map_app, Fo, Fn, !app_nil_r. done. }
  destruct (startsWith line (lit "+++")) eqn:Hplus.
  { simpl. destruct (flushHunk opts st); simpl in *;
      rewrite ?map_app, <- ?Fo, <- ?Fn, <- ?app_assoc; simpl;
      by rewrite ?app_nil_r. }
  destruct (matchHunkHeader line) as [[[[g1 g2] g3] g4]|].
  { simpl. rewrite !map_app, Fo, Fn, !app_nil_r. done. }
  destruct (_ || _); [by rewrite !app_nil_r|].
  destruct (currentHunk st); [|by rewrite !app_nil_r].
  repeat match goal with
         | |- context [if ?b then _ else _] => destruct b
         end; simpl; by rewrite !app_nil_r.
Qed.

Lemma parseLines_paths opts lines st :
  let opened :=
    map matchNewFilePath
      (filter (fun line => startsWith line (lit "+++") = true) lines) in
  map oldPath (knownFiles (fold_left (parseLine opts) lines st))
  = map oldPath (knownFiles st) ++ opened
  ∧ map newPath (knownFiles (fold_left (parseLine opts) lines st))
    = map newPath (knownFiles st) ++ opened.
Proof.
  revert st. induction lines as [|line lines IH]; intros st.
  - simpl. by rewrite !app_nil_r.
  - cbn [fold_left]. destruct (IH (parseLine opts st line)) as [-> ->].
    destruct (parseLine_paths opts st line) as [-> ->].
    rewrite filter_cons. case_decide as Hp.
    + rewrite Hp. simpl. by rewrite <- !app_assoc.
    + apply not_true_is_false in Hp. rewrite Hp. simpl.
      by rewrite !app_nil_r.
Qed.

Lemma parseUnifiedDiffWith_paths opts diffText :
  let opened :=
    map matchNewFilePath
      (filter (fun line => startsWith line (lit "+++") = true)
         (splitLines diffText)) in
  map oldPath (parseUnifiedDiffWith opts diffText) = opened
  ∧ map newPath (parseUnifiedDiffWith opts diffText) = opened.
Proof.
  unfold parseUnifiedDiffWith.
  set (st := fold_left _ _ _).
  destruct (parseLines_paths opts (splitLines diffText) (mkParser [] None None 0 0))
    as [Ho Hn].
  fold st in Ho, Hn. simpl in Ho, Hn.
  destruct (flushHunk_paths opts st) as [Fo Fn].
  unfold knownFiles in Ho, Hn. rewrite map_app in Ho, Hn.
  rewrite <- Fo in Ho. rewrite <- Fn in Hn.
  rewrite !map_map. simpl.
  destruct (flushHunk opts st); simpl in *;
    rewrite ?map_app; simpl; rewrite ?app_nil_r in *; done.
Qed.

(** C4, as the code has it: a line [+++ rest] opens a file whose old and new
    path are both [rest] without an optional [b/] prefix (an [a/] prefix is
    kept) and cut before the first line terminator; the files of a parsed
    diff are the ones opened by its [+++] lines, in order, with those paths.
    [+++ b/foo.js] gives [foo.js], [+++ a/foo.js] gives [a/foo.js]. *)
Theorem C4_new_file_path_strips_b_only (opts : ParseOptions) (st : ParserState)
    (rest diffText : jsstring) :
  let path := upToLineTerminator (stripOptionalB rest) in
  let opened :=
    map matchNewFilePath
      (filter (fun line => startsWith line (lit "+++") = true)
         (splitLines diffText)) in
  currentFile (parseLine opts st (lit "+++ " ++ rest))
  = Some (mkFile path path Modify [])
  ∧ map oldPath (parseUnifiedDiffWith opts diffText) = opened
  ∧ map newPath (parseUnifiedDiffWith opts diffText) = opened
  ∧ parseUnifiedDiff (lit "+++ b/foo.js")
    = [mkFile (lit "foo.js") (lit "foo.js") Modify []]
  ∧ parseUnifiedDiff (lit "+++ a/foo.js")
    = [mkFile (lit "a/foo.js") (lit "a/foo.js") Modify []].
Proof.
  intros path opened. split_and!.
  - unfold parseLine.
    change (startsWith (lit "+++ " ++ rest) (lit "---")) with false.
    change (startsWith (lit "+++ " ++ rest) (lit "+++")) with true.
    cbv beta iota zeta. cbn [currentFile].
    by rewrite matchNewFilePath_spec.
  - apply parseUnifiedDiffWith_paths.
  - apply parseUnifiedDiffWith_paths.
  - vm_compute. reflexivity.
  - vm_compute. reflexivity.
Qed.

(** C4 as stated fails: the line [+++ a/foo.js] does not give the path
    [foo.js], the prefix [a/] stays. *)
Lemma C4_a_prefix_is_kept :
  map oldPath (parseUnifiedDiff (lit "+++ a/foo.js")) = [lit "a/foo.js"]
  ∧ map oldPath (parseUnifiedDiff (lit "+++ a/foo.js")) ≠ [lit "foo.js"]
  ∧ map newPath (parseUnifiedDiff (lit "+++ a/foo.js")) ≠ [lit "foo.js"].
Proof.
  split_and!; vm_compute; [reflexivity|discriminate..].
Qed.

(** ** Sorting *)

Lemma insertSorted_Permutation {A} (cmp : A → A → Z) x l :
  insertSorted cmp x l ≡ₚ x :: l.
Proof.
  induction l as [|y l IH]; simpl; [done|].
  destruct (cmp x y <=? 0); [done|].
  rewrite IH. apply Permutation_swap.
Qed.

Lemma sortWith_Permutation {A} (cmp : A → A → Z) l : sortWith cmp l ≡ₚ l.
Proof.
  induction l as [|x l IH]; simpl; [done|].
  by rewrite insertSorted_Permutation, IH.
Qed.

Lemma length_sortWith {A} (cmp : A → A → Z) l : length (sortWith cmp l) = length l.
Proof. by rewrite sortWith_Permutation. Qed.

Lemma Sorted_insertSorted {A} (cmp : A → A → Z) x l :
  (∀ a b, cmp a b <= 0 ∨ cmp b a <= 0) →
  Sorted (notAfter cmp) l → Sorted (notAfter cmp) (insertSorted cmp x l).
Proof.
  intros Htotal. induction 1 as [|y l Hl IH Hy]; simpl.
  - repeat constructor.
  - destruct (Z.leb_spec (cmp x y) 0) as [Hxy|Hxy].
    + repeat constructor; done.
    + constructor; [done|].
      assert (Hyx : notAfter cmp y x).
      { unfold notAfter. destruct (Htotal x y); [lia|done]. }
      destruct Hy as [|z l Hyz]; simpl; [by constructor|].
      destruct (cmp x z <=? 0); by constructor.
Qed.

Lemma Sorted_sortWith {A} (cmp : A → A → Z) l :
  (∀ a b, cmp a b <= 0 ∨ cmp b a <= 0) →
  Sorted (notAfter cmp) (sortWith cmp l).
Proof.
  intros Htotal. induction l as [|x l IH]; simpl; [constructor|].
  by apply Sorted_insertSorted.
Qed.

(** ** File-tree comparator *)

Lemma totalChanges_classifyTo fromFiles path toNode r :
  (totalChanges r <= totalChanges (classifyTo fromFiles path toNode r)
   <= totalChanges r + 1)%nat
  ∧ truncated (classifyTo fromFiles path toNode r) = truncated r.
Proof.
  unfold classifyTo, totalChanges.
  repeat match goal with
         | |- context [match ?x with _ => _ end] => destruct x
         end; simpl; rewrite ?length_app; simpl; split; done || lia.
Qed.

Lemma overLimit_true r :
  overLimit r = true ↔ (MAX_FILES_COMPARE <= totalChanges r)%nat.
Proof. unfold overLimit. apply bool_decide_eq_true. Qed.

Lemma overLimit_false r :
  overLimit r = false ↔ (totalChanges r < MAX_FILES_COMPARE)%nat.
Proof. unfold overLimit. rewrite bool_decide_eq_false. lia. Qed.

Lemma withinLimit_setTruncated r :
  withinLimit r → overLimit r = true → withinLimit (setTruncated r).
Proof.
  intros [Hle _] Hover%overLimit_true. unfold withinLimit, totalChanges in *.
  simpl. split; [done|]. intros _. lia.
Qed.

Lemma scanTo_withinLimit fromFiles entries r :
  withinLimit r → withinLimit (scanTo fromFiles entries r).
Proof.
  revert r. induction entries as [|[path toNode] entries IH]; intros r Hr; [done|].
  simpl. destruct (overLimit r) eqn:Hover.
  - by apply withinLimit_setTruncated.
  - apply IH. apply overLimit_false in Hover.
    destruct (totalChanges_classifyTo fromFiles path toNode r) as [Ht Htr].
    destruct Hr as [Hle Htrunc]. split; [lia|].
    rewrite Htr. intros Htrue. specialize (Htrunc Htrue). lia.
Qed.

Lemma scanFrom_withinLimit toFiles entries r :
  withinLimit r → withinLimit (scanFrom toFiles entries r).
Proof.
  revert r. induction entries as [|[path fromNode] entries IH]; intros r Hr; [done|].
  simpl. destruct (node_type fromNode); [|by apply IH].
  destruct (overLimit r) eqn:Hover; [by apply withinLimit_setTruncated|].
  apply IH. unfold recordRemoved. destruct (negb _); [|done].
  apply overLimit_false in Hover.
  destruct Hr as [Hle Htrunc]. unfold withinLimit, totalChanges in *. simpl.
  rewrite length_app. simpl. split; [lia|].
  intros Htrue. specialize (Htrunc Htrue). lia.
Qed.

Lemma totalChanges_compareFileTrees localeCompare fromTree toTree :
  totalChanges (compareFileTrees localeCompare fromTree toTree)
  = totalChanges
      (scanFrom (flattenTree toTree) (flattenTree fromTree)
         (scanTo (flattenTree fromTree) (flattenTree toTree)
            (mkResult [] [] [] false))).
Proof.
  unfold compareFileTrees, totalChanges. simpl. by rewrite !length_sortWith.
Qed.

Lemma compareFileTrees_withinLimit localeCompare fromTree toTree :
  withinLimit (compareFileTrees localeCompare fromTree toTree).
Proof.
  unfold withinLimit. rewrite totalChanges_compareFileTrees.
  apply scanFrom_withinLimit, scanTo_withinLimit.
  split; [unfold totalChanges, MAX_FILES_COMPARE; simpl; lia|done].
Qed.

(** C10: the changes [compareFileTrees] returns are never more than 1000 in
    all, and they are exactly 1000 whenever [truncated] is set. *)
Theorem C10_total_changes_capped (localeCompare : jsstring → jsstring → Z)
    (fromTree toTree : list PackageFileTree) :
  let r := compareFileTrees localeCompare fromTree toTree in
  (length (added r) + length (removed r) + length (modified r) <= 1000)%nat
  ∧ (truncated r = true →
     (length (added r) + length (removed r) + length (modified r))%nat = 1000%nat).
Proof. apply compareFileTrees_withinLimit. Qed.

(** 1001 files added to an empty tree: the result is truncated. *)
Lemma C10_total_changes_capped_witness :
  let r := compareFileTrees codeUnitComparator [] (manyFiles 1001) in
  truncated r = true
  ∧ (length (added r) + length (removed r) + length (modified r))%nat = 1000%nat.
Proof.
  assert (H : truncated (compareFileTrees codeUnitComparator [] (manyFiles 1001))
              = true) by (vm_compute; reflexivity).
  split; [exact H|].
  exact (proj2 (C10_total_changes_capped codeUnitComparator [] (manyFiles 1001)) H).
Defined.

Lemma firstChangesOf_refl r : firstChangesOf r r.
Proof. by repeat split. Qed.

Lemma firstChangesOf_trans r1 r2 r3 :
  firstChangesOf r1 r2 → firstChangesOf r2 r3 → firstChangesOf r1 r3.
Proof. intros (?&?&?) (?&?&?). repeat split; by etrans. Qed.

Lemma classifyTo_extends fromFiles path toNode r :
  firstChangesOf r (classifyTo fromFiles path toNode r).
Proof.
  unfold classifyTo, firstChangesOf.
  repeat match goal with
         | |- context [match ?x with _ => _ end] => destruct x
         end; simpl; repeat split; done || by apply prefix_app_r.
Qed.

Lemma differencesTo_extends fromFiles entries r :
  firstChangesOf r (differencesTo fromFiles entries r).
Proof.
  unfold differencesTo. revert r.
  induction entries as [|e entries IH]; intros r; simpl.
  - apply firstChangesOf_refl.
  - eapply firstChangesOf_trans; [apply classifyTo_extends|apply IH].
Qed.

(** The first loop finds the first differences, and stops with the limit
    reached when there are more than the limit. *)
Lemma scanTo_differencesTo fromFiles entries r :
  (totalChanges r <= MAX_FILES_COMPARE)%nat →
  firstChangesOf (scanTo fromFiles entries r) (differencesTo fromFiles entries r)
  ∧ ((MAX_FILES_COMPARE < totalChanges (differencesTo fromFiles entries r))%nat →
     totalChanges (scanTo fromFiles entries r) = MAX_FILES_COMPARE
     ∧ truncated (scanTo fromFiles entries r) = true).
Proof.
  revert r. induction entries as [|[path toNode] entries IH]; intros r Hle.
  - simpl. split; [apply firstChangesOf_refl|]. unfold differencesTo. simpl. lia.
  - simpl. destruct (overLimit r) eqn:Hover.
    + apply overLimit_true in Hover. split.
      * exact (differencesTo_extends fromFiles ((path, toNode) :: entries) r).
      * intros _. unfold totalChanges in *. simpl. split; [lia|done].
    + apply overLimit_false in Hover.
      apply IH.
      destruct (totalChanges_classifyTo fromFiles path toNode r) as [Ht _]. lia.
Qed.

Lemma classifyFrom_keeps toFiles path fromNode r :
  added (classifyFrom toFiles path fromNode r) = added r
  ∧ modified (classifyFrom toFiles path fromNode r) = modified r
  ∧ removed r `prefix_of` removed (classifyFrom toFiles path fromNode r).
Proof.
  unfold classifyFrom, recordRemoved.
  destruct (node_type fromNode); [destruct (negb _)|];
    simpl; repeat split; try done.
  by apply prefix_app_r.
Qed.

Lemma differencesFrom_keeps toFiles entries r :
  added (differencesFrom toFiles entries r) = added r
  ∧ modified (differencesFrom toFiles entries r) = modified r
  ∧ removed r `prefix_of` removed (differencesFrom toFiles entries r).
Proof.
  unfold differencesFrom. revert r.
  induction entries as [|e entries IH]; intros r; simpl; [done|].
  destruct (IH (classifyFrom toFiles e.1 e.2 r)) as (-> & -> & Hp).
  destruct (classifyFrom_keeps toFiles e.1 e.2 r) as (-> & -> & Hq).
  repeat split; try done. by etrans.
Qed.

(** Once the limit is reached and recorded, the second loop adds nothing. *)
Lemma scanFrom_over toFiles entries r :
  overLimit r = true → truncated r = true → scanFrom toFiles entries r = r.
Proof.
  intros Hover Htr. induction entries as [|[path fromNode] entries IH]; [done|].
  simpl. destruct (node_type fromNode); [|done].
  rewrite Hover. destruct r. simpl in *. by subst.
Qed.

Lemma prefix_length_take {A} (l k : list A) :
  l `prefix_of` k → l = take (length l) k.
Proof. intros [m ->]. by rewrite take_app_length. Qed.

(** C6: when the differences of two trees are 1001 added files and nothing
    else, [compareFileTrees] returns 1000 changes in all with [truncated]
    set; the changes returned are the first 1000 added files found, in
    sorted order. *)
Theorem C6_truncates_1001_added (localeCompare : jsstring → jsstring → Z)
    (fromTree toTree : list PackageFileTree) :
  length (added (allDifferences fromTree toTree)) = 1001%nat →
  removed (allDifferences fromTree toTree) = [] →
  modified (allDifferences fromTree toTree) = [] →
  let r := compareFileTrees localeCompare fromTree toTree in
  (length (added r) + length (removed r) + length (modified r))%nat = 1000%nat
  ∧ truncated r = true
  ∧ added r ≡ₚ take 1000 (added (allDifferences fromTree toTree))
  ∧ removed r = []
  ∧ modified r = [].
Proof.
  intros Hadd Hrem Hmod r. subst r. unfold allDifferences in *.
  set (fromFiles := flattenTree fromTree) in *.
  set (toFiles := flattenTree toTree) in *.
  set (r0 := mkResult [] [] [] false) in *.
  destruct (differencesFrom_keeps toFiles fromFiles
              (differencesTo fromFiles toFiles r0)) as (Ea & Em & Hp).
  rewrite Ea in *. rewrite Em in Hmod. rewrite Hrem in Hp.
  apply prefix_nil_inv in Hp.
  destruct (scanTo_differencesTo fromFiles toFiles r0) as [Hfirst Hover].
  { unfold totalChanges, MAX_FILES_COMPARE. simpl. lia. }
  destruct Hover as [Htotal Htrunc].
  { unfold totalChanges, MAX_FILES_COMPARE. rewrite Hadd, Hp, Hmod. simpl. lia. }
  set (s := scanTo fromFiles toFiles r0) in *.
  destruct Hfirst as (Pa & Pr & Pm).
  rewrite Hp in Pr. rewrite Hmod in Pm.
  apply prefix_nil_inv in Pr, Pm.
  assert (Hlen : length (added s) = 1000%nat).
  { unfold totalChanges, MAX_FILES_COMPARE in Htotal.
    rewrite Pr, Pm in Htotal. simpl in Htotal. lia. }
  apply prefix_length_take in Pa. rewrite Hlen in Pa.
  assert (Hs : scanFrom toFiles fromFiles s = s).
  { apply scanFrom_over; [|done]. apply overLimit_true. lia. }
  unfold compareFileTrees.
  fold fromFiles toFiles r0 s. rewrite Hs. cbn [added removed modified truncated].
  rewrite !length_sortWith, Pr, Pm, Hlen, <- Pa.
  split_and!; try done. apply sortWith_Permutation.
Qed.

(** 1001 files added to an empty tree. *)
Lemma C6_truncates_1001_added_witness :
  let r := compareFileTrees codeUnitComparator [] (manyFiles 1001) in
  (length (added r) + length (removed r) + length (modified r))%nat = 1000%nat
  ∧ truncated r = true.
Proof.
  intros r.
  destruct (C6_truncates_1001_added codeUnitComparator [] (manyFiles 1001))
    as (Htotal & Htrunc & _).
  - vm_compute. reflexivity.
  - vm_compute. reflexivity.
  - vm_compute. reflexivity.
  - split; [exact Htotal|exact Htrunc].
Defined.

Lemma codeUnitCompare_antisym a b :
  codeUnitCompare b a = CompOpp (codeUnitCompare a b).
Proof.
  revert b. induction a as [|x a IH]; intros [|y b]; simpl; try done.
  rewrite (N.compare_antisym x y).
  destruct (x ?= y)%N; simpl; [apply IH|done..].
Qed.

Lemma codeUnitComparator_total a b :
  codeUnitComparator a b <= 0 ∨ codeUnitComparator b a <= 0.
Proof.
  unfold codeUnitComparator. rewrite (codeUnitCompare_antisym a b).
  destruct (codeUnitCompare a b); simpl; lia.
Qed.

Lemma caseFirstCompare_total a b :
  caseFirstCompare a b <= 0 ∨ caseFirstCompare b a <= 0.
Proof.
  unfold caseFirstCompare.
  rewrite (codeUnitCompare_antisym (map foldCase a) (map foldCase b)).
  rewrite (codeUnitCompare_antisym a b).
  destruct (codeUnitCompare (map foldCase a) (map foldCase b)),
    (codeUnitCompare a b); simpl; lia.
Qed.

(** C8, as the code has it: each of the three lists is sorted by path in
    the order of [localeCompare], the collation of the host, whenever that
    comparison is total, that is whenever of any two paths one may stand
    before the other. *)
Theorem C8_lists_sorted_by_localeCompare
    (localeCompare : jsstring → jsstring → Z)
    (fromTree toTree : list PackageFileTree) :
  (∀ a b, localeCompare a b <= 0 ∨ localeCompare b a <= 0) →
  let r := compareFileTrees localeCompare fromTree toTree in
  Sorted (notAfter (byPath localeCompare)) (added r)
  ∧ Sorted (notAfter (byPath localeCompare)) (removed r)
  ∧ Sorted (notAfter (byPath localeCompare)) (modified r).
Proof.
  intros Htotal r. subst r. unfold compareFileTrees. simpl.
  split_and!; apply Sorted_sortWith; intros x y; apply Htotal.
Qed.

(** Two added files under the code-unit order, which is total. *)
Lemma C8_lists_sorted_by_localeCompare_witness :
  let r := compareFileTrees codeUnitComparator
             [mkNode (lit "old.js") File (Some 1) None None]
             [mkNode (lit "b.js") File (Some 2) None None;
              mkNode (lit "a.js") File (Some 3) None None] in
  map fc_path (added r) = [lit "a.js"; lit "b.js"]
  ∧ Sorted (notAfter (byPath codeUnitComparator)) (added r).
Proof.
  intros r. split; [vm_compute; reflexivity|].
  exact (proj1 (C8_lists_sorted_by_localeCompare codeUnitComparator _ _
                  codeUnitComparator_total)).
Defined.

(** C8 as stated fails: with a collation that puts [a] before [B], as the
    Unicode collation of the hosts does, the added files [B] and [a] come
    back as [a], [B], which is not ascending in code-unit order. *)
Lemma C8_not_code_unit_sorted :
  let r := compareFileTrees caseFirstCompare []
             [mkNode (lit "B") File None None None;
              mkNode (lit "a") File None None None] in
  map fc_path (added r) = [lit "a"; lit "B"]
  ∧ ¬ Sorted (fun x y => codeUnitLe (fc_path x) (fc_path y)) (added r).
Proof.
  intros r. split; [vm_compute; reflexivity|].
  intros H. vm_compute in H.
  inversion H as [|? ? _ Hd]; subst.
  inversion Hd as [|? ? Hle]; subst.
  apply Hle. reflexivity.
Qed.

(** ** Dependency comparator *)

Lemma truthyValue_not_null v : truthyValue v = true → v ≠ None.
Proof. by destruct v. Qed.

(** The two lookups of a name differ exactly when the two maps hold
    different versions for it: what is inherited is the same for both. *)
Lemma getProperty_eq_iff name (fromDeps toDeps : Deps) :
  getProperty name fromDeps = getProperty name toDeps
  ↔ mapGet name fromDeps = mapGet name toDeps.
Proof.
  unfold getProperty.
  destruct (mapGet name fromDeps) as [f|], (mapGet name toDeps) as [t|];
    try case_bool_decide; split; intros E; try done; congruence.
Qed.

Lemma compareName_sound semverDiff fromPkg toPkg section changes name :
  Forall (soundChange fromPkg toPkg) changes →
  Forall (soundChange fromPkg toPkg)
    (compareName semverDiff section (depsOf fromPkg section)
       (depsOf toPkg section) changes name).
Proof.
  intros Hc. unfold compareName.
  case_bool_decide as Hne; [done|].
  apply Forall_app. split; [done|].
  constructor; [|constructor].
  unfold soundChange. simpl. split_and!; try done.
  destruct (truthyValue (getProperty name (depsOf fromPkg section))) eqn:Hf;
    simpl; [|done].
  destruct (truthyValue (getProperty name (depsOf toPkg section))) eqn:Ht;
    simpl; [|done].
  split; by apply truthyValue_not_null.
Qed.

Lemma compareSection_sound semverDiff fromPkg toPkg changes section :
  Forall (soundChange fromPkg toPkg) changes →
  Forall (soundChange fromPkg toPkg)
    (compareSection semverDiff fromPkg toPkg changes section).
Proof.
  unfold compareSection.
  generalize (fold_left setAdd
                (objectKeys (depsOf fromPkg section)
                 ++ objectKeys (depsOf toPkg section)) []).
  intros names. revert changes.
  induction names as [|name names IH]; intros changes Hc; [done|].
  simpl. by apply IH, compareName_sound.
Qed.

Lemma compareSections_sound semverDiff fromPkg toPkg secs changes :
  Forall (soundChange fromPkg toPkg) changes →
  Forall (soundChange fromPkg toPkg)
    (fold_left (compareSection semverDiff fromPkg toPkg) secs changes).
Proof.
  revert changes. induction secs as [|section secs IH]; intros changes Hc; [done|].
  simpl. by apply IH, compareSection_sound.
Qed.

(** C7: every change [compareDependencies] returns has as [from] and [to]
    what the version maps of the two manifests give for its name in its
    section ([null] when they give nothing), and these differ, so no change
    is returned for a package whose from-version and to-version are
    identical or both [null]; a change classified as updated has neither
    [from] nor [to] [null]. *)
Theorem C7_changes_differ_updated_present
    (semverDiff : jsstring → jsstring → SemverOutcome)
    (localeCompare : jsstring → jsstring → Z)
    (fromPkg toPkg : option Manifest) :
  Forall (soundChange fromPkg toPkg)
    (compareDependencies semverDiff localeCompare fromPkg toPkg).
Proof.
  unfold compareDependencies. rewrite sortWith_Permutation.
  by apply compareSections_sound.
Qed.

(** A dependency named like a member of [Object.prototype] that only the
    new manifest holds: the lookup in the old map finds the inherited
    member, so the change is an update whose [from] is that member, without
    a semver bucket. *)
Lemma compareDependencies_inherited_member :
  let toPkg : Manifest := fun s =>
    match s with
    | Dependencies => Some [(lit "constructor", lit "^1.0.0")]
    | _ => None
    end in
  compareDependencies (fun _ _ => SemverReturns (Some (lit "major")))
    codeUnitComparator (Some (fun _ => None)) (Some toPkg)
  = [mkDepChange (lit "constructor") Dependencies
       (Some (Inherited (lit "constructor"))) (Some (Version (lit "^1.0.0")))
       Updated None].
Proof. vm_compute. reflexivity. Qed.

(** * Further properties *)

(** ** Similarity scorer: symmetry and identical strings *)

Lemma mismatches_sym (a b : jsstring) : mismatches a b = mismatches b a.
Proof.
  revert b. induction a as [|x a IH]; intros [|y b]; simpl; try done.
  rewrite IH. repeat case_bool_decide; congruence.
Qed.

Lemma score_spec_sym (a b : jsstring) : score_spec a b = score_spec b a.
Proof.
  unfold score_spec. rewrite (mismatches_sym a b).
  replace (Z.abs (Z.of_nat (length a) - Z.of_nat (length b)))
    with (Z.abs (Z.of_nat (length b) - Z.of_nat (length a))) by lia.
  replace (Z.of_nat (length a) + Z.of_nat (length b))
    with (Z.of_nat (length b) + Z.of_nat (length a)) by lia.
  destruct (decide (a = [] ∧ b = [])) as [Hnil|Hnil].
  - rewrite !bool_decide_eq_true_2; tauto.
  - rewrite !bool_decide_eq_false_2; tauto.
Qed.

(** X1: the change ratio and the similarity test do not depend on the order
    of the two strings. *)
Theorem X1_similarity_symmetric (a b : jsstring) (maxChangeRatio : Q) :
  calculateChangeRatio a b = calculateChangeRatio b a
  ∧ isSimilarEnough a b maxChangeRatio = isSimilarEnough b a maxChangeRatio.
Proof.
  assert (E : calculateChangeRatio a b = calculateChangeRatio b a).
  { by rewrite !calculateChangeRatio_spec, score_spec_sym. }
  split; [done|].
  unfold isSimilarEnough, str_eqb. rewrite E.
  destruct (Qle_bool maxChangeRatio 0); [|done].
  repeat case_bool_decide; congruence.
Qed.

Lemma mismatches_zero (a b : jsstring) :
  mismatches a b + Z.abs (Z.of_nat (length a) - Z.of_nat (length b)) = 0 ↔ a = b.
Proof.
  split.
  - revert b. induction a as [|x a IH]; intros [|y b]; simpl; try lia; [done|].
    pose proof (mismatches_bounds a b) as Hm.
    case_bool_decide as Hxy; [|lia].
    intros Hz. subst y. f_equal. apply IH. lia.
  - intros <-. induction a as [|x a IH]; simpl; [done|].
    rewrite bool_decide_eq_true_2 by done. lia.
Qed.

Lemma calculateChangeRatio_zero_iff (a b : jsstring) :
  (calculateChangeRatio a b == 0)%Q ↔ a = b ∧ a ≠ [].
Proof.
  rewrite calculateChangeRatio_spec. unfold score_spec.
  case_bool_decide as Hnil.
  - destruct Hnil as [-> ->]. split; [discriminate|]. by intros [_ ?].
  - assert (Hpos : 0 < Z.of_nat (length a) + Z.of_nat (length b)).
    { destruct a, b; simpl length; try lia. exfalso. by apply Hnil. }
    set (c := mismatches a b + _). set (t := _ + _) in *.
    assert (Ht : ¬ (inject_Z t == 0)%Q).
    { change 0%Q with (inject_Z 0). rewrite inject_Z_injective. lia. }
    split.
    + intros H. assert (Hc : c = 0).
      { apply inject_Z_injective. change (inject_Z 0) with 0%Q.
        rewrite <- (Qmult_div_r (inject_Z c) (inject_Z t)) by done.
        rewrite H. ring. }
      apply mismatches_zero in Hc. subst b. split; [done|].
      intros ->. by apply Hnil.
    + intros [Hab _]. apply mismatches_zero in Hab. fold c in Hab.
      rewrite Hab. unfold Qdiv. change (inject_Z 0) with 0%Q. ring.
Qed.

(** X2: the change ratio is 0 exactly for two equal strings that are not
    empty; two empty strings have the ratio 1. *)
Theorem X2_ratio_zero_iff_equal (a b : jsstring) :
  ((calculateChangeRatio a b == 0)%Q ↔ a = b ∧ a ≠ [])
  ∧ calculateChangeRatio [] [] = 1%Q.
Proof. split; [apply calculateChangeRatio_zero_iff|reflexivity]. Qed.

Lemma ofQ_zero (x : Q) : (x == 0)%Q → Number.ofQ x = 0%Q.
Proof.
  intros Hx. unfold Qeq in Hx. simpl in Hx.
  assert (Hn : Qnum x = 0) by lia.
  unfold Number.ofQ. by rewrite Hn.
Qed.

Lemma ofQ_one : (Number.ofQ 1 == 1)%Q.
Proof. vm_compute. reflexivity. Qed.

(** X3: a string is similar enough to itself under every threshold, unless
    it is empty: two empty strings are similar only under a threshold that
    is at most 0 or at least 1. *)
Theorem X3_similar_to_itself (a : jsstring) (maxChangeRatio : Q) :
  isSimilarEnough a a maxChangeRatio = true
  ↔ a ≠ [] ∨ (maxChangeRatio <= 0)%Q ∨ (1 <= maxChangeRatio)%Q.
Proof.
  unfold isSimilarEnough, str_eqb.
  destruct (Qle_bool maxChangeRatio 0) eqn:H0.
  { rewrite bool_decide_eq_true_2 by done. apply Qle_bool_iff in H0. tauto. }
  destruct (Qle_bool 1 maxChangeRatio) eqn:H1.
  { apply Qle_bool_iff in H1. tauto. }
  assert (N0 : ¬ (maxChangeRatio <= 0)%Q).
  { intros H. apply Qle_bool_iff in H. congruence. }
  assert (N1 : ¬ (1 <= maxChangeRatio)%Q).
  { intros H. apply Qle_bool_iff in H. congruence. }
  destruct a as [|x a].
  - change (calculateChangeRatio [] []) with 1%Q.
    split; [|intros [?|[?|?]]; done].
    intros Hle. apply Qle_bool_iff in Hle. rewrite ofQ_one in Hle. done.
  - split; [by left|]. intros _. apply Qle_bool_iff.
    assert (Hz : (calculateChangeRatio (x :: a) (x :: a) == 0)%Q).
    { apply calculateChangeRatio_zero_iff. split; [reflexivity|discriminate]. }
    rewrite (ofQ_zero _ Hz).
    apply Qnot_le_lt in N0. by apply Qlt_le_weak.
Qed.

(** The ratio is compared as a double: the ratio [2 / 6] of [abc] and
    [axy] rounds to the double that [0.3333333333333333] writes, which the
    exact quotient exceeds. *)
Lemma isSimilarEnough_rounds_ratio :
  let maxChangeRatio := Number.ofQ (3333333333333333 # 10000000000000000) in
  isSimilarEnough (lit "abc") (lit "axy") maxChangeRatio = true
  ∧ Qle_bool (calculateChangeRatio (lit "abc") (lit "axy")) maxChangeRatio
    = false.
Proof. vm_compute. split; reflexivity. Qed.

(** ** Inline word aligner: tokens, identical lines, coalescing *)

Lemma splitRuns_alternating inWs cur s :
  Forall (fun c => is_space c = inWs) cur →
  (if inWs then cur ≠ [] else True) →
  alternating inWs (splitRuns inWs cur s).
Proof.
  revert inWs cur. induction s as [|c s IH]; intros inWs cur Hcur Hne; simpl.
  - destruct inWs; simpl; repeat split; auto.
  - case_bool_decide as Hc.
    + apply IH.
      * apply Forall_app. split; [done|]. by constructor.
      * destruct inWs; [|done]. by destruct cur.
    + simpl. split_and!; [done..|].
      assert (Hs : is_space c = negb inWs)
        by (destruct (is_space c), inWs; done).
      rewrite Hs. apply IH; [by repeat constructor|].
      by destruct (negb inWs).
Qed.

Lemma splitRuns_length inWs cur s :
  Nat.odd (length (splitRuns inWs cur s)) = negb inWs.
Proof.
  revert inWs cur. induction s as [|c s IH]; intros inWs cur; simpl.
  - by destruct inWs.
  - case_bool_decide as Hc; [apply IH|].
    cbn [length]. rewrite Nat.odd_succ, <- Nat.negb_odd, IH.
    destruct (is_space c), inWs; done.
Qed.

(** X4: splitting a line into words loses no code unit; the tokens are, in
    turn, a run without whitespace and a non-empty run of whitespace, the
    first and the last being runs without whitespace, so their number is
    odd. *)
Theorem X4_splitWords_tokens (s : jsstring) :
  join (splitWords s) = s
  ∧ alternating false (splitWords s)
  ∧ Nat.odd (length (splitWords s)) = true.
Proof.
  split_and!.
  - apply splitWords_join.
  - by apply splitRuns_alternating.
  - apply (splitRuns_length false).
Qed.

Lemma alignLoop_step_eq oldWords newWords st :
  alignLoop oldWords newWords st
  = match alignStep oldWords newWords st with
    | inl st' => alignLoop oldWords newWords st'
    | inr out => out
    end.
Proof.
  funelim (alignLoop oldWords newWords st);
    match goal with
    | E : alignStep _ _ _ = _ |- _ => by rewrite E
    end.
Qed.

Lemma alignLoop_same_words (ws : list jsstring) n : ∀ i v,
  (length ws - i)%nat = n →
  (i <= length ws)%nat →
  alignLoop ws ws (mkAlign [mkSegment v Normal] i i)
  = [mkSegment (v ++ join (drop i ws)) Normal].
Proof.
  induction n as [|n IH]; intros i v Hn Hi.
  - rewrite alignLoop_step_eq. unfold alignStep. simpl.
    rewrite (proj2 (lookup_ge_None ws i)) by lia.
    rewrite drop_ge by lia. simpl. by rewrite app_nil_r.
  - destruct (lookup_lt_is_Some_2 ws i) as [w Hw]; [lia|].
    rewrite alignLoop_step_eq. unfold alignStep. simpl. rewrite Hw.
    unfold str_eqb. rewrite bool_decide_eq_true_2 by done.
    change (extendOrPush Normal [mkSegment v Normal] w)
      with [mkSegment (v ++ w) Normal].
    rewrite IH by lia.
    rewrite (drop_S _ _ _ Hw), Nat.add_1_r. simpl.
    by rewrite <- app_assoc.
Qed.

(** X5: two identical lines align to a single normal segment that holds
    the whole line. *)
Theorem X5_identical_lines_one_segment (content : jsstring)
    (options : ParseOptions) :
  buildInlineDiffSegments content content options = [mkSegment content Normal].
Proof.
  unfold buildInlineDiffSegments.
  pose proof (splitWords_join content) as Hjoin.
  destruct (splitWords content) as [|w ws] eqn:Hws.
  { pose proof (splitRuns_length false [] content) as Hodd.
    fold (splitWords content) in Hodd. by rewrite Hws in Hodd. }
  rewrite alignLoop_step_eq. unfold alignStep. simpl.
  unfold str_eqb. rewrite bool_decide_eq_true_2 by done.
  change (extendOrPush Normal [] w) with [mkSegment w Normal].
  rewrite (alignLoop_same_words (w :: ws) (length ws) 1 w) by (simpl; lia).
  change (drop 1 (w :: ws)) with ws. change (w ++ join ws) with (join (w :: ws)).
  by rewrite Hjoin.
Qed.

Lemma noRepeat_snoc {A} (l : list A) x :
  noRepeat l → last l ≠ Some x → noRepeat (l ++ [x]).
Proof.
  induction l as [|y l IH]; [done|].
  destruct l as [|z l]; simpl in *.
  - intros _ Hne. split; [congruence|done].
  - intros [Hyz Hl] Hlast. split; [done|]. by apply IH.
Qed.

Lemma extendOrPush_types ty segs v :
  map seg_type (extendOrPush ty segs v)
  = if bool_decide (last (map seg_type segs) = Some ty)
    then map seg_type segs
    else map seg_type segs ++ [ty].
Proof.
  destruct segs as [|s0 segs0] using rev_ind; [done|]. clear IHsegs0.
  unfold extendOrPush. rewrite !map_app. simpl. rewrite !last_snoc.
  destruct (decide (seg_type s0 = ty)) as [Hty|Hty].
  - rewrite !bool_decide_eq_true_2 by congruence.
    rewrite length_app. simpl.
    replace (length segs0 + 1 - 1)%nat with (length segs0 + 0)%nat by lia.
    rewrite insert_app_r. simpl. by rewrite map_app.
  - rewrite !bool_decide_eq_false_2 by congruence.
    by rewrite !map_app.
Qed.

Lemma coalesce_noRepeat segs : noRepeat (map seg_type (coalesce segs)).
Proof.
  unfold coalesce.
  enough (H : ∀ merged,
             noRepeat (map seg_type merged) →
             noRepeat
               (map seg_type
                  (fold_left
                     (fun merged seg =>
                        extendOrPush (seg_type seg) merged (seg_value seg))
                     segs merged)))
    by (by apply H).
  induction segs as [|seg segs IH]; intros merged Hm; [done|].
  simpl. apply IH. rewrite extendOrPush_types.
  case_bool_decide as Hlast; [done|]. by apply noRepeat_snoc.
Qed.

(** X6: the segments of the inline aligner are coalesced: no two
    neighbouring segments have the same kind. *)
Theorem X6_segments_coalesced (oldContent newContent : jsstring)
    (options : ParseOptions) :
  noRepeat (map seg_type (buildInlineDiffSegments oldContent newContent options)).
Proof. apply coalesce_noRepeat. Qed.

(** ** Hunk processor: both sides of the text are kept *)

Lemma buildInlineDiffSegments_texts oldContent newContent options :
  oldText (buildInlineDiffSegments oldContent newContent options) = oldContent
  ∧ newText (buildInlineDiffSegments oldContent newContent options) = newContent.
Proof.
  unfold buildInlineDiffSegments.
  destruct (coalesce_texts
              (alignLoop (splitWords oldContent) (splitWords newContent)
                 (mkAlign [] 0 0))) as [-> ->].
  destruct (alignLoop_texts (splitWords oldContent) (splitWords newContent)
              (mkAlign [] 0 0)) as [-> ->].
  { split; reflexivity. }
  by rewrite !splitWords_join.
Qed.

Lemma mergeable_types x y options :
  mergeable x y options = true → rc_type x = Delete ∧ rc_type y = Insert.
Proof.
  unfold mergeable. intros H.
  apply andb_prop in H as [H _]. apply andb_prop in H as [H1 H2].
  by apply bool_decide_eq_true in H1, H2.
Qed.

Lemma changeToLine_sides c :
  oldSideOfLines [changeToLine c] = oldSideOfChanges [c]
  ∧ newSideOfLines [changeToLine c] = newSideOfChanges [c].
Proof.
  unfold oldSideOfLines, newSideOfLines, oldSideOfChanges, newSideOfChanges.
  rewrite !filter_cons, !filter_nil. simpl.
  split; case_decide; simpl; try done;
    unfold oldText, newText, join; simpl; by rewrite app_nil_r.
Qed.

Lemma oldSideOfLines_cons l lines :
  oldSideOfLines (l :: lines) = oldSideOfLines [l] ++ oldSideOfLines lines.
Proof.
  unfold oldSideOfLines. rewrite !filter_cons, filter_nil.
  by case_decide.
Qed.

Lemma newSideOfLines_cons l lines :
  newSideOfLines (l :: lines) = newSideOfLines [l] ++ newSideOfLines lines.
Proof.
  unfold newSideOfLines. rewrite !filter_cons, filter_nil.
  by case_decide.
Qed.

Lemma oldSideOfChanges_cons c changes :
  oldSideOfChanges (c :: changes) = oldSideOfChanges [c] ++ oldSideOfChanges changes.
Proof.
  unfold oldSideOfChanges. rewrite !filter_cons, filter_nil.
  by case_decide.
Qed.

Lemma newSideOfChanges_cons c changes :
  newSideOfChanges (c :: changes) = newSideOfChanges [c] ++ newSideOfChanges changes.
Proof.
  unfold newSideOfChanges. rewrite !filter_cons, filter_nil.
  by case_decide.
Qed.

Lemma mergedLine_sides x y options :
  mergeable x y options = true →
  oldSideOfLines [mergedLine x y options] = oldSideOfChanges [x; y]
  ∧ newSideOfLines [mergedLine x y options] = newSideOfChanges [x; y].
Proof.
  intros [Hx Hy]%mergeable_types.
  destruct (buildInlineDiffSegments_texts (rc_content x) (rc_content y) options)
    as [Ho Hn].
  unfold oldSideOfLines, newSideOfLines, oldSideOfChanges, newSideOfChanges.
  rewrite !filter_cons, !filter_nil. simpl. rewrite Hx, Hy.
  split; repeat case_decide; try done; simpl; by rewrite ?Ho, ?Hn.
Qed.

Lemma unmerged_sides changes :
  oldSideOfLines (map changeToLine changes) = oldSideOfChanges changes
  ∧ newSideOfLines (map changeToLine changes) = newSideOfChanges changes.
Proof.
  induction changes as [|c changes [IHo IHn]]; [done|].
  cbn [map].
  rewrite oldSideOfLines_cons, newSideOfLines_cons, IHo, IHn.
  rewrite (oldSideOfChanges_cons c), (newSideOfChanges_cons c).
  by destruct (changeToLine_sides c) as [-> ->].
Qed.

Lemma mergeSpec_sides options changes :
  oldSideOfLines (mergeSpec options changes) = oldSideOfChanges changes
  ∧ newSideOfLines (mergeSpec options changes) = newSideOfChanges changes.
Proof.
  enough (H : (oldSideOfLines (mergeSpec options changes) = oldSideOfChanges changes
               ∧ newSideOfLines (mergeSpec options changes) = newSideOfChanges changes)
              ∧ ∀ x,
                  oldSideOfLines (mergeSpec options (x :: changes))
                  = oldSideOfChanges (x :: changes)
                  ∧ newSideOfLines (mergeSpec options (x :: changes))
                    = newSideOfChanges (x :: changes))
    by apply H.
  induction changes as [|y changes [[IHo IHn] IH2]].
  - split; [done|]. intros x. apply changeToLine_sides.
  - split; [apply IH2|].
    intros x. rewrite mergeSpec_cons_cons.
    destruct (mergeable x y options) eqn:Hm.
    + rewrite oldSideOfLines_cons, newSideOfLines_cons, IHo, IHn.
      destruct (mergedLine_sides x y options Hm) as [-> ->].
      rewrite (oldSideOfChanges_cons x (y :: changes)),
        (oldSideOfChanges_cons y changes),
        (oldSideOfChanges_cons x [y]).
      rewrite (newSideOfChanges_cons x (y :: changes)),
        (newSideOfChanges_cons y changes),
        (newSideOfChanges_cons x [y]).
      by rewrite <- !app_assoc.
    + destruct (IH2 y) as [Ho Hn].
      rewrite oldSideOfLines_cons, newSideOfLines_cons, Ho, Hn.
      rewrite (oldSideOfChanges_cons x), (newSideOfChanges_cons x).
      by destruct (changeToLine_sides x) as [-> ->].
Qed.

(** X7: processing a hunk keeps both sides of its text, with merging on or
    off: the old texts of the delete and normal lines are the contents of
    the delete and normal raw changes, in order, and the new texts of the
    insert and normal lines are the contents of the insert and normal raw
    changes. *)
Theorem X7_processHunk_keeps_both_sides (raw : RawHunk) (options : ParseOptions) :
  oldSideOfLines (hunk_lines (processHunk raw options))
  = oldSideOfChanges (raw_changes raw)
  ∧ newSideOfLines (hunk_lines (processHunk raw options))
    = newSideOfChanges (raw_changes raw).
Proof.
  unfold processHunk. simpl. destruct (mergeModifiedLines options).
  - rewrite mergeAdjacentLines_spec. apply mergeSpec_sides.
  - apply unmerged_sides.
Qed.

(** ** Unified-diff parser: line numbers *)

Lemma omap_snoc {A B} (f : A → option B) (l : list A) x :
  omap f (l ++ [x]) = omap f l ++ match f x with Some y => [y] | None => [] end.
Proof.
  rewrite omap_app. simpl. by destruct (f x).
Qed.

Lemma countsFrom_nil start : countsFrom start [].
Proof. reflexivity. Qed.

Lemma countsFrom_snoc start numbers :
  countsFrom start numbers →
  countsFrom start (numbers ++ [start + Z.of_nat (length numbers)]).
Proof.
  unfold countsFrom. intros H. rewrite length_app. simpl.
  rewrite Nat.add_1_r, seqZ_S, <- H. done.
Qed.

Lemma mergeSpec_numbers options changes :
  Forall numberedChange changes →
  omap line_oldLineNumber (mergeSpec options changes)
  = omap rc_oldLineNumber changes
  ∧ omap line_newLineNumber (mergeSpec options changes)
    = omap rc_newLineNumber changes.
Proof.
  enough (H : (Forall numberedChange changes →
               omap line_oldLineNumber (mergeSpec options changes)
               = omap rc_oldLineNumber changes
               ∧ omap line_newLineNumber (mergeSpec options changes)
                 = omap rc_newLineNumber changes)
              ∧ ∀ x, Forall numberedChange (x :: changes) →
                     omap line_oldLineNumber (mergeSpec options (x :: changes))
                     = omap rc_oldLineNumber (x :: changes)
                     ∧ omap line_newLineNumber (mergeSpec options (x :: changes))
                       = omap rc_newLineNumber (x :: changes))
    by apply H.
  induction changes as [|y changes [IH1 IH2]].
  - split; [done|]. intros x _. done.
  - split; [apply IH2|].
    intros x Hxy. rewrite mergeSpec_cons_cons.
    inversion Hxy as [|? ? Hx Hy']; subst.
    inversion Hy' as [|? ? Hy Hc]; subst.
    destruct (mergeable x y options) eqn:Hm.
    + apply mergeable_types in Hm as [Tx Ty].
      unfold numberedChange in Hx, Hy. rewrite Tx in Hx. rewrite Ty in Hy.
      destruct Hx as [Hxn Hxl], Hy as [Hyo Hyl].
      destruct (IH1 Hc) as [Eo En].
      cbn [omap list_omap mergedLine line_oldLineNumber line_newLineNumber].
      rewrite Eo, En, Hxl, Hyl, Hxn, Hyo. done.
    + destruct (IH2 y Hy') as [Eo En].
      cbn [omap list_omap changeToLine line_oldLineNumber line_newLineNumber].
      by rewrite Eo, En.
Qed.

Lemma unmerged_numbers changes :
  omap line_oldLineNumber (map changeToLine changes)
  = omap rc_oldLineNumber changes
  ∧ omap line_newLineNumber (map changeToLine changes)
    = omap rc_newLineNumber changes.
Proof.
  induction changes as [|c changes [IHo IHn]]; [done|].
  cbn [map omap list_omap changeToLine line_oldLineNumber line_newLineNumber].
  by rewrite IHo, IHn.
Qed.

Lemma changeToLine_numbered c : numberedChange c → numberedLine (changeToLine c).
Proof. done. Qed.

Lemma mergeSpec_numberedLine options changes :
  Forall numberedChange changes → Forall numberedLine (mergeSpec options changes).
Proof.
  enough (H : (Forall numberedChange changes →
               Forall numberedLine (mergeSpec options changes))
              ∧ ∀ x, Forall numberedChange (x :: changes) →
                     Forall numberedLine (mergeSpec options (x :: changes)))
    by apply H.
  induction changes as [|y changes [IH1 IH2]].
  - split; [done|]. intros x [Hx _]%Forall_cons. by repeat constructor.
  - split; [apply IH2|].
    intros x [Hx Hrest]%Forall_cons. rewrite mergeSpec_cons_cons.
    destruct (mergeable x y options).
    + apply Forall_cons in Hrest as [_ Hc].
      constructor; [done|by apply IH1].
    + constructor; [done|by apply IH2].
Qed.

Lemma processHunk_numbered raw options oldLine newLine :
  rawNumbered raw oldLine newLine → hunkNumbered (processHunk raw options).
Proof.
  intros (Hc & Ho & Hn).
  unfold hunkNumbered, processHunk. simpl.
  destruct (mergeModifiedLines options).
  - rewrite mergeAdjacentLines_spec.
    destruct (mergeSpec_numbers options (raw_changes raw) Hc) as [-> ->].
    split_and!; [by apply mergeSpec_numberedLine|..]; intros Hs.
    + by apply Ho.
    + by apply Hn.
  - destruct (unmerged_numbers (raw_changes raw)) as [-> ->].
    split_and!; [|intros Hs; by apply Ho|intros Hs; by apply Hn].
    apply Forall_fmap. eapply Forall_impl; [exact Hc|].
    intros c. apply changeToLine_numbered.
Qed.

Lemma flushHunk_numbered opts st :
  parserNumbered st →
  Forall (fun f => Forall itemNumbered (hunks f))
    (files st ++ match flushHunk opts st with Some f => [f] | None => [] end).
Proof.
  intros [Hf Hh]. unfold knownFiles, flushHunk in *.
  destruct (currentHunk st) as [h|]; [|done].
  destruct (currentFile st) as [f|]; [|done].
  apply Forall_app in Hf as [Hfs Hcur]. apply Forall_app. split; [done|].
  constructor; [|constructor].
  simpl. apply Forall_app. split; [by inversion Hcur|].
  constructor; [|constructor]. simpl. by eapply processHunk_numbered.
Qed.

(** One more number on a side of a hunk: while the numbers stay line
    numbers the counter is exact, so the new number continues the count
    and the counter moves by one. *)
Lemma countsFrom_push start numbers counter (pushed : option Z) :
  (staysSafe start numbers →
   countsFrom start numbers ∧ counter = start + Z.of_nat (length numbers)) →
  pushed = None ∨ pushed = Some counter →
  let numbers' := numbers ++ match pushed with Some n => [n] | None => [] end in
  staysSafe start numbers' →
  countsFrom start numbers'
  ∧ match pushed with Some _ => Number.add counter 1 | None => counter end
    = start + Z.of_nat (length numbers').
Proof.
  intros IH [->| ->] numbers' Hs; subst numbers'.
  - rewrite app_nil_r in *. by apply IH.
  - destruct Hs as [Hstart Hend]. rewrite length_app in *. simpl in Hend.
    destruct IH as [Hcount ->]; [split; lia|].
    split; [by apply countsFrom_snoc|].
    unfold Number.add. rewrite ofZ_safe by lia. simpl. lia.
Qed.

Lemma pushChange_numbered h c oldLine newLine :
  rawNumbered h oldLine newLine →
  numberedChange c →
  rc_oldLineNumber c = None ∨ rc_oldLineNumber c = Some oldLine →
  rc_newLineNumber c = None ∨ rc_newLineNumber c = Some newLine →
  rawNumbered (pushChange h c)
    (match rc_oldLineNumber c with
     | Some _ => Number.add oldLine 1
     | None => oldLine
     end)
    (match rc_newLineNumber c with
     | Some _ => Number.add newLine 1
     | None => newLine
     end).
Proof.
  intros (Hc & Ho & Hn) Hnum Hold Hnew.
  unfold rawNumbered, pushChange. simpl. rewrite !omap_snoc.
  split_and!.
  - apply Forall_app. split; [done|]. by repeat constructor.
  - by apply countsFrom_push.
  - by apply countsFrom_push.
Qed.

Lemma parseLine_numbered opts st line :
  parserNumbered st → parserNumbered (parseLine opts st line).
Proof.
  intros Hst. pose proof (flushHunk_numbered opts st Hst) as Hflush.
  unfold parseLine.
  destruct (startsWith line (lit "---")).
  { split; [|done]. unfold knownFiles. simpl. done. }
  destruct (startsWith line (lit "+++")).
  { split; [|done]. unfold knownFiles. simpl.
    apply Forall_app. split; [|by repeat constructor].
    destruct (flushHunk opts st); [done|]. by rewrite app_nil_r in Hflush. }
  destruct (matchHunkHeader line) as [[[[g1 g2] g3] g4]|].
  { split; [done|]. simpl. unfold rawNumbered. simpl.
    split_and!; [done|intros _; split; [done|lia]..]. }
  destruct (_ || _); [done|].
  destruct (currentHunk st) as [h|] eqn:Hh; [|done].
  destruct Hst as [Hf Hraw]. rewrite Hh in Hraw.
  destruct (startsWith line (lit "+")).
  { split; [done|]. simpl.
    apply (pushChange_numbered h
             (mkChange Insert (drop 1 line) (Some (newLine st)) None
                (Some (newLine st)) None)); try done; auto. }
  destruct (startsWith line (lit "-")).
  { split; [done|]. simpl.
    apply (pushChange_numbered h
             (mkChange Delete (drop 1 line) (Some (oldLine st))
                (Some (oldLine st)) None None)); try done; auto. }
  destruct (_ || _).
  { split; [done|]. simpl.
    apply (pushChange_numbered h
             (mkChange Normal (drop 1 line) None (Some (oldLine st))
                (Some (newLine st)) (Some true))); try done; auto. }
  split; [done|]. by rewrite Hh.
Qed.

Lemma parseLines_numbered opts lines st :
  parserNumbered st → parserNumbered (fold_left (parseLine opts) lines st).
Proof.
  revert st. induction lines as [|line lines IH]; intros st Hst; [done|].
  simpl. by apply IH, parseLine_numbered.
Qed.

Lemma deriveType_hunks f : hunks (deriveType f) = hunks f.
Proof. reflexivity. Qed.

Lemma parseUnifiedDiffWith_numbered opts diffText :
  Forall (fun f => Forall itemNumbered (hunks f))
    (parseUnifiedDiffWith opts diffText).
Proof.
  unfold parseUnifiedDiffWith.
  set (st := fold_left _ _ _).
  assert (Hst : parserNumbered st).
  { apply parseLines_numbered. split; [|done]. by unfold knownFiles. }
  apply flushHunk_numbered with (opts := opts) in Hst.
  apply Forall_fmap. destruct (flushHunk opts st);
    [|rewrite app_nil_r in Hst]; eapply Forall_impl; eauto.
Qed.

(** X8: in every file of a parsed diff every item is a hunk (the parser
    emits no skip block), and in every hunk an insert line has no old
    number and a delete line no new number.  Whether similar lines were
    merged or not, the old line numbers of the lines of a hunk count up
    from [oldStart] without a gap when [oldStart] is not negative and
    [oldStart] plus their count is at most [Number.MAX_SAFE_INTEGER], and
    the new line numbers count up from [newStart] likewise. *)
Theorem X8_parsed_hunks_numbered (opts : ParseOptions) (diffText : jsstring) :
  Forall
    (fun f =>
       Forall
         (fun item =>
            match item with
            | IsHunk h =>
                let olds := omap line_oldLineNumber (hunk_lines h) in
                let news := omap line_newLineNumber (hunk_lines h) in
                Forall numberedLine (hunk_lines h)
                ∧ (0 <= hunk_oldStart h
                   ∧ hunk_oldStart h + Z.of_nat (length olds)
                     <= Number.MAX_SAFE_INTEGER →
                   olds = seqZ (hunk_oldStart h) (Z.of_nat (length olds)))
                ∧ (0 <= hunk_newStart h
                   ∧ hunk_newStart h + Z.of_nat (length news)
                     <= Number.MAX_SAFE_INTEGER →
                   news = seqZ (hunk_newStart h) (Z.of_nat (length news)))
            | IsSkip _ => False
            end)
         (hunks f))
    (parseUnifiedDiffWith opts diffText).
Proof.
  eapply Forall_impl; [apply parseUnifiedDiffWith_numbered|].
  intros f Hf. eapply Forall_impl; [exact Hf|].
  by intros [h|s].
Qed.

(** A diff of two files.  The first hunk of the first file has context
    around a changed line that is merged; the second has an insert after a
    delete that is not similar; the hunk of the second file leaves the
    lengths out. *)
Lemma parsed_hunks_numbered_example :
  let diffText :=
    lit "--- a/foo.js" ++ [10%N] ++ lit "+++ b/foo.js" ++ [10%N]
    ++ lit "@@ -7,3 +7,3 @@" ++ [10%N] ++ lit " first" ++ [10%N]
    ++ lit "-a b c" ++ [10%N] ++ lit "+a x c" ++ [10%N] ++ lit " last" ++ [10%N]
    ++ lit "@@ -40,2 +40,2 @@" ++ [10%N] ++ lit "-gone" ++ [10%N]
    ++ lit "+something else entirely" ++ [10%N] ++ lit " kept" ++ [10%N]
    ++ lit "--- a/bar.js" ++ [10%N] ++ lit "+++ b/bar.js" ++ [10%N]
    ++ lit "@@ -9007199254740000 +3 @@" ++ [10%N] ++ lit "-x" ++ [10%N]
    ++ lit "+a longer line that differs" in
  map (fun f =>
         map (fun item =>
                match item with
                | IsHunk h => (omap line_oldLineNumber (hunk_lines h),
                               omap line_newLineNumber (hunk_lines h))
                | IsSkip _ => ([], [])
                end) (hunks f))
    (parseUnifiedDiff diffText)
  = [[([7; 8; 9], [7; 8; 9]); ([40; 41], [40; 41])];
     [([9007199254740000], [3])]].
Proof. vm_compute. reflexivity. Qed.

(** Past [Number.MAX_SAFE_INTEGER] the start of a hunk is the double
    nearest to the number written and the counter no longer moves: two
    deleted lines carry the same number. *)
Lemma parseUnifiedDiff_past_safe :
  let diffText :=
    lit "--- a/foo.js" ++ [10%N] ++ lit "+++ b/foo.js" ++ [10%N]
    ++ lit "@@ -9007199254740993 +1 @@" ++ [10%N] ++ lit "-x" ++ [10%N]
    ++ lit "-y" in
  map (fun f =>
         map (fun item =>
                match item with
                | IsHunk h => (hunk_oldStart h,
                               omap line_oldLineNumber (hunk_lines h))
                | IsSkip _ => (0, [])
                end) (hunks f))
    (parseUnifiedDiff diffText)
  = [[(9007199254740992, [9007199254740992; 9007199254740992])]].
Proof. vm_compute. reflexivity. Qed.

(** ** Skip blocks and stats together *)

Lemma countKind_skipFrom k cursor hunks :
  countKind k (skipFrom cursor hunks) = countKind k (map IsHunk hunks).
Proof.
  revert cursor. induction hunks as [|h hunks IH]; intros cursor; [done|].
  cbn [skipFrom map]. case_bool_decide; cbn [countKind]; by rewrite IH.
Qed.

Lemma countKind_hunks_only k items :
  countKind k (map IsHunk (omap asHunk items)) = countKind k items.
Proof.
  induction items as [|[h|s] items IH]; [done|..].
  - change (omap asHunk (IsHunk h :: items)) with (h :: omap asHunk items).
    cbn [map countKind]. by rewrite IH.
  - change (omap asHunk (IsSkip s :: items)) with (omap asHunk items).
    cbn [countKind]. by rewrite IH.
Qed.

(** X9: skip blocks do not change the stats: the stats of a hunk list with
    its skip blocks inserted are the stats of the hunks alone, and the
    stats the file-diff endpoint reports for a diff are the stats of the
    items of that diff. *)
Theorem X9_skip_blocks_keep_stats (hunkList : list DiffHunk) (diff : FileDiff) :
  countDiffStats (insertSkipBlocks hunkList) = countDiffStats (map IsHunk hunkList)
  ∧ responseStats diff = countDiffStats (hunks diff).
Proof.
  unfold responseStats, responseHunks, insertSkipBlocks.
  rewrite !insertSkipBlocks_from, !countDiffStats_spec. simpl.
  by rewrite !countKind_skipFrom, !countKind_hunks_only.
Qed.

Lemma skipSpec_span cursor hunks :
  inOrderFrom cursor hunks →
  hiddenLines (skipSpec cursor hunks) + shownLines (skipSpec cursor hunks)
  = endOfHunks cursor hunks - cursor.
Proof.
  revert cursor. induction hunks as [|h hunks IH]; intros cursor.
  - intros _. unfold endOfHunks. simpl. lia.
  - intros (Hstart & Hlen & Hrest). cbn [skipSpec].
    rewrite Z.max_l by lia. specialize (IH _ Hrest).
    assert (Hend : endOfHunks cursor (h :: hunks)
                   = endOfHunks (hunk_oldStart h + hunk_oldLines h) hunks).
    { unfold endOfHunks. destruct hunks as [|h' hunks]; [done|].
      rewrite last_cons_cons.
      destruct (last (h' :: hunks)) eqn:E; [done|].
      by apply last_None in E. }
    rewrite Hend.
    case_bool_decide; cbn [hiddenLines shownLines skip_count]; lia.
Qed.

Lemma endOfHunks_cons cursor h hunks :
  endOfHunks cursor (h :: hunks)
  = endOfHunks (hunk_oldStart h + hunk_oldLines h) hunks.
Proof.
  unfold endOfHunks. destruct hunks as [|h' hunks]; [done|].
  rewrite last_cons_cons.
  destruct (last (h' :: hunks)) eqn:E; [done|].
  by apply last_None in E.
Qed.

Lemma inOrderFrom_end cursor hunks :
  inOrderFrom cursor hunks → cursor <= endOfHunks cursor hunks.
Proof.
  revert cursor. induction hunks as [|h hunks IH]; intros cursor.
  - intros _. unfold endOfHunks. simpl. lia.
  - intros (Hstart & Hlen & Hrest). rewrite endOfHunks_cons.
    specialize (IH _ Hrest). lia.
Qed.

(** Hunks in order that end on a line number are hunks of line numbers. *)
Lemma inOrderFrom_safe cursor hunks :
  0 <= cursor →
  inOrderFrom cursor hunks →
  endOfHunks cursor hunks <= Number.MAX_SAFE_INTEGER →
  Forall safeHunk hunks.
Proof.
  revert cursor. induction hunks as [|h hunks IH]; intros cursor Hc; [done|].
  intros (Hstart & Hlen & Hrest). rewrite endOfHunks_cons. intros Hend.
  pose proof (inOrderFrom_end _ _ Hrest) as Hle.
  constructor; [unfold safeHunk; lia|].
  apply (IH (hunk_oldStart h + hunk_oldLines h)); [lia|done..].
Qed.

(** X10: for hunks that follow each other from line 1 on without overlap
    and end at a line that is at most [Number.MAX_SAFE_INTEGER], the lines
    hidden by the skip blocks and the lines of the hunks add up to the
    old-file lines before the end of the last hunk. *)
Theorem X10_skip_blocks_cover_span (hunkList : list DiffHunk) :
  inOrderFrom 1 hunkList →
  endOfHunks 1 hunkList <= Number.MAX_SAFE_INTEGER →
  hiddenLines (insertSkipBlocks hunkList) + shownLines (insertSkipBlocks hunkList)
  = endOfHunks 1 hunkList - 1.
Proof.
  intros Horder Hend. rewrite insertSkipBlocks_skipFrom.
  rewrite skipFrom_spec.
  - by apply skipSpec_span.
  - unfold Number.MAX_SAFE_INTEGER. lia.
  - by apply (inOrderFrom_safe 1).
Qed.

(** Two hunks, at the lines 10 to 14 and 20 to 22: 9 and 5 lines are
    hidden, 8 are shown, 22 lines in all. *)
Lemma X10_skip_blocks_cover_span_witness :
  let hunkList := [mkHunk [] 10 5 10 5 []; mkHunk [] 20 3 20 3 []] in
  hiddenLines (insertSkipBlocks hunkList) = 14
  ∧ hiddenLines (insertSkipBlocks hunkList) + shownLines (insertSkipBlocks hunkList)
    = 22.
Proof.
  intros hunkList. split; [reflexivity|].
  apply (X10_skip_blocks_cover_span hunkList).
  - simpl. lia.
  - vm_compute. discriminate.
Defined.

(** ** Maps in insertion order *)

Lemma mapGet_mapSet_eq {V} k (v : V) m : mapGet k (mapSet k v m) = Some v.
Proof.
  induction m as [|[k' v'] m IH]; simpl.
  - by rewrite bool_decide_eq_true_2.
  - case_bool_decide as Hk; simpl.
    + by rewrite bool_decide_eq_true_2.
    + by rewrite bool_decide_eq_false_2.
Qed.

Lemma mapGet_mapSet_ne {V} k k' (v : V) m :
  k ≠ k' → mapGet k' (mapSet k v m) = mapGet k' m.
Proof.
  intros Hne. induction m as [|[k0 v0] m IH]; simpl.
  - by rewrite bool_decide_eq_false_2.
  - case_bool_decide as Hk; simpl.
    + subst k0. by rewrite !bool_decide_eq_false_2.
    + case_bool_decide; [done|apply IH].
Qed.

Lemma mapSet_keys {V} k (v : V) m :
  map fst (mapSet k v m)
  = if bool_decide (k ∈ map fst m) then map fst m else map fst m ++ [k].
Proof.
  induction m as [|[k' v'] m IH]; simpl; [done|].
  destruct (decide (k' = k)) as [->|Hk].
  - rewrite (bool_decide_eq_true_2 (k = k)) by done. simpl.
    rewrite bool_decide_eq_true_2; [done|]. by left.
  - rewrite (bool_decide_eq_false_2 (k' = k)) by done. simpl.
    rewrite IH. destruct (decide (k ∈ map fst m)) as [Hin|Hin].
    + rewrite !bool_decide_eq_true_2; [done|by right|done].
    + rewrite !bool_decide_eq_false_2; [done| |done].
      intros [?|?]%elem_of_cons; congruence.
Qed.

Lemma mapSet_NoDup {V} k (v : V) m :
  NoDup (map fst m) → NoDup (map fst (mapSet k v m)).
Proof.
  intros Hm. rewrite mapSet_keys. case_bool_decide as Hin; [done|].
  apply NoDup_app. split_and!; [done| |apply NoDup_singleton].
  intros x Hx ->%list_elem_of_singleton. done.
Qed.

Lemma mapGet_Some_elem {V} k (v : V) m :
  mapGet k m = Some v → (k, v) ∈ m.
Proof.
  induction m as [|[k' v'] m IH]; simpl; [done|].
  case_bool_decide as Hk.
  - intros [= ->]. subst. by left.
  - intros H. right. by apply IH.
Qed.

Lemma mapGet_elem {V} k (v : V) m :
  NoDup (map fst m) → (k, v) ∈ m → mapGet k m = Some v.
Proof.
  induction m as [|[k' v'] m IH]; simpl; [by intros _ ?%elem_of_nil|].
  intros [Hk' Hm]%NoDup_cons [[= -> ->]|Hin]%elem_of_cons.
  - by rewrite bool_decide_eq_true_2.
  - rewrite bool_decide_eq_false_2; [by apply IH|].
    intros ->. apply Hk'. apply list_elem_of_fmap. by exists (k, v).
Qed.

Lemma mapHas_keys {V} k (m : JsMap V) : mapHas k m = true ↔ k ∈ map fst m.
Proof.
  unfold mapHas. induction m as [|[k' v'] m IH]; simpl.
  - split; [done|by intros ?%elem_of_nil].
  - case_bool_decide as Hk.
    + subst. split; [by left|done].
    + rewrite IH. split; [by right|].
      intros [?|?]%elem_of_cons; congruence.
Qed.

(** ** Flattening a tree *)

Lemma tree_ind (P : PackageFileTree → Prop) :
  (∀ path type size hash children,
     match children with
     | Some cs => Forall P cs
     | None => True
     end →
     P (mkNode path type size hash children)) →
  ∀ node, P node.
Proof.
  intros H. fix IH 1. intros [path type size hash [cs|]]; apply H; [|done].
  revert cs. fix IHcs 1. intros [|c cs]; constructor; [apply IH|apply IHcs].
Qed.

Lemma traverseNode_eq node result :
  traverseNode node result
  = let result := mapSet (node_path node) node result in
    match node_children node with
    | Some children => traverse children result
    | None => result
    end.
Proof.
  destruct node as [path type size hash [cs|]]; [|done].
  cbn [traverseNode node_children node_path]. cbv zeta.
  generalize (mapSet path (mkNode path type size hash (Some cs)) result).
  unfold traverse. induction cs as [|c cs IH]; intros r; [done|].
  simpl. apply IH.
Qed.

Lemma nodesOf_eq node :
  nodesOf node
  = node :: match node_children node with
            | Some children => treeNodes children
            | None => []
            end.
Proof.
  destruct node as [path type size hash [cs|]]; [|done].
  cbn [nodesOf node_children]. f_equal.
Qed.

Lemma lastWithPath_app p l1 l2 :
  lastWithPath p (l1 ++ l2)
  = match lastWithPath p l2 with
    | Some n => Some n
    | None => lastWithPath p l1
    end.
Proof.
  unfold lastWithPath. rewrite filter_app.
  destruct (filter _ l2) as [|x l] using rev_ind; simpl.
  - by rewrite app_nil_r.
  - by rewrite app_assoc, !last_snoc.
Qed.

Lemma traverseNode_get p node : ∀ result,
  mapGet p (traverseNode node result)
  = match lastWithPath p (nodesOf node) with
    | Some n => Some n
    | None => mapGet p result
    end.
Proof.
  induction node as [path type size hash children IH] using tree_ind.
  intros result. rewrite traverseNode_eq, nodesOf_eq.
  cbn [node_children node_path]. cbv zeta.
  set (node := mkNode path type size hash children).
  change (node :: ?l) with ([node] ++ l). rewrite lastWithPath_app.
  assert (Hhead : match lastWithPath p [node] with
                  | Some n => Some n
                  | None => mapGet p result
                  end = mapGet p (mapSet path node result)).
  { unfold lastWithPath. rewrite filter_cons, filter_nil. simpl.
    case_decide as Hp.
    - subst p. simpl. by rewrite mapGet_mapSet_eq.
    - simpl. by rewrite mapGet_mapSet_ne. }
  destruct children as [cs|].
  - enough (H : ∀ r0, mapGet p (traverse cs r0)
                      = match lastWithPath p (treeNodes cs) with
                        | Some n => Some n
                        | None => mapGet p r0
                        end).
    { rewrite H. destruct (lastWithPath p (treeNodes cs)); [done|].
      by rewrite <- Hhead. }
    clear Hhead node.
    induction cs as [|c cs IHcs]; intros r0; [done|].
    apply Forall_cons in IH as [Hc Hcs].
    unfold traverse, treeNodes in *. simpl.
    rewrite lastWithPath_app, (IHcs Hcs), Hc.
    by destruct (lastWithPath p (flat_map nodesOf cs)).
  - simpl. change (lastWithPath p []) with (@None PackageFileTree).
    by rewrite <- Hhead.
Qed.

Lemma traverse_get p nodes : ∀ result,
  mapGet p (traverse nodes result)
  = match lastWithPath p (treeNodes nodes) with
    | Some n => Some n
    | None => mapGet p result
    end.
Proof.
  induction nodes as [|c cs IH]; intros result; [done|].
  unfold traverse, treeNodes in *. simpl.
  rewrite lastWithPath_app, IH, traverseNode_get.
  by destruct (lastWithPath p (flat_map nodesOf cs)).
Qed.

Lemma traverseNode_NoDup node : ∀ result,
  NoDup (map fst result) → NoDup (map fst (traverseNode node result)).
Proof.
  induction node as [path type size hash children IH] using tree_ind.
  intros result Hr. rewrite traverseNode_eq.
  cbn [node_children node_path]. cbv zeta.
  set (node := mkNode path type size hash children).
  pose proof (mapSet_NoDup path node result Hr) as Hset.
  destruct children as [cs|]; [|done].
  generalize dependent (mapSet path node result). clear result Hr.
  induction cs as [|c cs IHcs]; intros r Hr; [done|].
  apply Forall_cons in IH as [Hc Hcs].
  unfold traverse in *. simpl. apply (IHcs Hcs). by apply Hc.
Qed.

Lemma flattenTree_NoDup tree : NoDup (map fst (flattenTree tree)).
Proof.
  unfold flattenTree, traverse.
  assert (H : NoDup (map fst (@nil (jsstring * PackageFileTree))))
    by constructor.
  revert H. generalize (@nil (jsstring * PackageFileTree)).
  induction tree as [|n tree IH]; intros r Hr; [done|].
  simpl. apply IH. by apply traverseNode_NoDup.
Qed.

(** X11: [flattenTree] gives a map with one entry for each path of the
    tree: the keys are distinct, and the node of a path is the last node
    with that path in the order the tree is visited (a node before its
    children), a path of no node having no entry. *)
Theorem X11_flattenTree_last_node_wins (tree : list PackageFileTree)
    (p : jsstring) :
  NoDup (map fst (flattenTree tree))
  ∧ mapGet p (flattenTree tree) = lastWithPath p (treeNodes tree).
Proof.
  split; [apply flattenTree_NoDup|].
  unfold flattenTree. rewrite traverse_get.
  by destruct (lastWithPath p (treeNodes tree)).
Qed.

(** ** File-tree comparator: identical trees, distinct paths *)

Lemma hasChanged_same node : hasChanged node node = false.
Proof.
  unfold hasChanged.
  destruct (truthy (node_hash node)); simpl.
  - by rewrite bool_decide_eq_true_2.
  - destruct (node_size node); [|done]. by rewrite bool_decide_eq_true_2.
Qed.

Lemma classifyTo_same files path node r :
  mapGet path files = Some node → classifyTo files path node r = r.
Proof.
  intros Hget. unfold classifyTo. rewrite Hget.
  destruct (node_type node); [|done]. by rewrite hasChanged_same.
Qed.

Lemma scanTo_same files entries :
  Forall (fun e => mapGet e.1 files = Some e.2) entries →
  scanTo files entries noChanges = noChanges.
Proof.
  induction entries as [|[path node] entries IH]; [done|].
  intros [Hget Hrest]%Forall_cons. simpl in *.
  change (overLimit noChanges) with false. cbv iota.
  rewrite classifyTo_same by done. by apply IH.
Qed.

Lemma scanFrom_same files entries :
  Forall (fun e => mapGet e.1 files = Some e.2) entries →
  scanFrom files entries noChanges = noChanges.
Proof.
  induction entries as [|[path node] entries IH]; [done|].
  intros [Hget Hrest]%Forall_cons. simpl in *.
  destruct (node_type node); [|by apply IH].
  change (overLimit noChanges) with false. cbv iota.
  unfold recordRemoved, mapHas. rewrite Hget. simpl. by apply IH.
Qed.

Lemma entries_mapGet {V} (m : JsMap V) :
  NoDup (map fst m) → Forall (fun e => mapGet e.1 m = Some e.2) m.
Proof.
  intros Hm. apply Forall_forall. intros [k v] Hin. by apply mapGet_elem.
Qed.

(** X12: a tree compared with itself has no change and is not truncated,
    however many files it holds. *)
Theorem X12_same_tree_no_changes (localeCompare : jsstring → jsstring → Z)
    (tree : list PackageFileTree) :
  compareFileTrees localeCompare tree tree = noChanges.
Proof.
  unfold compareFileTrees.
  pose proof (entries_mapGet (flattenTree tree) (flattenTree_NoDup tree)) as H.
  fold noChanges. rewrite (scanTo_same _ _ H), (scanFrom_same _ _ H). done.
Qed.

Lemma changedPaths_pushAdded c r :
  changedPaths (pushAdded c r) ≡ₚ fc_path c :: changedPaths r.
Proof.
  unfold changedPaths, pushAdded. simpl. rewrite <- !app_assoc, !map_app. simpl.
  symmetry. by apply Permutation_cons_app.
Qed.

Lemma changedPaths_pushRemoved c r :
  changedPaths (pushRemoved c r) ≡ₚ fc_path c :: changedPaths r.
Proof.
  unfold changedPaths, pushRemoved. simpl. rewrite <- !app_assoc, !map_app. simpl.
  rewrite !app_assoc. symmetry. by apply Permutation_cons_app.
Qed.

Lemma changedPaths_pushModified c r :
  changedPaths (pushModified c r) ≡ₚ fc_path c :: changedPaths r.
Proof.
  unfold changedPaths, pushModified. simpl. rewrite !app_assoc, !map_app. simpl.
  symmetry. apply Permutation_cons_app. by rewrite app_nil_r.
Qed.

(** One step of the first loop adds at most the path of its entry. *)
Lemma classifyTo_paths fromFiles path toNode r :
  changedPaths (classifyTo fromFiles path toNode r) ≡ₚ changedPaths r
  ∨ changedPaths (classifyTo fromFiles path toNode r) ≡ₚ path :: changedPaths r.
Proof.
  unfold classifyTo.
  repeat match goal with
         | |- context [match ?x with _ => _ end] => destruct x
         end; auto; right.
  - apply (changedPaths_pushModified (mkFileChange path Modified _ _)).
  - apply (changedPaths_pushAdded (mkFileChange path Added _ _)).
  - apply (changedPaths_pushAdded (mkFileChange path Added _ _)).
  - apply (changedPaths_pushRemoved (mkFileChange path Removed _ _)).
Qed.

Lemma scanTo_paths fromFiles entries : ∀ r,
  NoDup (map fst entries) →
  NoDup (changedPaths r) →
  (∀ p, p ∈ changedPaths r → p ∉ map fst entries) →
  NoDup (changedPaths (scanTo fromFiles entries r))
  ∧ ∀ p, p ∈ changedPaths (scanTo fromFiles entries r) →
         p ∈ changedPaths r ∨ p ∈ map fst entries.
Proof.
  induction entries as [|[path toNode] entries IH]; intros r Hkeys Hr Hfresh.
  - simpl. split; [done|]. auto.
  - simpl in *. apply NoDup_cons in Hkeys as [Hpath Hkeys].
    destruct (overLimit r); [split; [done|]; auto|].
    set (r' := classifyTo fromFiles path toNode r).
    assert (Hr' : NoDup (changedPaths r')
                  ∧ ∀ p, p ∈ changedPaths r' → p ∈ changedPaths r ∨ p = path).
    { destruct (classifyTo_paths fromFiles path toNode r) as [E|E]; fold r' in E.
      - split; [by rewrite E|]. intros p Hp. rewrite E in Hp. auto.
      - split.
        + rewrite E. apply NoDup_cons. split; [|done].
          intros Hin. apply (Hfresh _ Hin). by left.
        + intros p Hp. rewrite E in Hp.
          apply elem_of_cons in Hp as [->|?]; auto. }
    destruct Hr' as [Hnd Hsub].
    destruct (IH r') as [IHnd IHsub]; [done..| |].
    { intros p Hp Hin. destruct (Hsub p Hp) as [Hold| ->]; [|done].
      apply (Hfresh _ Hold). by right. }
    split; [done|].
    intros p Hp. destruct (IHsub p Hp) as [Hp'|Hp'].
    + destruct (Hsub p Hp') as [?| ->]; [by left|]. right. by left.
    + right. by right.
Qed.

Lemma scanFrom_paths toFiles entries : ∀ r,
  NoDup (map fst entries) →
  NoDup (changedPaths r) →
  (∀ p, p ∈ changedPaths r → p ∈ map fst toFiles ∨ p ∉ map fst entries) →
  NoDup (changedPaths (scanFrom toFiles entries r)).
Proof.
  induction entries as [|[path fromNode] entries IH]; intros r Hkeys Hr Hfresh;
    [done|].
  simpl in *. apply NoDup_cons in Hkeys as [Hpath Hkeys].
  assert (Hkeep : ∀ p, p ∈ changedPaths r →
                       p ∈ map fst toFiles ∨ p ∉ map fst entries).
  { intros p Hp. destruct (Hfresh p Hp) as [?|Hn]; [by left|].
    right. intros Hin. apply Hn. by right. }
  destruct (node_type fromNode); [|by apply IH].
  destruct (overLimit r); [done|].
  unfold recordRemoved. destruct (mapHas path toFiles) eqn:Hhas; simpl;
    [by apply IH|].
  assert (Hnot : path ∉ map fst toFiles).
  { intros Hin. apply mapHas_keys in Hin. congruence. }
  apply IH; [done| |].
  - rewrite changedPaths_pushRemoved. simpl. apply NoDup_cons. split; [|done].
    intros Hin. destruct (Hfresh _ Hin) as [?|Hn]; [done|]. apply Hn. by left.
  - intros p. rewrite changedPaths_pushRemoved. simpl.
    intros [->|Hp]%elem_of_cons; [by right|]. by apply Hkeep.
Qed.

(** X13: no path is reported twice: the paths of the added, the removed and
    the modified files of a comparison are all distinct. *)
Theorem X13_changed_paths_distinct (localeCompare : jsstring → jsstring → Z)
    (fromTree toTree : list PackageFileTree) :
  NoDup (changedPaths (compareFileTrees localeCompare fromTree toTree)).
Proof.
  unfold compareFileTrees.
  set (fromFiles := flattenTree fromTree).
  set (toFiles := flattenTree toTree).
  set (r1 := scanTo fromFiles toFiles (mkResult [] [] [] false)).
  set (r2 := scanFrom toFiles fromFiles r1).
  assert (Hperm : changedPaths
                    {| added := sortWith (byPath localeCompare) (added r2);
                       removed := sortWith (byPath localeCompare) (removed r2);
                       modified := sortWith (byPath localeCompare) (modified r2);
                       truncated := truncated r2 |}
                  ≡ₚ changedPaths r2).
  { unfold changedPaths. simpl. by rewrite !sortWith_Permutation. }
  rewrite Hperm.
  destruct (scanTo_paths fromFiles toFiles (mkResult [] [] [] false))
    as [Hnd Hsub].
  { apply flattenTree_NoDup. }
  { constructor. }
  { by intros p ?%elem_of_nil. }
  apply scanFrom_paths; [apply flattenTree_NoDup|done|].
  intros p Hp. left. destruct (Hsub p Hp) as [?%elem_of_nil|?]; done.
Qed.

(** ** Counting files and the compare response *)

Lemma fileNodes_app l1 l2 : fileNodes (l1 ++ l2) = fileNodes l1 ++ fileNodes l2.
Proof. apply filter_app. Qed.

Lemma countNode_spec node : ∀ count,
  countNode node count = count + Z.of_nat (length (fileNodes (nodesOf node))).
Proof.
  induction node as [path type size hash children IH] using tree_ind.
  intros count. rewrite nodesOf_eq. cbn [node_children].
  set (node := mkNode path type size hash children).
  change (node :: ?l) with ([node] ++ l). rewrite fileNodes_app, length_app.
  assert (Hhead : match type with File => count + 1 | Directory => count end
                  = count + Z.of_nat (length (fileNodes [node]))).
  { unfold fileNodes. rewrite filter_cons, filter_nil. simpl.
    destruct type; case_decide; simpl; try done; lia. }
  destruct children as [cs|].
  - assert (H : ∀ c,
               (fix traverse (nodes : list PackageFileTree) (count : Z) : Z :=
                  match nodes with
                  | [] => count
                  | n :: nodes' => traverse nodes' (countNode n count)
                  end) cs c
               = c + Z.of_nat (length (fileNodes (treeNodes cs)))).
    { clear Hhead node.
      induction cs as [|c cs IHcs]; intros c1; [simpl; lia|].
      apply Forall_cons in IH as [Hc Hcs].
      unfold treeNodes in *. simpl. rewrite (IHcs Hcs), Hc.
      rewrite fileNodes_app, length_app. lia. }
    cbn [countNode node_children node_type node]. cbv zeta.
    rewrite H, Hhead. lia.
  - cbn [countNode node_children node_type node]. cbv zeta. rewrite Hhead.
    simpl. lia.
Qed.

Lemma countFiles_spec tree :
  countFiles tree = Z.of_nat (length (fileNodes (treeNodes tree))).
Proof.
  unfold countFiles.
  enough (H : ∀ c, fold_left (fun count n => countNode n count) tree c
                   = c + Z.of_nat (length (fileNodes (treeNodes tree))))
    by (rewrite H; lia).
  induction tree as [|n tree IH]; intros c; [simpl; lia|].
  unfold treeNodes in *. simpl.
  rewrite IH, countNode_spec, fileNodes_app, length_app. lia.
Qed.

Lemma mapSet_fileKeys k node m :
  (length (fileKeys (mapSet k node m))
   <= length (fileKeys m) + length (fileNodes [node]))%nat.
Proof.
  unfold fileKeys, fileNodes. rewrite !length_map.
  induction m as [|[k' v'] m IH]; simpl.
  - rewrite !filter_cons, !filter_nil. simpl.
    repeat case_decide; simpl; done || lia.
  - case_bool_decide as Hk.
    + rewrite !filter_cons, filter_nil. simpl.
      repeat case_decide; simpl; lia.
    + rewrite !filter_cons in *. rewrite filter_nil in *. simpl in *.
      repeat case_decide; simpl in *; lia.
Qed.

Lemma traverseNode_fileKeys node : ∀ result,
  (length (fileKeys (traverseNode node result))
   <= length (fileKeys result) + length (fileNodes (nodesOf node)))%nat.
Proof.
  induction node as [path type size hash children IH] using tree_ind.
  intros result. rewrite traverseNode_eq, nodesOf_eq.
  cbn [node_children node_path]. cbv zeta.
  set (node := mkNode path type size hash children).
  change (node :: ?l) with ([node] ++ l). rewrite fileNodes_app, length_app.
  pose proof (mapSet_fileKeys path node result) as Hset.
  destruct children as [cs|]; [|simpl; lia].
  enough (H : ∀ r, (length (fileKeys (traverse cs r))
                    <= length (fileKeys r)
                       + length (fileNodes (treeNodes cs)))%nat).
  { specialize (H (mapSet path node result)). lia. }
  clear Hset node.
  induction cs as [|c cs IHcs]; intros r; [simpl; lia|].
  apply Forall_cons in IH as [Hc Hcs].
  unfold traverse, treeNodes in *. simpl.
  specialize (IHcs Hcs (traverseNode c r)). specialize (Hc r).
  rewrite fileNodes_app, length_app. lia.
Qed.

Lemma flattenTree_fileKeys tree :
  Z.of_nat (length (fileKeys (flattenTree tree))) <= countFiles tree.
Proof.
  rewrite countFiles_spec. unfold flattenTree, traverse.
  enough (H : ∀ r, (length (fileKeys
                              (fold_left (fun result n => traverseNode n result)
                                 tree r))
                    <= length (fileKeys r)
                       + length (fileNodes (treeNodes tree)))%nat).
  { specialize (H []). simpl in H. lia. }
  induction tree as [|n tree IH]; intros r; [simpl; lia|].
  unfold treeNodes in *. simpl.
  specialize (IH (traverseNode n r)).
  pose proof (traverseNode_fileKeys n r).
  rewrite fileNodes_app, length_app. lia.
Qed.

Lemma fileKeys_elem (m : JsMap PackageFileTree) k node :
  (k, node) ∈ m → node_type node = File → k ∈ fileKeys m.
Proof.
  intros Hin Hty. unfold fileKeys. apply list_elem_of_fmap.
  exists (k, node). split; [done|]. by apply list_elem_of_filter.
Qed.

Lemma classifyTo_aboutFiles fromFiles toFiles path toNode r :
  (path, toNode) ∈ toFiles →
  aboutFiles fromFiles toFiles r →
  aboutFiles fromFiles toFiles (classifyTo fromFiles path toNode r).
Proof.
  intros Hin (Ha & Hm & Hr). unfold classifyTo.
  destruct (node_type toNode) eqn:Hto.
  - assert (Hkey : path ∈ fileKeys toFiles) by by eapply fileKeys_elem.
    destruct (mapGet path fromFiles) as [f|] eqn:Hget.
    + destruct (node_type f).
      * destruct (hasChanged f toNode); [|done].
        split_and!; simpl; try done. apply Forall_app. by split; [|repeat constructor].
      * split_and!; simpl; try done. apply Forall_app. by split; [|repeat constructor].
    + split_and!; simpl; try done. apply Forall_app. by split; [|repeat constructor].
  - destruct (mapGet path fromFiles) as [f|] eqn:Hget; [|done].
    destruct (node_type f) eqn:Hf; [|done].
    split_and!; simpl; try done. apply Forall_app. split; [done|].
    repeat constructor. simpl.
    eapply fileKeys_elem; [by apply mapGet_Some_elem|done].
Qed.

Lemma aboutFiles_setTruncated fromFiles toFiles r :
  aboutFiles fromFiles toFiles r → aboutFiles fromFiles toFiles (setTruncated r).
Proof. done. Qed.

Lemma scanTo_aboutFiles fromFiles toFiles entries : ∀ r,
  (∀ e, e ∈ entries → e ∈ toFiles) →
  aboutFiles fromFiles toFiles r →
  aboutFiles fromFiles toFiles (scanTo fromFiles entries r).
Proof.
  induction entries as [|[path toNode] entries IH]; intros r Hsub Hr; [done|].
  simpl. destruct (overLimit r); [done|].
  apply IH.
  - intros e He. apply Hsub. by right.
  - apply classifyTo_aboutFiles; [|done]. apply Hsub. by left.
Qed.

Lemma scanFrom_aboutFiles fromFiles toFiles entries : ∀ r,
  (∀ e, e ∈ entries → e ∈ fromFiles) →
  aboutFiles fromFiles toFiles r →
  aboutFiles fromFiles toFiles (scanFrom toFiles entries r).
Proof.
  induction entries as [|[path fromNode] entries IH]; intros r Hsub Hr; [done|].
  simpl.
  assert (Hsub' : ∀ e, e ∈ entries → e ∈ fromFiles)
    by (intros e He; apply Hsub; by right).
  destruct (node_type fromNode) eqn:Hty; [|by apply IH].
  destruct (overLimit r); [done|].
  apply IH; [done|]. unfold recordRemoved.
  destruct (negb _); [|done].
  destruct Hr as (Ha & Hm & Hrm). split_and!; simpl; try done.
  apply Forall_app. split; [done|]. repeat constructor. simpl.
  eapply fileKeys_elem; [|done]. apply Hsub. by left.
Qed.

Lemma NoDup_within_length (l k : list jsstring) :
  NoDup l → (∀ x, x ∈ l → x ∈ k) → (length l <= length k)%nat.
Proof.
  intros Hl Hsub. apply submseteq_length. by apply NoDup_submseteq.
Qed.

(** X14: the stats of a compare response agree with each other: the files
    added and modified are at most the files counted in the new tree, the
    files removed are at most the files counted in the old tree, the three
    together are at most 1000, and the warning that the list was truncated
    to 1000 files is present exactly when [truncated] is set. *)
Theorem X14_response_stats_consistent
    (semverDiff : jsstring → jsstring → SemverOutcome)
    (localeCompare : jsstring → jsstring → Z)
    (packageName from to : jsstring)
    (fromTree toTree : list PackageFileTree)
    (fromPkg toPkg : option Manifest) (computeTime : Z) :
  let resp := buildCompareResponse semverDiff localeCompare packageName from to
                fromTree toTree fromPkg toPkg computeTime in
  let stats := resp_stats resp in
  filesAdded stats + filesModified stats <= totalFilesTo stats
  ∧ filesRemoved stats <= totalFilesFrom stats
  ∧ filesAdded stats + filesRemoved stats + filesModified stats <= 1000
  ∧ meta_warnings (resp_meta resp)
    = if meta_truncated (resp_meta resp)
      then Some [lit "File list truncated to 1000 files"]
      else None.
Proof.
  intros resp stats. subst stats resp. unfold buildCompareResponse.
  cbn [resp_stats resp_meta filesAdded filesModified filesRemoved totalFilesTo
         totalFilesFrom meta_warnings meta_truncated].
  pose proof (compareFileTrees_withinLimit localeCompare fromTree toTree)
    as [Hlimit _].
  unfold totalChanges, MAX_FILES_COMPARE in Hlimit.
  set (r := compareFileTrees localeCompare fromTree toTree) in *.
  assert (Hpaths : NoDup (changedPaths r)).
  { subst r. unfold compareFileTrees.
    set (fromFiles := flattenTree fromTree).
    set (toFiles := flattenTree toTree).
    set (r1 := scanTo fromFiles toFiles (mkResult [] [] [] false)).
    set (r2 := scanFrom toFiles fromFiles r1).
    unfold changedPaths. simpl. rewrite !sortWith_Permutation.
    destruct (scanTo_paths fromFiles toFiles (mkResult [] [] [] false))
      as [Hnd Hsub];
      [apply flattenTree_NoDup|constructor|by intros p ?%elem_of_nil|].
    apply (scanFrom_paths toFiles fromFiles r1);
      [apply flattenTree_NoDup|done|].
    intros p Hp. left. destruct (Hsub p Hp) as [?%elem_of_nil|?]; done. }
  assert (Habout : aboutFiles (flattenTree fromTree) (flattenTree toTree) r).
  { subst r. unfold compareFileTrees.
    set (fromFiles := flattenTree fromTree).
    set (toFiles := flattenTree toTree).
    assert (H2 : aboutFiles fromFiles toFiles
                   (scanFrom toFiles fromFiles
                      (scanTo fromFiles toFiles (mkResult [] [] [] false)))).
    { apply scanFrom_aboutFiles; [done|].
      apply scanTo_aboutFiles; [done|]. by repeat split. }
    destruct H2 as (Ha & Hm & Hr). unfold aboutFiles. simpl.
    by rewrite !sortWith_Permutation. }
  destruct Habout as (Ha & Hm & Hr).
  unfold changedPaths in Hpaths. rewrite !map_app in Hpaths.
  apply NoDup_app in Hpaths as (Hna & Hdisj & Hrest).
  apply NoDup_app in Hrest as (Hnr & Hdisj' & Hnm).
  pose proof (flattenTree_fileKeys toTree) as Hto.
  pose proof (flattenTree_fileKeys fromTree) as Hfrom.
  assert (Ham : (length (added r) + length (modified r)
                 <= length (fileKeys (flattenTree toTree)))%nat).
  { rewrite <- (length_map fc_path (added r)), <- (length_map fc_path (modified r)),
      <- length_app.
    apply NoDup_within_length.
    - apply NoDup_app. split_and!; [done| |done].
      intros x Hx Hx'. apply (Hdisj x Hx). apply elem_of_app. by right.
    - intros x [Hx|Hx]%elem_of_app;
        apply list_elem_of_fmap in Hx as (c & -> & Hc).
      + by apply (proj1 (Forall_forall _ _) Ha).
      + by apply (proj1 (Forall_forall _ _) Hm). }
  assert (Hrm : (length (removed r) <= length (fileKeys (flattenTree fromTree)))%nat).
  { rewrite <- (length_map fc_path (removed r)).
    apply NoDup_within_length; [done|].
    intros x Hx. apply list_elem_of_fmap in Hx as (c & -> & Hc).
    by apply (proj1 (Forall_forall _ _) Hr). }
  split_and!; [lia..|].
  by destruct (truncated r).
Qed.

(** ** Dependency comparator: completeness, order, no duplicates *)

Lemma setAdd_elem s x y : y ∈ setAdd s x ↔ y ∈ s ∨ y = x.
Proof.
  unfold setAdd. case_bool_decide as Hin.
  - split; [by left|]. by intros [?| ->].
  - rewrite elem_of_app, list_elem_of_singleton. done.
Qed.

Lemma setAdd_NoDup s x : NoDup s → NoDup (setAdd s x).
Proof.
  intros Hs. unfold setAdd. case_bool_decide as Hin; [done|].
  apply NoDup_app. split_and!; [done| |apply NoDup_singleton].
  by intros y Hy ->%list_elem_of_singleton.
Qed.

Lemma fold_setAdd_elem l : ∀ s y,
  y ∈ fold_left setAdd l s ↔ y ∈ s ∨ y ∈ l.
Proof.
  induction l as [|x l IH]; intros s y; simpl.
  - split; [by left|]. by intros [?|?%elem_of_nil].
  - rewrite IH, setAdd_elem, elem_of_cons. tauto.
Qed.

Lemma fold_setAdd_NoDup l : ∀ s, NoDup s → NoDup (fold_left setAdd l s).
Proof.
  induction l as [|x l IH]; intros s Hs; [done|].
  simpl. by apply IH, setAdd_NoDup.
Qed.

Lemma mapGet_is_Some_key {V} k (m : JsMap V) :
  is_Some (mapGet k m) → k ∈ map fst m.
Proof.
  intros [v Hv]. apply mapGet_Some_elem in Hv.
  apply list_elem_of_fmap. by exists (k, v).
Qed.

Lemma compareName_keeps semverDiff section fromDeps toDeps changes name c :
  c ∈ changes → c ∈ compareName semverDiff section fromDeps toDeps changes name.
Proof.
  intros Hc. unfold compareName. case_bool_decide; [done|].
  apply elem_of_app. by left.
Qed.

Lemma compareNames_keeps semverDiff section fromDeps toDeps names : ∀ changes c,
  c ∈ changes →
  c ∈ fold_left (compareName semverDiff section fromDeps toDeps) names changes.
Proof.
  induction names as [|n names IH]; intros changes c Hc; [done|].
  simpl. by apply IH, compareName_keeps.
Qed.

Lemma compareNames_emits semverDiff section fromDeps toDeps names name : ∀ changes,
  name ∈ names →
  mapGet name fromDeps ≠ mapGet name toDeps →
  ∃ c, c ∈ fold_left (compareName semverDiff section fromDeps toDeps) names changes
       ∧ depKey c = (section, name).
Proof.
  induction names as [|n names IH]; intros changes Hin Hne;
    [by apply elem_of_nil in Hin|].
  simpl. apply elem_of_cons in Hin as [->|Hin]; [|by apply IH].
  eexists. split.
  - apply compareNames_keeps. unfold compareName.
    rewrite bool_decide_eq_false_2 by (by rewrite getProperty_eq_iff).
    apply elem_of_app. right. by apply list_elem_of_singleton.
  - done.
Qed.

Lemma compareSection_keeps semverDiff fromPkg toPkg changes section c :
  c ∈ changes → c ∈ compareSection semverDiff fromPkg toPkg changes section.
Proof. intros Hc. unfold compareSection. by apply compareNames_keeps. Qed.

Lemma compareSections_keeps semverDiff fromPkg toPkg secs : ∀ changes c,
  c ∈ changes →
  c ∈ fold_left (compareSection semverDiff fromPkg toPkg) secs changes.
Proof.
  induction secs as [|s secs IH]; intros changes c Hc; [done|].
  simpl. by apply IH, compareSection_keeps.
Qed.

Lemma compareSection_emits semverDiff fromPkg toPkg changes section name :
  mapGet name (depsOf fromPkg section) ≠ mapGet name (depsOf toPkg section) →
  ∃ c, c ∈ compareSection semverDiff fromPkg toPkg changes section
       ∧ depKey c = (section, name).
Proof.
  intros Hne. unfold compareSection. apply compareNames_emits; [|done].
  apply fold_setAdd_elem. right. apply elem_of_app.
  unfold objectKeys.
  destruct (mapGet name (depsOf fromPkg section)) as [v|] eqn:Hf.
  - left. apply fold_setAdd_elem. right.
    apply mapGet_is_Some_key. by rewrite Hf.
  - right. apply fold_setAdd_elem. right.
    apply mapGet_is_Some_key.
    destruct (mapGet name (depsOf toPkg section)); [done|congruence].
Qed.

Lemma compareSections_emits semverDiff fromPkg toPkg secs section name : ∀ changes,
  section ∈ secs →
  mapGet name (depsOf fromPkg section) ≠ mapGet name (depsOf toPkg section) →
  ∃ c, c ∈ fold_left (compareSection semverDiff fromPkg toPkg) secs changes
       ∧ depKey c = (section, name).
Proof.
  induction secs as [|s secs IH]; intros changes Hin Hne;
    [by apply elem_of_nil in Hin|].
  simpl. apply elem_of_cons in Hin as [->|Hin]; [|by apply IH].
  destruct (compareSection_emits semverDiff fromPkg toPkg changes s name Hne)
    as (c & Hc & Hkey).
  exists c. split; [|done]. by apply compareSections_keeps.
Qed.

(** X15: a change is returned for a name in a section exactly when the two
    manifests hold different versions for it there (one of them may be
    absent). *)
Theorem X15_change_iff_versions_differ
    (semverDiff : jsstring → jsstring → SemverOutcome)
    (localeCompare : jsstring → jsstring → Z)
    (fromPkg toPkg : option Manifest) (section : DepSection) (name : jsstring) :
  (∃ c, c ∈ compareDependencies semverDiff localeCompare fromPkg toPkg
        ∧ depKey c = (section, name))
  ↔ mapGet name (depsOf fromPkg section) ≠ mapGet name (depsOf toPkg section).
Proof.
  unfold compareDependencies. split.
  - intros (c & Hc & [= <- <-]).
    rewrite sortWith_Permutation in Hc.
    pose proof (compareSections_sound semverDiff fromPkg toPkg sections []
                  ltac:(constructor)) as Hsound.
    apply (proj1 (Forall_forall _ _) Hsound) in Hc as (Hf & Ht & Hne & _).
    simpl in Hf, Ht. rewrite Hf, Ht in Hne.
    intros E. by apply Hne, getProperty_eq_iff.
  - intros Hne.
    destruct (compareSections_emits semverDiff fromPkg toPkg sections section
                name [] ltac:(destruct section; unfold sections; repeat constructor) Hne)
      as (c & Hc & Hkey).
    exists c. split; [|done]. by rewrite sortWith_Permutation.
Qed.

Lemma compareName_same semverDiff section deps changes name :
  compareName semverDiff section deps deps changes name = changes.
Proof. unfold compareName. by rewrite bool_decide_eq_true_2. Qed.

Lemma compareSection_same semverDiff pkg changes section :
  compareSection semverDiff pkg pkg changes section = changes.
Proof.
  unfold compareSection.
  generalize (fold_left setAdd
                (objectKeys (depsOf pkg section) ++ objectKeys (depsOf pkg section))
                []).
  intros names. induction names as [|n names IH]; [done|].
  simpl. by rewrite compareName_same.
Qed.

(** X16: a manifest compared with itself, or two absent manifests, give no
    dependency change. *)
Theorem X16_same_manifest_no_changes
    (semverDiff : jsstring → jsstring → SemverOutcome)
    (localeCompare : jsstring → jsstring → Z) (pkg : option Manifest) :
  compareDependencies semverDiff localeCompare pkg pkg = [].
Proof.
  unfold compareDependencies.
  assert (H : ∀ secs changes,
             fold_left (compareSection semverDiff pkg pkg) secs changes = changes).
  { induction secs as [|s secs IH]; intros changes; [done|].
    simpl. by rewrite compareSection_same. }
  by rewrite H.
Qed.

Lemma bySectionThenName_total localeCompare :
  (∀ a b, localeCompare a b <= 0 ∨ localeCompare b a <= 0) →
  ∀ a b, bySectionThenName localeCompare a b <= 0
         ∨ bySectionThenName localeCompare b a <= 0.
Proof.
  intros Htotal a b. unfold bySectionThenName.
  destruct (decide (dep_section a = dep_section b)) as [E|E].
  - rewrite !bool_decide_eq_true_2 by done. apply Htotal.
  - rewrite !bool_decide_eq_false_2 by done. lia.
Qed.

Lemma bySectionThenName_index localeCompare a b :
  bySectionThenName localeCompare a b <= 0 →
  sectionIndex (dep_section a) <= sectionIndex (dep_section b).
Proof.
  unfold bySectionThenName. case_bool_decide as E; [|lia].
  intros _. rewrite E. lia.
Qed.

(** X17: with a total [localeCompare], the changes come sorted by the final
    comparator, so the sections follow each other in the fixed order
    dependencies, devDependencies, peerDependencies, optionalDependencies. *)
Theorem X17_dependency_changes_by_section
    (semverDiff : jsstring → jsstring → SemverOutcome)
    (localeCompare : jsstring → jsstring → Z)
    (fromPkg toPkg : option Manifest) :
  (∀ a b, localeCompare a b <= 0 ∨ localeCompare b a <= 0) →
  let changes := compareDependencies semverDiff localeCompare fromPkg toPkg in
  Sorted (notAfter (bySectionThenName localeCompare)) changes
  ∧ Sorted Z.le (map (fun c => sectionIndex (dep_section c)) changes).
Proof.
  intros Htotal changes.
  assert (Hs : Sorted (notAfter (bySectionThenName localeCompare)) changes).
  { apply Sorted_sortWith. by apply bySectionThenName_total. }
  split; [done|].
  induction Hs as [|c l Hl IH Hhd]; [constructor|].
  simpl. constructor; [done|].
  destruct Hhd as [|d l Hcd]; constructor.
  by eapply bySectionThenName_index.
Qed.

(** Two manifests that differ in two sections, under the code-unit order. *)
Lemma X17_dependency_changes_by_section_witness :
  let fromPkg : Manifest := fun s =>
    match s with
    | Dependencies => Some [(lit "zod", lit "^3.0.0")]
    | DevDependencies => Some [(lit "vitest", lit "^1.0.0")]
    | _ => None
    end in
  let toPkg : Manifest := fun s =>
    match s with
    | Dependencies => Some [(lit "zod", lit "^3.1.0"); (lit "defu", lit "^6.0.0")]
    | _ => None
    end in
  let changes := compareDependencies (fun _ _ => SemverThrows) codeUnitComparator
                   (Some fromPkg) (Some toPkg) in
  map depKey changes
  = [(Dependencies, lit "defu"); (Dependencies, lit "zod");
     (DevDependencies, lit "vitest")]
  ∧ Sorted Z.le (map (fun c => sectionIndex (dep_section c)) changes).
Proof.
  intros fromPkg toPkg changes. split; [vm_compute; reflexivity|].
  exact (proj2 (X17_dependency_changes_by_section (fun _ _ => SemverThrows)
                  codeUnitComparator (Some fromPkg) (Some toPkg)
                  codeUnitComparator_total)).
Defined.

Lemma compareNames_NoDup semverDiff section fromDeps toDeps names : ∀ changes,
  NoDup names →
  NoDup (map depKey changes) →
  (∀ c, c ∈ changes → dep_section c = section → dep_name c ∉ names) →
  NoDup (map depKey
           (fold_left (compareName semverDiff section fromDeps toDeps)
              names changes))
  ∧ ∀ c, c ∈ fold_left (compareName semverDiff section fromDeps toDeps)
               names changes →
         c ∈ changes ∨ dep_section c = section.
Proof.
  induction names as [|n names IH]; intros changes Hnames Hkeys Hfresh.
  - simpl. split; [done|]. auto.
  - simpl. apply NoDup_cons in Hnames as [Hn Hnames].
    set (changes' := compareName semverDiff section fromDeps toDeps changes n).
    assert (Hstep : NoDup (map depKey changes')
                    ∧ ∀ c, c ∈ changes' →
                           c ∈ changes ∨ depKey c = (section, n)).
    { subst changes'. unfold compareName. case_bool_decide.
      - split; [done|]. auto.
      - split.
        + rewrite map_app. simpl. apply NoDup_app. split_and!; [done| |apply NoDup_singleton].
          intros k Hk ->%list_elem_of_singleton.
          apply list_elem_of_fmap in Hk as (c & Hkey & Hc).
          injection Hkey as Hs Hname.
          apply (Hfresh c Hc); [done|]. rewrite <- Hname. by left.
        + intros c [?|Hc%list_elem_of_singleton]%elem_of_app; [by left|].
          right. by subst c. }
    destruct Hstep as [Hnd Hsub].
    destruct (IH changes') as [IHnd IHsub]; [done..| |].
    { intros c Hc Hs Hin. destruct (Hsub c Hc) as [Hold|Hkey].
      - apply (Hfresh c Hold Hs). by right.
      - injection Hkey as _ Hname. rewrite Hname in Hin. done. }
    split; [done|].
    intros c Hc. destruct (IHsub c Hc) as [Hc'|?]; [|by right].
    destruct (Hsub c Hc') as [?|Hkey]; [by left|].
    right. by injection Hkey.
Qed.

Lemma compareSections_NoDup semverDiff fromPkg toPkg secs : ∀ changes,
  NoDup secs →
  NoDup (map depKey changes) →
  (∀ c, c ∈ changes → dep_section c ∉ secs) →
  NoDup (map depKey
           (fold_left (compareSection semverDiff fromPkg toPkg) secs changes)).
Proof.
  induction secs as [|s secs IH]; intros changes Hsecs Hkeys Hfresh; [done|].
  simpl. apply NoDup_cons in Hsecs as [Hs Hsecs].
  destruct (compareNames_NoDup semverDiff s (depsOf fromPkg s) (depsOf toPkg s)
              (fold_left setAdd
                 (objectKeys (depsOf fromPkg s) ++ objectKeys (depsOf toPkg s)) [])
              changes) as [Hnd Hsub].
  { apply fold_setAdd_NoDup. constructor. }
  { done. }
  { intros c Hc Hsec. exfalso. apply (Hfresh c Hc). rewrite Hsec. by left. }
  apply IH; [done..|].
  intros c Hc Hin. destruct (Hsub c Hc) as [Hold|Heq].
  - apply (Hfresh c Hold). by right.
  - rewrite Heq in Hin. done.
Qed.

(** X18: a dependency is reported at most once: no two changes returned
    have the same section and the same name. *)
Theorem X18_one_change_per_dependency
    (semverDiff : jsstring → jsstring → SemverOutcome)
    (localeCompare : jsstring → jsstring → Z)
    (fromPkg toPkg : option Manifest) :
  NoDup (map depKey (compareDependencies semverDiff localeCompare fromPkg toPkg)).
Proof.
  unfold compareDependencies. rewrite sortWith_Permutation.
  apply compareSections_NoDup.
  - unfold sections.
    repeat (apply NoDup_cons_2;
            [intros H;
             repeat (apply elem_of_cons in H as [H|H]; [discriminate|]);
             by apply elem_of_nil in H|]).
    apply NoDup_nil_2.
  - constructor.
  - by intros c ?%elem_of_nil.
Qed.

(** ** Version ranges and routes *)

Lemma startsWith_split s sep :
  startsWith s sep = true → s = sep ++ drop (length sep) s.
Proof.
  revert s. induction sep as [|c sep IH]; intros [|d s]; simpl; try done.
  intros [Hc Hs]%andb_prop. apply bool_decide_eq_true in Hc. subst d.
  f_equal. by apply IH.
Qed.

Lemma splitOn_nonempty sep cur s : splitOn sep cur s ≠ [].
Proof.
  funelim (splitOn sep cur s); simp splitOn; [done|].
  destruct (startsWith (c :: s') sep); [done|]. auto.
Qed.

Lemma splitOn_skip sep cur c s' :
  startsWith (c :: s') sep = false →
  splitOn sep cur (c :: s') = splitOn sep (cur ++ [c]) s'.
Proof. intros H. rewrite splitOn_equation_2. by rewrite H. Qed.

Lemma splitOn_match sep cur c s' :
  startsWith (c :: s') sep = true →
  splitOn sep cur (c :: s') = cur :: splitOn sep [] (drop (length sep - 1) s').
Proof. intros H. rewrite splitOn_equation_2. by rewrite H. Qed.

Lemma joinWith_cons sep part rest :
  rest ≠ [] → joinWith sep (part :: rest) = part ++ sep ++ joinWith sep rest.
Proof. by destruct rest. Qed.

(** Joining the parts of a split with the separator gives the string back. *)
Lemma splitOn_joinWith sep cur s :
  sep ≠ [] → joinWith sep (splitOn sep cur s) = cur ++ s.
Proof.
  intros Hsep. funelim (splitOn sep cur s); simp splitOn.
  - simpl. by rewrite app_nil_r.
  - destruct (startsWith (c :: s') sep) eqn:Hstart.
    + rewrite joinWith_cons by apply splitOn_nonempty.
      match goal with
      | IH : _ → joinWith _ (splitOn _ [] _) = _ |- _ => rewrite IH by done
      end.
      assert (E : c :: s' = sep ++ drop (length sep - 1) s').
      { rewrite (startsWith_split _ _ Hstart) at 1.
        destruct sep as [|x sep]; [done|]. simpl. by rewrite Nat.sub_0_r. }
      by rewrite E.
    + match goal with
      | IH : _ → joinWith _ (splitOn _ (cur ++ [c]) _) = _ |- _ =>
          rewrite IH by done
      end.
      by rewrite <- app_assoc.
Qed.

(** X19: the two versions of a parsed range, put back around [...] or
    around [..], give the range that was parsed. *)
Theorem X19_parsed_range_reassembles (versionRange : jsstring) :
  match parseVersionRange versionRange with
  | Some (from, to) =>
      versionRange = from ++ lit "..." ++ to
      ∨ versionRange = from ++ lit ".." ++ to
  | None => True
  end.
Proof.
  unfold parseVersionRange.
  pose proof (splitOn_joinWith (lit "...") [] versionRange ltac:(done)) as H3.
  pose proof (splitOn_joinWith (lit "..") [] versionRange ltac:(done)) as H2.
  change ([] ++ versionRange) with versionRange in H3, H2.
  destruct (splitOn (lit "...") [] versionRange) as [|a [|b [|c l]]];
    try (left; symmetry; exact H3).
  all: destruct (splitOn (lit "..") [] versionRange) as [|a' [|b' [|c' l']]];
    try done; right; symmetry; exact H2.
Qed.

Lemma noDoubleDot_cons c s :
  noDoubleDot (c :: s) = true → noDoubleDot s = true.
Proof.
  destruct s as [|d s]; [done|]. simpl.
  by intros [_ ?]%andb_prop.
Qed.

Lemma startsWith_dots_false (s : jsstring) k :
  noDoubleDot s = true → startsWith s (46 :: 46 :: k)%N = false.
Proof.
  destruct s as [|c [|d s]]; simpl; try done.
  - intros _. by rewrite andb_false_r.
  - intros [Hcd _]%andb_prop.
    destruct (N.eqb_spec c 46), (N.eqb_spec d 46); simpl in *; try done;
      repeat case_bool_decide; simpl; congruence.
Qed.

Lemma splitOn_no_dots (s : jsstring) k : ∀ cur,
  noDoubleDot s = true →
  splitOn (46 :: 46 :: k)%N cur s = [cur ++ s].
Proof.
  induction s as [|c s IH]; intros cur Hs.
  - simp splitOn. by rewrite app_nil_r.
  - rewrite splitOn_skip by (by apply startsWith_dots_false).
    rewrite IH by (by eapply noDoubleDot_cons). by rewrite <- app_assoc.
Qed.

Lemma startsWith_before_dots (c : N) (from rest : jsstring) k :
  noDoubleDot (c :: from) = true →
  last (c :: from) ≠ Some 46%N →
  startsWith (c :: from ++ 46%N :: rest) (46 :: 46 :: k)%N = false.
Proof.
  intros Hnd Hlast. cbn [startsWith].
  destruct (decide (46%N = c)) as [<-|Hc];
    [|by rewrite (bool_decide_eq_false_2 _ Hc)].
  destruct from as [|d from]; [done|].
  simpl in Hnd. apply andb_prop in Hnd as [Hd _].
  cbn [app startsWith].
  destruct (decide (46%N = d)) as [<-|Hd'];
    [done|by rewrite (bool_decide_eq_false_2 _ Hd'), andb_false_r].
Qed.

Lemma splitOn_at_dots (from to : jsstring) (sep : jsstring) : ∀ cur,
  sep = lit "..." ∨ sep = lit ".." →
  noDoubleDot from = true →
  last from ≠ Some 46%N →
  splitOn sep cur (from ++ sep ++ to) = (cur ++ from) :: splitOn sep [] to.
Proof.
  intros cur Hsep. revert cur.
  induction from as [|c from IH]; intros cur Hnd Hlast.
  - rewrite app_nil_r. destruct Hsep as [-> | ->].
    + change ([] ++ lit "..." ++ to) with (46%N :: 46%N :: 46%N :: to).
      rewrite splitOn_match; [done|by destruct to].
    + change ([] ++ lit ".." ++ to) with (46%N :: 46%N :: to).
      rewrite splitOn_match; [done|by destruct to].
  - assert (Hstart : startsWith (c :: from ++ sep ++ to) sep = false).
    { destruct Hsep as [-> | ->];
        by apply (startsWith_before_dots c from). }
    cbn [app]. rewrite splitOn_skip by done.
    rewrite IH.
    + by rewrite <- app_assoc.
    + by eapply noDoubleDot_cons.
    + destruct from as [|d from]; [done|]. by rewrite last_cons_cons in Hlast.
Qed.

(** X20: two versions in which no two dots follow each other, the first
    not ending in a dot, are read back from the range written with [...];
    written with [..] they are read back as well when the second does not
    start with a dot. *)
Theorem X20_version_range_round_trip (from to : jsstring) :
  noDoubleDot from = true →
  noDoubleDot to = true →
  last from ≠ Some 46%N →
  parseVersionRange (from ++ lit "..." ++ to) = Some (from, to)
  ∧ (head to ≠ Some 46%N →
     parseVersionRange (from ++ lit ".." ++ to) = Some (from, to)).
Proof.
  intros Hfrom Hto Hlast. unfold parseVersionRange. split.
  - rewrite (splitOn_at_dots from to (lit "...")) by auto.
    by rewrite (splitOn_no_dots to [46%N]).
  - intros Hhead.
    assert (H3 : ∀ cur, splitOn (lit "...") cur (from ++ lit ".." ++ to)
                        = [cur ++ from ++ lit ".." ++ to]).
    { induction from as [|c from IH]; intros cur.
      - change ([] ++ lit ".." ++ to) with (46%N :: 46%N :: to).
        rewrite splitOn_skip.
        2:{ destruct to as [|d to]; [done|]. cbn [startsWith lit].
            simpl in Hhead. simpl.
            by rewrite (bool_decide_eq_false_2 (46%N = d)) by congruence. }
        rewrite splitOn_skip.
        2:{ destruct to as [|d to]; [done|]. cbn [startsWith lit].
            simpl in Hhead. simpl.
            by rewrite (bool_decide_eq_false_2 (46%N = d)) by congruence. }
        rewrite (splitOn_no_dots to [46%N]) by done.
        by rewrite <- !app_assoc.
      - cbn [app]. rewrite splitOn_skip.
        2:{ by apply (startsWith_before_dots c from (46%N :: to) [46%N]). }
        rewrite IH.
        + by rewrite <- app_assoc.
        + by eapply noDoubleDot_cons.
        + destruct from as [|d from]; [done|].
          by rewrite last_cons_cons in Hlast. }
    rewrite H3.
    rewrite (splitOn_at_dots from to (lit "..")) by auto.
    by rewrite (splitOn_no_dots to []).
Qed.

(** The range from 1.0.0 to 2.0.0, written both ways. *)
Lemma X20_version_range_round_trip_witness :
  parseVersionRange (lit "1.0.0...2.0.0") = Some (lit "1.0.0", lit "2.0.0")
  ∧ parseVersionRange (lit "1.0.0..2.0.0") = Some (lit "1.0.0", lit "2.0.0").
Proof.
  destruct (X20_version_range_round_trip (lit "1.0.0") (lit "2.0.0"))
    as [H3 H2]; [reflexivity|reflexivity|discriminate|].
  split; [exact H3|]. apply H2. discriminate.
Defined.

Lemma indexOf_app x pre rest :
  x ∉ pre → indexOf x (pre ++ x :: rest) = Some (length pre).
Proof.
  induction pre as [|s pre IH]; intros Hx; simpl.
  - unfold str_eqb. by rewrite bool_decide_eq_true_2.
  - unfold str_eqb. rewrite bool_decide_eq_false_2.
    + rewrite IH; [done|]. intros Hin. apply Hx. by right.
    + intros ->. apply Hx. by left.
Qed.

Lemma indexOf_None x segments : x ∉ segments → indexOf x segments = None.
Proof.
  induction segments as [|s segments IH]; intros Hx; simpl; [done|].
  unfold str_eqb. rewrite bool_decide_eq_false_2.
  - rewrite IH; [done|]. intros Hin. apply Hx. by right.
  - intros ->. apply Hx. by left.
Qed.

(** X21: the compare page reads a route made of the segments of a package
    name (none of them [v]), the segment [v] and a range [from...to], in
    which no two dots follow each other in [from] or in [to] and [from]
    does not end in a dot, as that package name, joined with slashes, and
    that range; what follows the range is ignored.  Whatever the segment
    after [v] is, the package name is made of the segments before [v].
    With no segment [v] the range is missing and all segments make the
    package name. *)
Theorem X21_parsed_route (pkg more : list jsstring) (from to : jsstring) :
  lit "v" ∉ pkg →
  noDoubleDot from = true →
  noDoubleDot to = true →
  last from ≠ Some 46%N →
  parsedRoute (pkg ++ [lit "v"; from ++ lit "..." ++ to] ++ more)
  = (joinWith (lit "/") pkg, Some (from, to))
  ∧ (∀ rangeStr,
       (parsedRoute (pkg ++ [lit "v"; rangeStr] ++ more)).1
       = joinWith (lit "/") pkg)
  ∧ parsedRoute pkg = (joinWith (lit "/") pkg, None).
Proof.
  intros Hv Hfrom Hto Hlast. split_and!.
  - unfold parsedRoute.
    change (pkg ++ [lit "v"; from ++ lit "..." ++ to] ++ more)
      with (pkg ++ lit "v" :: (from ++ lit "..." ++ to) :: more).
    rewrite indexOf_app by done.
    rewrite bool_decide_eq_false_2 by (rewrite length_app; simpl; lia).
    rewrite take_app_length.
    rewrite lookup_app_r by lia.
    replace (length pkg + 1 - length pkg)%nat with 1%nat by lia.
    cbn [lookup list_lookup default].
    rewrite (splitOn_at_dots from to (lit "...")) by auto.
    by rewrite (splitOn_no_dots to [46%N]).
  - intros rangeStr. unfold parsedRoute.
    change (pkg ++ [lit "v"; rangeStr] ++ more)
      with (pkg ++ lit "v" :: rangeStr :: more).
    rewrite indexOf_app by done.
    rewrite bool_decide_eq_false_2 by (rewrite length_app; simpl; lia).
    rewrite take_app_length.
    by destruct (splitOn _ _ _) as [|? [|? [|? ?]]].
  - unfold parsedRoute. by rewrite indexOf_None.
Qed.

(** The route of a scoped package. *)
Lemma X21_parsed_route_witness :
  parsedRoute [lit "@nuxt"; lit "kit"; lit "v"; lit "1.0.0...2.0.0"]
  = (lit "@nuxt/kit", Some (lit "1.0.0", lit "2.0.0")).
Proof.
  refine (proj1 (X21_parsed_route [lit "@nuxt"; lit "kit"] []
                   (lit "1.0.0") (lit "2.0.0") _ eq_refl eq_refl _)).
  - intros H. repeat (apply elem_of_cons in H as [H|H]; [discriminate|]).
    by apply elem_of_nil in H.
  - discriminate.
Defined.

(** ** Escaping HTML *)

Lemma replaceAll_app c to s1 s2 :
  replaceAll c to (s1 ++ s2) = replaceAll c to s1 ++ replaceAll c to s2.
Proof. unfold replaceAll. by rewrite flat_map_app. Qed.

Lemma escapeHtml_app s1 s2 : escapeHtml (s1 ++ s2) = escapeHtml s1 ++ escapeHtml s2.
Proof. unfold escapeHtml. by rewrite !replaceAll_app. Qed.

Lemma escapeHtml_unit x : escapeHtml [x] = escapeUnit x.
Proof.
  unfold escapeHtml, escapeUnit, replaceAll. simpl.
  destruct (N.eqb_spec x 38) as [->|H38]; [reflexivity|].
  simpl. destruct (N.eqb_spec x 60) as [->|H60]; [reflexivity|].
  simpl. destruct (N.eqb_spec x 62) as [->|H62]; reflexivity.
Qed.

Lemma escapeHtml_spec str : escapeHtml str = flat_map escapeUnit str.
Proof.
  induction str as [|x str IH]; [done|].
  change (x :: str) with ([x] ++ str).
  by rewrite escapeHtml_app, escapeHtml_unit, IH.
Qed.

Lemma escapeUnit_cases x :
  (x = 38%N ∧ escapeUnit x = lit "&amp;")
  ∨ (x = 60%N ∧ escapeUnit x = lit "&lt;")
  ∨ (x = 62%N ∧ escapeUnit x = lit "&gt;")
  ∨ (x ≠ 38%N ∧ escapeUnit x = [x]).
Proof.
  unfold escapeUnit.
  destruct (N.eqb_spec x 38); [by left|].
  destruct (N.eqb_spec x 60); [right; by left|].
  destruct (N.eqb_spec x 62); [right; right; by left|].
  right; right; by right.
Qed.

Lemma escapeUnit_no_angle x : (60%N ∉ escapeUnit x) ∧ (62%N ∉ escapeUnit x).
Proof.
  destruct (escapeUnit_cases x) as [[_ E]|[[_ E]|[[_ E]|E]]].
  1-3: rewrite E; split; intros H; vm_compute in H;
    repeat (apply elem_of_cons in H as [H|H]; [discriminate|]);
    by apply elem_of_nil in H.
  unfold escapeUnit in *. destruct E as [_ E].
  destruct (N.eqb_spec x 38); [discriminate|].
  destruct (N.eqb_spec x 60); [discriminate|].
  destruct (N.eqb_spec x 62); [discriminate|].
  split; intros H; apply list_elem_of_singleton in H; congruence.
Qed.

(** X22: the three replacements of [escapeHtml] amount to one pass that
    writes the entity of each code unit; the result holds no [<] and no
    [>], and a text without [&], [<] and [>] is left as it is. *)
Theorem X22_escapeHtml_no_angle_brackets (str : jsstring) :
  escapeHtml str = flat_map escapeUnit str
  ∧ (60%N ∉ escapeHtml str)
  ∧ (62%N ∉ escapeHtml str)
  ∧ (if bool_decide (38%N ∈ str ∨ 60%N ∈ str ∨ 62%N ∈ str)
     then True else escapeHtml str = str).
Proof.
  split; [apply escapeHtml_spec|]. rewrite escapeHtml_spec.
  split_and!.
  - intros H. apply list_elem_of_In, in_flat_map in H as (x & _ & Hx).
    apply list_elem_of_In in Hx. by apply (proj1 (escapeUnit_no_angle x)).
  - intros H. apply list_elem_of_In, in_flat_map in H as (x & _ & Hx).
    apply list_elem_of_In in Hx. by apply (proj2 (escapeUnit_no_angle x)).
  - case_bool_decide as Hs; [done|].
    induction str as [|x str IH]; [done|].
    simpl. rewrite IH.
    + unfold escapeUnit.
      destruct (N.eqb_spec x 38) as [->|?]; [exfalso; apply Hs; left; by left|].
      destruct (N.eqb_spec x 60) as [->|?];
        [exfalso; apply Hs; right; left; by left|].
      destruct (N.eqb_spec x 62) as [->|?];
        [exfalso; apply Hs; right; right; by left|].
      done.
    + intros [?|[?|?]]; apply Hs; [left|right; left|right; right]; by right.
Qed.

(** X23: escaping loses nothing: two texts with the same escaped form are
    the same text. *)
Theorem X23_escapeHtml_injective (a b : jsstring) :
  escapeHtml a = escapeHtml b ↔ a = b.
Proof.
  split; [|by intros ->]. rewrite !escapeHtml_spec.
  revert b. induction a as [|x a IH]; intros [|y b] H; cbn [flat_map] in H.
  - done.
  - destruct (escapeUnit_cases y) as [[_ E]|[[_ E]|[[_ E]|[_ E]]]];
      rewrite E in H; discriminate.
  - destruct (escapeUnit_cases x) as [[_ E]|[[_ E]|[[_ E]|[_ E]]]];
      rewrite E in H; discriminate.
  - destruct (escapeUnit_cases x) as [[-> Ex]|[[-> Ex]|[[-> Ex]|[Hx Ex]]]];
      destruct (escapeUnit_cases y) as [[-> Ey]|[[-> Ey]|[[-> Ey]|[Hy Ey]]]];
      rewrite ?Ex, ?Ey in H; simplify_eq/=; try done; f_equal; by apply IH.
Qed.

(** ** Line numbers shown by the line component *)

Lemma numberedLine_shown l :
  numberedLine l →
  lineNumberOld l = line_oldLineNumber l
  ∧ lineNumberNew l = match line_type l with
                      | Delete => line_oldLineNumber l
                      | _ => line_newLineNumber l
                      end.
Proof.
  unfold numberedLine, lineNumberOld, lineNumberNew.
  destruct (line_type l); [intros [Ho Hl]|intros [Hn Hl]|done].
  - rewrite Ho, Hl. by destruct (line_newLineNumber l).
  - rewrite Hl. by destruct (line_oldLineNumber l).
Qed.

(** X24: for every line of a parsed diff the line component finds the old
    number of the line as [lineNumberOld]; as [lineNumberNew] it finds the
    new number for an insert or normal line, and for a delete line the old
    number of that line. *)
Theorem X24_shown_line_numbers (opts : ParseOptions) (diffText : jsstring) :
  Forall
    (fun f =>
       Forall
         (fun item =>
            match item with
            | IsHunk h =>
                Forall
                  (fun l =>
                     lineNumberOld l = line_oldLineNumber l
                     ∧ lineNumberNew l = match line_type l with
                                         | Delete => line_oldLineNumber l
                                         | _ => line_newLineNumber l
                                         end)
                  (hunk_lines h)
            | IsSkip _ => True
            end)
         (hunks f))
    (parseUnifiedDiffWith opts diffText).
Proof.
  eapply Forall_impl; [apply parseUnifiedDiffWith_numbered|].
  intros f Hf. eapply Forall_impl; [exact Hf|].
  intros [h|s]; [|done]. intros (Hl & _ & _).
  eapply Forall_impl; [exact Hl|]. apply numberedLine_shown.
Qed.

(** ** The list of changed files of the compare page *)

Lemma classifyTo_typed fromFiles path toNode r :
  typedResult r → typedResult (classifyTo fromFiles path toNode r).
Proof.
  intros (Ha & Hr & Hm). unfold classifyTo, typedResult.
  repeat match goal with
         | |- context [match ?x with _ => _ end] => destruct x
         end; simpl; split_and!; try done;
    apply Forall_app; split; try done; by repeat constructor.
Qed.

Lemma scanTo_typed fromFiles entries : ∀ r,
  typedResult r → typedResult (scanTo fromFiles entries r).
Proof.
  induction entries as [|[path toNode] entries IH]; intros r Hr; [done|].
  simpl. destruct (overLimit r); [done|]. by apply IH, classifyTo_typed.
Qed.

Lemma scanFrom_typed toFiles entries : ∀ r,
  typedResult r → typedResult (scanFrom toFiles entries r).
Proof.
  induction entries as [|[path fromNode] entries IH]; intros r Hr; [done|].
  simpl. destruct (node_type fromNode); [|by apply IH].
  destruct (overLimit r); [done|]. apply IH.
  unfold recordRemoved. destruct (negb _); [|done].
  destruct Hr as (Ha & Hr & Hm). split_and!; simpl; try done.
  apply Forall_app. split; [done|]. by repeat constructor.
Qed.

Lemma compareFileTrees_typed localeCompare fromTree toTree :
  typedResult (compareFileTrees localeCompare fromTree toTree).
Proof.
  unfold compareFileTrees.
  assert (H : typedResult
                (scanFrom (flattenTree toTree) (flattenTree fromTree)
                   (scanTo (flattenTree fromTree) (flattenTree toTree)
                      (mkResult [] [] [] false)))).
  { apply scanFrom_typed, scanTo_typed. by repeat split. }
  destruct H as (Ha & Hr & Hm). unfold typedResult. simpl.
  by rewrite !sortWith_Permutation.
Qed.

Lemma compareFileTrees_paths localeCompare fromTree toTree :
  NoDup (changedPaths (compareFileTrees localeCompare fromTree toTree)).
Proof.
  unfold compareFileTrees.
  set (fromFiles := flattenTree fromTree).
  set (toFiles := flattenTree toTree).
  set (r1 := scanTo fromFiles toFiles (mkResult [] [] [] false)).
  unfold changedPaths. simpl. rewrite !sortWith_Permutation.
  destruct (scanTo_paths fromFiles toFiles (mkResult [] [] [] false))
    as [Hnd Hsub];
    [apply flattenTree_NoDup|constructor|by intros p ?%elem_of_nil|].
  apply (scanFrom_paths toFiles fromFiles r1);
    [apply flattenTree_NoDup|done|].
  intros p Hp. left. destruct (Hsub p Hp) as [?%elem_of_nil|?]; done.
Qed.

Lemma filter_all_typed (ty : ChangeType) (l : list FileChange) :
  Forall (fun c => fc_type c = ty) l → filter (fun f => fc_type f = ty) l = l.
Proof.
  induction 1 as [|c l Hc Hl IH]; [done|].
  rewrite filter_cons. case_decide; [|done]. by rewrite IH.
Qed.

Lemma filter_none_typed (ty ty' : ChangeType) (l : list FileChange) :
  ty ≠ ty' →
  Forall (fun c => fc_type c = ty') l → filter (fun f => fc_type f = ty) l = [].
Proof.
  intros Hne. induction 1 as [|c l Hc Hl IH]; [done|].
  rewrite filter_cons. case_decide; [congruence|done].
Qed.

(** X25: the list of changed files the compare page shows for a response
    holds every path once and has as many entries as the stats count;
    the filter for added, removed or modified files leaves the entries of
    that list of the response, and the filter for all leaves every
    entry. *)
Theorem X25_all_changes_and_filters
    (semverDiff : jsstring → jsstring → SemverOutcome)
    (localeCompare : jsstring → jsstring → Z)
    (packageName from to : jsstring)
    (fromTree toTree : list PackageFileTree)
    (fromPkg toPkg : option Manifest) (computeTime : Z) :
  let resp := buildCompareResponse semverDiff localeCompare packageName from to
                fromTree toTree fromPkg toPkg computeTime in
  let all := allChanges localeCompare (Some resp) in
  let stats := resp_stats resp in
  NoDup (map fc_path all)
  ∧ Z.of_nat (length all)
    = filesAdded stats + filesRemoved stats + filesModified stats
  ∧ filteredChanges (Some Added) all ≡ₚ (resp_files resp).1.1
  ∧ filteredChanges (Some Removed) all ≡ₚ (resp_files resp).1.2
  ∧ filteredChanges (Some Modified) all ≡ₚ (resp_files resp).2
  ∧ filteredChanges None all = all.
Proof.
  intros resp all stats. subst stats all resp.
  unfold buildCompareResponse, allChanges, filteredChanges.
  cbn [resp_files resp_stats filesAdded filesRemoved filesModified fst snd].
  pose proof (compareFileTrees_typed localeCompare fromTree toTree)
    as (Ha & Hr & Hm).
  pose proof (compareFileTrees_paths localeCompare fromTree toTree) as Hp.
  set (r := compareFileTrees localeCompare fromTree toTree) in *.
  unfold changedPaths in Hp.
  split_and!.
  - by rewrite sortWith_Permutation.
  - rewrite length_sortWith, !length_app. lia.
  - rewrite sortWith_Permutation, !filter_app.
    rewrite (filter_all_typed Added (added r)) by done.
    rewrite (filter_none_typed Added Removed (removed r)) by done.
    rewrite (filter_none_typed Added Modified (modified r)) by done.
    by rewrite !app_nil_r.
  - rewrite sortWith_Permutation, !filter_app.
    rewrite (filter_all_typed Removed (removed r)) by done.
    rewrite (filter_none_typed Removed Added (added r)) by done.
    rewrite (filter_none_typed Removed Modified (modified r)) by done.
    by rewrite !app_nil_r.
  - rewrite sortWith_Permutation, !filter_app.
    rewrite (filter_all_typed Modified (modified r)) by done.
    rewrite (filter_none_typed Modified Added (added r)) by done.
    by rewrite (filter_none_typed Modified Removed (removed r)) by done.
  - done.
Qed.

(** ** Hunk headers *)

Lemma span_digits d rest :
  Forall (fun c => is_digit c = true) d →
  match rest with c :: _ => is_digit c = false | [] => True end →
  span is_digit (d ++ rest) = (d, rest).
Proof.
  intros Hd Hrest. induction Hd as [|c d Hc Hd IH]; simpl.
  - destruct rest as [|c rest]; [done|]. simpl. by rewrite Hrest.
  - by rewrite Hc, IH.
Qed.

Lemma matchDigits_digits d rest :
  isDigits d →
  match rest with c :: _ => is_digit c = false | [] => True end →
  matchDigits (d ++ rest) = Some (d, rest).
Proof.
  intros [Hne Hd] Hrest. unfold matchDigits. rewrite span_digits by done.
  by destruct d.
Qed.

Lemma matchOptLength_optional d rest :
  match d with Some d => isDigits d | None => True end →
  match rest with c :: _ => c = 32%N | [] => False end →
  matchOptLength (optionalLength d ++ rest) = (d, rest).
Proof.
  intros Hd Hrest. destruct rest as [|c rest]; [done|]. subst c.
  unfold matchOptLength. destruct d as [d|]; simpl; [|done].
  by rewrite (matchDigits_digits d (32%N :: rest)).
Qed.

Lemma matchHunkHeader_header d1 d2 d3 d4 trailer :
  isDigits d1 →
  match d2 with Some d => isDigits d | None => True end →
  isDigits d3 →
  match d4 with Some d => isDigits d | None => True end →
  matchHunkHeader (hunkHeader d1 d2 d3 d4 trailer) = Some (d1, d2, d3, d4).
Proof.
  intros H1 H2 H3 H4. unfold matchHunkHeader, hunkHeader.
  change (stripPrefix (lit "@@ -")
            (lit "@@ -" ++ d1 ++ optionalLength d2 ++ lit " +" ++ d3
             ++ optionalLength d4 ++ lit " @@" ++ trailer))
    with (Some (d1 ++ optionalLength d2 ++ lit " +" ++ d3
                ++ optionalLength d4 ++ lit " @@" ++ trailer)).
  cbn [mbind option_bind].
  rewrite matchDigits_digits; [|done|].
  2:{ destruct d2 as [d2|]; simpl; reflexivity. }
  cbn [mbind option_bind].
  rewrite (matchOptLength_optional d2); [|done|done].
  change (stripPrefix (lit " +")
            (lit " +" ++ d3 ++ optionalLength d4 ++ lit " @@" ++ trailer))
    with (Some (d3 ++ optionalLength d4 ++ lit " @@" ++ trailer)).
  cbn [mbind option_bind].
  rewrite matchDigits_digits; [|done|].
  2:{ destruct d4 as [d4|]; simpl; reflexivity. }
  cbn [mbind option_bind].
  rewrite (matchOptLength_optional d4); [|done|done].
  change (stripPrefix (lit " @@") (lit " @@" ++ trailer)) with (Some trailer).
  done.
Qed.

Lemma decimalValue_snoc d c :
  decimalValue (d ++ [c]) = 10 * decimalValue d + (Z.of_N c - 48).
Proof. unfold decimalValue. by rewrite fold_left_app. Qed.

Lemma decimalValue_bounds d :
  Forall (fun c => is_digit c = true) d →
  0 <= decimalValue d < 10 ^ Z.of_nat (length d).
Proof.
  induction d as [|c d IH] using rev_ind; intros Hd.
  - unfold decimalValue. simpl. lia.
  - apply Forall_app in Hd as [Hd Hc]. apply Forall_inv in Hc.
    specialize (IH Hd). rewrite decimalValue_snoc, length_app. simpl.
    unfold is_digit in Hc. apply andb_prop in Hc as [Hlo Hhi].
    apply N.leb_le in Hlo, Hhi.
    replace (Z.of_nat (length d + 1)) with (Z.succ (Z.of_nat (length d))) by lia.
    rewrite Z.pow_succ_r by lia. lia.
Qed.

(** A run of at most 15 digits writes a line number, which [parseInt]
    reads exactly. *)
Lemma parseDigits_exact d :
  isDigits d → (length d <= 15)%nat → parseDigits d = decimalValue d.
Proof.
  intros [_ Hd] Hlen. unfold parseDigits. apply ofZ_safe.
  pose proof (decimalValue_bounds d Hd) as [Hlo Hhi].
  assert (10 ^ Z.of_nat (length d) <= 10 ^ 15)
    by (apply Z.pow_le_mono_r; lia).
  unfold Number.MAX_SAFE_INTEGER. lia.
Qed.

(** Past [Number.MAX_SAFE_INTEGER] a run is read as the nearest double. *)
Lemma parseDigits_rounds :
  parseDigits (lit "9007199254740993") = 9007199254740992.
Proof. vm_compute. reflexivity. Qed.

(** X26: a line that is a hunk header [@@ -d1,d2 +d3,d4 @@...], each run
    of digits having at most 20 digits, opens a hunk with no change yet and
    the header as content; its old start and the running old line counter
    are what [parseInt] reads in [d1], its new start and the new line
    counter what it reads in [d3]; a length that is left out counts as 1.
    What [parseInt] reads in a run of at most 15 digits is the integer the
    run writes. *)
Theorem X26_hunk_header_opens_hunk (opts : ParseOptions) (st : ParserState)
    (d1 d3 : jsstring) (d2 d4 : option jsstring) (trailer : jsstring) :
  isShortDigits d1 →
  match d2 with Some d => isShortDigits d | None => True end →
  isShortDigits d3 →
  match d4 with Some d => isShortDigits d | None => True end →
  let line := hunkHeader d1 d2 d3 d4 trailer in
  let st' := parseLine opts st line in
  currentHunk st'
  = Some (mkRawHunk [] (parseDigits d1) (parseDigits (default (lit "1") d2))
            (parseDigits d3) (parseDigits (default (lit "1") d4)) line)
  ∧ oldLine st' = parseDigits d1
  ∧ newLine st' = parseDigits d3
  ∧ parseDigits (lit "1") = 1
  ∧ ∀ d, isDigits d → (length d <= 15)%nat → parseDigits d = decimalValue d.
Proof.
  intros [H1 _] H2 [H3 _] H4 line st'. subst st'. unfold parseLine.
  assert (startsWith line (lit "---") = false) as -> by done.
  assert (startsWith line (lit "+++") = false) as -> by done.
  subst line. rewrite matchHunkHeader_header; [|done| |done|].
  - split_and!; try done. apply parseDigits_exact.
  - destruct d2 as [d2|]; [apply H2|done].
  - destruct d4 as [d4|]; [apply H4|done].
Qed.

(** The header of a hunk of three old lines at 50 and one new line at 52. *)
Lemma X26_hunk_header_opens_hunk_witness :
  let st := parseLine defaultOptions (mkParser [] None None 0 0)
              (lit "@@ -50,3 +52 @@ fn") in
  oldLine st = 50 ∧ newLine st = 52
  ∧ (raw_oldLines <$> currentHunk st) = Some 3
  ∧ (raw_newLines <$> currentHunk st) = Some 1.
Proof.
  destruct (X26_hunk_header_opens_hunk defaultOptions (mkParser [] None None 0 0)
              (lit "50") (lit "52") (Some (lit "3")) None (lit " fn"))
    as (Hh & Ho & Hn & _).
  - split; [split; [discriminate|repeat constructor]|simpl; lia].
  - split; [split; [discriminate|repeat constructor]|simpl; lia].
  - split; [split; [discriminate|repeat constructor]|simpl; lia].
  - exact I.
  - intros st. split_and!.
    + exact Ho.
    + exact Hn.
    + exact (f_equal (fmap raw_oldLines) Hh).
    + exact (f_equal (fmap raw_newLines) Hh).
Defined.

(** ** The type of a file and its stats *)

Lemma existsb_linesOfKind k lines :
  existsb (fun l => bool_decide (line_type l = k)) lines = true
  ↔ 0 < linesOfKind k lines.
Proof.
  induction lines as [|l lines IH].
  - unfold linesOfKind. simpl. split; [done|lia].
  - rewrite linesOfKind_cons. cbn [existsb].
    assert (0 <= linesOfKind k lines) by (unfold linesOfKind; lia).
    case_bool_decide; simpl; [split; [lia|done]|].
    rewrite IH. split; lia.
Qed.

Lemma countKind_nonneg k items : 0 <= countKind k items.
Proof.
  induction items as [|[h|s] l IHl]; simpl; [lia| |done].
  unfold linesOfKind. lia.
Qed.

Lemma existsb_countKind k items :
  existsb (hasLineOfKind k) items = true ↔ 0 < countKind k items.
Proof.
  pose proof (countKind_nonneg k) as Hnn.
  induction items as [|[h|s] items IH]; cbn [existsb countKind hasLineOfKind].
  - split; [done|lia].
  - rewrite orb_true_iff, existsb_linesOfKind, IH.
    assert (0 <= linesOfKind k (hunk_lines h)) by (unfold linesOfKind; lia).
    specialize (Hnn items). lia.
  - simpl. apply IH.
Qed.

Lemma parseUnifiedDiffWith_derived opts diffText :
  Forall (fun f => f = deriveType f) (parseUnifiedDiffWith opts diffText).
Proof.
  unfold parseUnifiedDiffWith. apply Forall_fmap, Forall_forall.
  intros f _. done.
Qed.

(** X27: the type of a parsed file agrees with its stats: it is add when
    there are additions and no deletion, delete when there are deletions
    and no addition, and modify otherwise, in particular when merging left
    neither. *)
Theorem X27_file_type_agrees_with_stats (opts : ParseOptions)
    (diffText : jsstring) :
  Forall
    (fun f =>
       let stats := countDiffStats (hunks f) in
       file_type f
       = if bool_decide (0 < additions stats ∧ deletions stats = 0) then Add
         else if bool_decide (0 < deletions stats ∧ additions stats = 0) then Del
         else Modify)
    (parseUnifiedDiffWith opts diffText).
Proof.
  eapply Forall_impl; [apply parseUnifiedDiffWith_derived|].
  intros f Hf. cbv zeta. rewrite countDiffStats_spec. simpl.
  rewrite Hf at 1. unfold deriveType. cbn [file_type].
  pose proof (countKind_nonneg Insert (hunks f)) as Ha.
  pose proof (countKind_nonneg Delete (hunks f)) as Hd.
  pose proof (existsb_countKind Insert (hunks f)) as Hi.
  pose proof (existsb_countKind Delete (hunks f)) as Hde.
  destruct (existsb (hasLineOfKind Insert) (hunks f)),
    (existsb (hasLineOfKind Delete) (hunks f)); simpl;
    repeat case_bool_decide; try done; exfalso;
    repeat match goal with
           | H : _ ↔ _ |- _ => destruct H
           end; intuition lia.
Qed.

(** ** Dependency changes grouped by section *)

Lemma sectionName_inj s s' : sectionName s = sectionName s' → s = s'.
Proof. destruct s, s'; done || discriminate. Qed.

Lemma groupedDeps_get s changes : ∀ groups,
  mapGet (sectionName s) (fold_left groupStep changes groups)
  = match changesOfSection s changes with
    | [] => mapGet (sectionName s) groups
    | c :: cs =>
        Some (default [] (mapGet (sectionName s) groups) ++ c :: cs)
    end.
Proof.
  induction changes as [|c changes IH]; intros groups; [done|].
  cbn [fold_left]. rewrite IH. unfold changesOfSection, groupStep.
  rewrite filter_cons.
  destruct (decide (dep_section c = s)) as [<-|Hne].
  - rewrite mapGet_mapSet_eq. simpl.
    destruct (filter _ changes); by rewrite <- ?app_assoc.
  - rewrite mapGet_mapSet_ne; [done|].
    intros E. by apply sectionName_inj in E.
Qed.

(** X28: the compare page groups the dependency changes by section: the
    group of a section holds the changes of that section in their order,
    and a section without change has no group. *)
Theorem X28_groupedDeps_by_section (resp : CompareResponse) (s : DepSection) :
  mapGet (sectionName s) (groupedDeps (Some resp))
  = match changesOfSection s (resp_dependencyChanges resp) with
    | [] => None
    | c :: cs => Some (c :: cs)
    end
  ∧ groupedDeps None = [].
Proof.
  split; [|done]. unfold groupedDeps. by rewrite groupedDeps_get.
Qed.
